(** * Settlement engine of the golf-trip tracker ([settle_up] in app.py)

    The handler reads the roster and the expenses, accumulates one balance
    per player id in a [defaultdict(float)], splits the players into debtors
    and creditors, sorts both by outstanding amount and sweeps the two lists
    with two cursors, emitting who-pays-whom transactions.

    Amounts are modelled as exact rationals ([Q], compared with [==]):
    the rounding of binary floating point is not part of this model.
    Python exceptions and the unbounded [while] loop are explicit in the
    [outcome] type, the loop being driven by a fuel counter. *)

From Stdlib Require Import ZArith QArith Qround Qabs Qminmax Lia Lqa String.
From Stdlib Require Import Floats.PrimFloat.
From stdpp Require Import base option list sorting gmap strings.

Local Open Scope Q_scope.

(** ** Python runtime pieces used by the handler *)

Inductive exn : Type :=
  | ZeroDivisionError
  | IndexError
  | AttributeError.

Inductive outcome (A : Type) : Type :=
  | Returns (a : A)
  | Raises (e : exn)
  | OutOfFuel.

Arguments Returns {A} a.
Arguments Raises {A} e.
Arguments OutOfFuel {A}.

Definition bind {A B : Type} (m : outcome A) (k : A -> outcome B) : outcome B :=
  match m with
  | Returns a => k a
  | Raises e => Raises e
  | OutOfFuel => OutOfFuel
  end.

Notation "x <~ m ;; k" := (bind m (fun x => k))
  (at level 100, m at next level, right associativity).

(** [x < y] on floats, as a boolean. *)
Definition Qltb (x y : Q) : bool := negb (Qle_bool y x).

(** [x / n] with [n] an [int]: raises when [n] is zero. *)
Definition py_truediv (x : Q) (n : nat) : outcome Q :=
  match n with
  | O => Raises ZeroDivisionError
  | S _ => Returns (x / inject_Z (Z.of_nat n))
  end.

(** [l[i]] on a list. *)
Definition py_index {A : Type} (l : list A) (i : nat) : outcome A :=
  match l !! i with
  | Some a => Returns a
  | None => Raises IndexError
  end.

(** [round(x)] to the nearest integer, halves to the even neighbour. *)
Definition round_half_even (q : Q) : Z :=
  let fl := Qfloor q in
  match Qcompare (q - inject_Z fl) (1 # 2) with
  | Lt => fl
  | Gt => (fl + 1)%Z
  | Eq => if Z.even fl then fl else (fl + 1)%Z
  end.

(** [round(x, 2)]. *)
Definition py_round2 (q : Q) : Q :=
  Qred (inject_Z (round_half_even (q * 100)) / 100).

(** [defaultdict(float)] keyed by player id.  Reading a missing key stores
    the default [0.0] under it and returns it, so a read hands back the
    dictionary as well. *)
Definition dd_getitem (d : gmap Z Q) (k : Z) : Q * gmap Z Q :=
  match d !! k with
  | Some v => (v, d)
  | None => (0, <[k := 0]> d)
  end.

Definition dd_setitem (d : gmap Z Q) (k : Z) (v : Q) : gmap Z Q :=
  <[k := v]> d.

(** [d[k] += x] and [d[k] -= x]: a read followed by a store. *)
Definition dd_iadd (d : gmap Z Q) (k : Z) (x : Q) : gmap Z Q :=
  let '(v, d) := dd_getitem d k in dd_setitem d k (v + x).

Definition dd_isub (d : gmap Z Q) (k : Z) (x : Q) : gmap Z Q :=
  let '(v, d) := dd_getitem d k in dd_setitem d k (v - x).

(** ** Rows handed over by the storage layer *)

Record Player : Type := mkPlayer {
  player_id : Z;
  player_name : string
}.

Record ExpenseParticipant : Type := mkParticipant {
  participant_player : Player
}.

Record Expense : Type := mkExpense {
  expense_amount : Q;
  expense_payer : Player;
  expense_participants : list ExpenseParticipant
}.

(** ** Values built by the handler *)

(** [{'player': ..., 'amount': ...}] *)
Record Entry : Type := mkEntry {
  entry_player : Player;
  entry_amount : Q
}.

(** [{'from': ..., 'to': ..., 'amount': ...}], the two ends being names. *)
Record Transaction : Type := mkTransaction {
  tx_from : string;
  tx_to : string;
  tx_amount : Q
}.

(** ** Balances (lines 572-583) *)

Definition init_balances (players : list Player) : gmap Z Q :=
  foldl (fun balances player => dd_setitem balances (player_id player) 0)
        ∅ players.

Definition charge_participants (share_per_person : Q)
    (participants : list ExpenseParticipant) (balances : gmap Z Q)
    : gmap Z Q :=
  foldl (fun balances participant =>
           dd_isub balances (player_id (participant_player participant))
                   share_per_person)
        balances participants.

Definition add_expense (balances : gmap Z Q) (expense : Expense)
    : outcome (gmap Z Q) :=
  let payer := expense_payer expense in
  let balances := dd_iadd balances (player_id payer) (expense_amount expense) in
  match expense_participants expense with
  | [] => Returns balances
  | _ :: _ =>
      share_per_person <~ py_truediv (expense_amount expense)
                            (length (expense_participants expense)) ;;
      Returns (charge_participants share_per_person
                 (expense_participants expense) balances)
  end.

Fixpoint add_expenses (balances : gmap Z Q) (expenses : list Expense)
    : outcome (gmap Z Q) :=
  match expenses with
  | [] => Returns balances
  | expense :: rest =>
      balances <~ add_expense balances expense ;;
      add_expenses balances rest
  end.

Definition computeBalances (players : list Player) (expenses : list Expense)
    : outcome (gmap Z Q) :=
  add_expenses (init_balances players) expenses.

(** ** Debtors and creditors (lines 585-595) *)

Definition classify (acc : gmap Z Q * list Entry * list Entry)
    (player : Player) : gmap Z Q * list Entry * list Entry :=
  let '(balances, debtors, creditors) := acc in
  let '(b, balances) := dd_getitem balances (player_id player) in
  if Qltb b 0 then
    let '(b, balances) := dd_getitem balances (player_id player) in
    (balances, debtors ++ [mkEntry player (Qabs b)], creditors)
  else
    let '(b, balances) := dd_getitem balances (player_id player) in
    if Qltb 0 b then
      let '(b, balances) := dd_getitem balances (player_id player) in
      (balances, debtors, creditors ++ [mkEntry player b])
    else (balances, debtors, creditors).

Definition partition_players (players : list Player) (balances : gmap Z Q)
    : gmap Z Q * list Entry * list Entry :=
  foldl classify (balances, [], []) players.

(** [list.sort(key=lambda x: x['amount'], reverse=True)]: a stable sort,
    largest amount first, equal amounts in their order of arrival. *)
Fixpoint insert_desc (e : Entry) (l : list Entry) : list Entry :=
  match l with
  | [] => [e]
  | h :: t =>
      if Qltb (entry_amount e) (entry_amount h)
      then h :: insert_desc e t
      else e :: h :: t
  end.

Definition sort_desc (l : list Entry) : list Entry :=
  foldr insert_desc [] l.

(** ** The two-cursor sweep (lines 597-616) *)

Record Sweep : Type := mkSweep {
  sw_debtors : list Entry;
  sw_creditors : list Entry;
  sw_i : nat;
  sw_j : nat;
  sw_transactions : list Transaction
}.

Definition set_amount (e : Entry) (a : Q) : Entry :=
  mkEntry (entry_player e) a.

(** [while i < len(debtors) and j < len(creditors)] *)
Definition sweep_guard (s : Sweep) : bool :=
  (sw_i s <? length (sw_debtors s))%nat
  && (sw_j s <? length (sw_creditors s))%nat.

(** One pass through the loop body.  The two entries are dictionaries held
    by the lists, so the in-place subtraction is an update of the lists at
    the cursors, visible to the tests that follow. *)
Definition sweep_body (s : Sweep) : outcome Sweep :=
  debtor <~ py_index (sw_debtors s) (sw_i s) ;;
  creditor <~ py_index (sw_creditors s) (sw_j s) ;;
  let amount_to_settle := Qmin (entry_amount debtor) (entry_amount creditor) in
  let '(debtor, creditor, debtors, creditors, transactions) :=
    if Qltb 0.01 amount_to_settle then
      let debtor' := set_amount debtor (entry_amount debtor - amount_to_settle) in
      let creditor' :=
        set_amount creditor (entry_amount creditor - amount_to_settle) in
      (debtor', creditor',
       <[sw_i s := debtor']> (sw_debtors s),
       <[sw_j s := creditor']> (sw_creditors s),
       sw_transactions s ++
         [mkTransaction (player_name (entry_player debtor))
                        (player_name (entry_player creditor))
                        (py_round2 amount_to_settle)])
    else (debtor, creditor, sw_debtors s, sw_creditors s, sw_transactions s) in
  let i := if Qltb (entry_amount debtor) 0.01 then S (sw_i s) else sw_i s in
  let j := if Qltb (entry_amount creditor) 0.01 then S (sw_j s) else sw_j s in
  Returns (mkSweep debtors creditors i j transactions).

Fixpoint sweep_loop (fuel : nat) (s : Sweep) : outcome Sweep :=
  if sweep_guard s then
    match fuel with
    | O => OutOfFuel
    | S fuel => s <~ sweep_body s ;; sweep_loop fuel s
    end
  else Returns s.

Definition sweep_start (debtors creditors : list Entry) : Sweep :=
  mkSweep (sort_desc debtors) (sort_desc creditors) 0 0 [].

(** ** The two engine operations and the handler *)

Definition sweep_of (players : list Player) (balances : gmap Z Q) : Sweep :=
  let '(_, debtors, creditors) := partition_players players balances in
  sweep_start debtors creditors.

(** The dictionary as the partition leaves it. *)
Definition balances_read (players : list Player) (balances : gmap Z Q)
    : gmap Z Q :=
  (partition_players players balances).1.1.

Definition computeTransactions (fuel : nat) (players : list Player)
    (balances : gmap Z Q) : outcome (list Transaction) :=
  s <~ sweep_loop fuel (sweep_of players balances) ;;
  Returns (sw_transactions s).

(** What [render_template] receives. *)
Record Response : Type := mkResponse {
  resp_players : list Player;
  resp_expenses : list Expense;
  resp_balances : gmap Z Q;
  resp_transactions : list Transaction
}.

Definition settle_up (fuel : nat) (players : list Player)
    (expenses : list Expense) : outcome Response :=
  balances <~ computeBalances players expenses ;;
  transactions <~ computeTransactions fuel players balances ;;
  Returns (mkResponse players expenses (balances_read players balances)
                      transactions).

(** ** Quantities the properties speak about *)

(** [sum(balances.values())] *)
Definition sum_values (m : gmap Z Q) : Q :=
  map_fold (fun _ v acc => v + acc) 0 m.

(** Total amount of the expenses that list no participant. *)
Definition unshared_total (expenses : list Expense) : Q :=
  foldr (fun e acc =>
           match expense_participants e with
           | [] => expense_amount e + acc
           | _ :: _ => acc
           end) 0 expenses.

Definition player_ids (players : list Player) : gset Z :=
  list_to_set (player_id <$> players).

(** Ids an expense mentions: its payer and its participants. *)
Definition expense_ids (e : Expense) : gset Z :=
  {[player_id (expense_payer e)]} ∪
  list_to_set ((fun ep => player_id (participant_player ep))
                 <$> expense_participants e).

Definition expenses_ids (expenses : list Expense) : gset Z :=
  ⋃ (expense_ids <$> expenses).

(** The balance the handler reads for a player: [balances[player.id]]. *)
Definition balance_of (balances : gmap Z Q) (player : Player) : Q :=
  default 0 (balances !! player_id player).

(** The dictionary after every listed player has been read once. *)
Definition touch_players (players : list Player) (balances : gmap Z Q)
    : gmap Z Q :=
  foldl (fun m p => (dd_getitem m (player_id p)).2) balances players.

(** The two lists of the partition, written as comprehensions. *)
Definition debtors_of (players : list Player) (balances : gmap Z Q)
    : list Entry :=
  (fun p => mkEntry p (Qabs (balance_of balances p)))
    <$> List.filter (fun p => Qltb (balance_of balances p) 0) players.

Definition creditors_of (players : list Player) (balances : gmap Z Q)
    : list Entry :=
  (fun p => mkEntry p (balance_of balances p))
    <$> List.filter (fun p => Qltb 0 (balance_of balances p)) players.

(** Largest outstanding amount first. *)
Definition amount_ge (a b : Entry) : Prop :=
  entry_amount b <= entry_amount a.

(** The entries of a list whose amount is [a], in the order of the list. *)
Definition with_amount (a : Q) (l : list Entry) : list Entry :=
  List.filter (fun e => Qeq_bool (entry_amount e) a) l.

(** Both amounts at least one cent and the smaller one exactly one cent. *)
Definition stuck (s : Sweep) : Prop :=
  exists d c,
    sw_debtors s !! sw_i s = Some d /\ sw_creditors s !! sw_j s = Some c
    /\ Qmin (entry_amount d) (entry_amount c) == 0.01.


(** The players of a list of entries, in order. *)
Definition players_of (l : list Entry) : list Player := entry_player <$> l.

(** Every transaction goes from a player of [debtors] to a player of
    [creditors], and the sweep still works on those players. *)
Definition pays_across (debtors creditors : list Player) (s : Sweep) : Prop :=
  players_of (sw_debtors s) = debtors
  /\ players_of (sw_creditors s) = creditors
  /\ Forall (fun t => exists d c,
               d ∈ debtors /\ c ∈ creditors
               /\ tx_from t = player_name d /\ tx_to t = player_name c)
            (sw_transactions s).

(** A call of [computeTransactions] as its caller sees it: the result, and
    the dictionary argument as the call leaves it. *)
Definition call_computeTransactions (fuel : nat) (players : list Player)
    (balances : gmap Z Q) : outcome (list Transaction) * gmap Z Q :=
  (computeTransactions fuel players balances, balances_read players balances).

(** An amount in whole cents. *)
Definition is_cents (q : Q) : Prop := exists k : Z, q * 100 == inject_Z k.

(** Outstanding amount of the entries whose player's name passes [P]. *)
Definition sum_entries (P : string -> bool) (l : list Entry) : Q :=
  foldr (fun e acc =>
           (if P (player_name (entry_player e)) then entry_amount e else 0)
           + acc) 0 l.

(** Amount of the transactions whose payer (receiver) passes [P]. *)
Definition sum_from (P : string -> bool) (txs : list Transaction) : Q :=
  foldr (fun t acc => (if P (tx_from t) then tx_amount t else 0) + acc) 0 txs.

Definition sum_to (P : string -> bool) (txs : list Transaction) : Q :=
  foldr (fun t acc => (if P (tx_to t) then tx_amount t else 0) + acc) 0 txs.

Definition everyone : string -> bool := fun _ => true.

Definition named (name : string) : string -> bool :=
  fun n => String.eqb n name.

(** [sum(t.amount for t in transactions)] *)
Definition total_paid (txs : list Transaction) : Q :=
  foldr (fun t acc => tx_amount t + acc) 0 txs.

(** [sum(max(b, 0))] over the balances of the players. *)
Definition positive_mass (players : list Player) (balances : gmap Z Q) : Q :=
  foldr (fun p acc => Qmax (balance_of balances p) 0 + acc) 0 players.

(** Sum of the balances of the players. *)
Definition roster_sum (players : list Player) (balances : gmap Z Q) : Q :=
  foldr (fun p acc => balance_of balances p + acc) 0 players.

(** A player's balance once every transaction is carried out: what the
    player pays is added to the balance, what the player receives is taken
    off it. *)
Definition settled_balance (balances : gmap Z Q) (txs : list Transaction)
    (p : Player) : Q :=
  balance_of balances p
  + sum_from (named (player_name p)) txs
  - sum_to (named (player_name p)) txs.

(** The same with the signs as the specification words them: the amount is
    taken off the payer's balance and added to the receiver's. *)
Definition settled_balance_as_worded (balances : gmap Z Q)
    (txs : list Transaction) (p : Player) : Q :=
  balance_of balances p
  - sum_from (named (player_name p)) txs
  + sum_to (named (player_name p)) txs.


(** What the sweep keeps true on any amounts: they stay non-negative, and
    what has been emitted is what has been taken off the creditors, up to
    half a cent of rounding for each transaction. *)
Record paying (creditors : list Entry) (s : Sweep) : Prop := {
  pg_debtors : Forall (fun e => 0 <= entry_amount e) (sw_debtors s);
  pg_creditors : Forall (fun e => 0 <= entry_amount e) (sw_creditors s);
  pg_received :
    Qabs (sum_entries everyone (sw_creditors s)
          + total_paid (sw_transactions s)
          - sum_entries everyone creditors)
    <= 0.005 * inject_Z (Z.of_nat (length (sw_transactions s)))
}.

(** ** Concrete rosters and expense lists *)

Definition alice : Player := mkPlayer 1 "A".
Definition bob : Player := mkPlayer 2 "B".
Definition carol : Player := mkPlayer 3 "C".
Definition dave : Player := mkPlayer 4 "D".

Definition shared_by (players : list Player) : list ExpenseParticipant :=
  mkParticipant <$> players.

(** A pays 90 for A, B and C. *)
Definition dinner : list Expense :=
  [mkExpense 90 alice (shared_by [alice; bob; carol])].


(** A pays two cents for A and B: each owes one cent. *)
Definition two_cents : list Expense :=
  [mkExpense 0.02 alice (shared_by [alice; bob])].

(** A pays one cent for A and B: each owes half a cent. *)
Definition one_cent : list Expense :=
  [mkExpense 0.01 alice (shared_by [alice; bob])].

(** C pays 30 for A; D pays 20 for A and B: balances -40, -10, +30, +20. *)
Definition four_players : list Player := [alice; bob; carol; dave].

Definition two_rounds : list Expense :=
  [mkExpense 30 carol (shared_by [alice]);
   mkExpense 20 dave (shared_by [alice; bob])].

Definition four_balances : gmap Z Q :=
  <[1%Z := -40]> (<[2%Z := -10]> (<[3%Z := 30]> (<[4%Z := 20]> ∅))).

Definition four_transactions : list Transaction :=
  [mkTransaction "A" "C" 30; mkTransaction "A" "D" 10;
   mkTransaction "B" "D" 10].

(** B pays 30 for A and C while only A is on the roster. *)
Definition guest_expense : list Expense :=
  [mkExpense 30 bob (shared_by [alice; carol])].

(** A pays 2.7 cents for A, B and C: B and C owe 0.9 cent each. *)
Definition small_change : list Expense :=
  [mkExpense 0.027 alice (shared_by [alice; bob; carol])].

(** ** The two-cent expense in binary64

  The values the handler computes for [two_cents] with Python's floats,
  to check that the rational model does not hide a rounding there. *)
Set Warnings "-inexact-float".

Module Binary64.

(** [min(a, b)] *)
Definition py_min (a b : float) : float :=
  if PrimFloat.ltb b a then b else a.

Definition amount : float := 0.02%float.

Definition share_per_person : float := PrimFloat.div amount 2%float.

(** [balances[A]]: [0.0 + amount - share_per_person] *)
Definition balance_A : float :=
  PrimFloat.sub (PrimFloat.add 0%float amount) share_per_person.

(** [balances[B]]: [0.0 - share_per_person] *)
Definition balance_B : float := PrimFloat.sub 0%float share_per_person.

Definition debtor_amount : float := PrimFloat.abs balance_B.

Definition creditor_amount : float := balance_A.

Definition amount_to_settle : float := py_min debtor_amount creditor_amount.

End Binary64.

(** * The handler on binary64

    Python's [float] is the IEEE 754 binary64 format, which is the format
    of Rocq's primitive floats.  This module is [settle_up] (lines 567-618)
    with the arithmetic of the code: sums, differences, quotients and
    comparisons are the operations of [PrimFloat], [0.01] is the double
    nearest to one hundredth and [round(x, 2)] returns a double.  The rows
    are as the ORM hands them over: [expense.payer] and
    [participant.player] are [None] when the row of the Player is missing,
    and reading [.id] from [None] raises [AttributeError]. *)

From Stdlib Require Floats Qpower.

Module Doubles.

Import Floats Qpower.

(** ** Python runtime pieces *)

(** The exact value of a double that is finite. *)
Definition magnitude (m : positive) (e : Z) : Q := inject_Z (Zpos m) * 2 ^ e.

Definition exact_value (x : float) : option Q :=
  match Prim2SF x with
  | S754_zero _ => Some 0
  | S754_finite s m e => Some (if s then - magnitude m e else magnitude m e)
  | S754_infinity _ | S754_nan => None
  end.

(** [float(n)] for an [int]: the nearest double. *)
Definition of_int (n : Z) : float := SF2Prim (binary_normalize prec emax n 0 false).

(** [x / n] with [n] an [int]: raises when [n] is zero. *)
Definition py_truediv (x : float) (n : nat) : outcome float :=
  match n with
  | O => Raises ZeroDivisionError
  | S _ => Returns (x / of_int (Z.of_nat n))%float
  end.

(** [min(a, b)] *)
Definition py_min (a b : float) : float :=
  if (b <? a)%float then b else a.

(** [round(x, 2)]: the exact value of [x] is rounded to a whole number of
    hundredths, halves to the even neighbour, and the result is the double
    nearest to that many hundredths.  Zeros, infinities and nan round to
    themselves. *)
Definition py_round2 (x : float) : float :=
  match Prim2SF x with
  | S754_finite s m e =>
      let numerator :=
        match round_half_even (magnitude m e * 100) with
        | Zpos hundredths => S754_finite s hundredths 0
        | _ => S754_zero s
        end in
      SF2Prim (SFdiv prec emax numerator (S754_finite false 100 0))
  | _ => x
  end.

(** [obj.id] where [obj] can be [None]. *)
Definition py_id (obj : option Player) : outcome Z :=
  match obj with
  | Some player => Returns (player_id player)
  | None => Raises AttributeError
  end.

(** [defaultdict(float)] keyed by player id: reading a missing key stores
    [0.0] under it. *)
Definition dd_getitem (d : gmap Z float) (k : Z) : float * gmap Z float :=
  match d !! k with
  | Some v => (v, d)
  | None => (0%float, <[k := 0%float]> d)
  end.

Definition dd_setitem (d : gmap Z float) (k : Z) (v : float) : gmap Z float :=
  <[k := v]> d.

Definition dd_iadd (d : gmap Z float) (k : Z) (x : float) : gmap Z float :=
  let '(v, d) := dd_getitem d k in dd_setitem d k (v + x)%float.

Definition dd_isub (d : gmap Z float) (k : Z) (x : float) : gmap Z float :=
  let '(v, d) := dd_getitem d k in dd_setitem d k (v - x)%float.

(** ** Rows handed over by the storage layer *)

Record ExpenseParticipant : Type := mkParticipant {
  participant_player : option Player
}.

Record Expense : Type := mkExpense {
  expense_amount : float;
  expense_payer : option Player;
  expense_participants : list ExpenseParticipant
}.

(** ** Values built by the handler *)

Record Entry : Type := mkEntry {
  entry_player : Player;
  entry_amount : float
}.

Record Transaction : Type := mkTransaction {
  tx_from : string;
  tx_to : string;
  tx_amount : float
}.

(** ** Balances (lines 572-583) *)

Definition init_balances (players : list Player) : gmap Z float :=
  foldl (fun balances player =>
           dd_setitem balances (player_id player) 0%float)
        ∅ players.

Fixpoint charge_participants (share_per_person : float)
    (participants : list ExpenseParticipant) (balances : gmap Z float)
    : outcome (gmap Z float) :=
  match participants with
  | [] => Returns balances
  | participant :: rest =>
      id <~ py_id (participant_player participant) ;;
      charge_participants share_per_person rest
        (dd_isub balances id share_per_person)
  end.

Definition add_expense (balances : gmap Z float) (expense : Expense)
    : outcome (gmap Z float) :=
  let payer := expense_payer expense in
  id <~ py_id payer ;;
  let balances := dd_iadd balances id (expense_amount expense) in
  match expense_participants expense with
  | [] => Returns balances
  | _ :: _ =>
      share_per_person <~ py_truediv (expense_amount expense)
                            (length (expense_participants expense)) ;;
      charge_participants share_per_person (expense_participants expense)
        balances
  end.

Fixpoint add_expenses (balances : gmap Z float) (expenses : list Expense)
    : outcome (gmap Z float) :=
  match expenses with
  | [] => Returns balances
  | expense :: rest =>
      balances <~ add_expense balances expense ;;
      add_expenses balances rest
  end.

Definition computeBalances (players : list Player) (expenses : list Expense)
    : outcome (gmap Z float) :=
  add_expenses (init_balances players) expenses.

(** ** Debtors and creditors (lines 585-595) *)

Definition classify (acc : gmap Z float * list Entry * list Entry)
    (player : Player) : gmap Z float * list Entry * list Entry :=
  let '(balances, debtors, creditors) := acc in
  let '(b, balances) := dd_getitem balances (player_id player) in
  if (b <? 0)%float then
    let '(b, balances) := dd_getitem balances (player_id player) in
    (balances, debtors ++ [mkEntry player (abs b)], creditors)
  else
    let '(b, balances) := dd_getitem balances (player_id player) in
    if (0 <? b)%float then
      let '(b, balances) := dd_getitem balances (player_id player) in
      (balances, debtors, creditors ++ [mkEntry player b])
    else (balances, debtors, creditors).

Definition partition_players (players : list Player)
    (balances : gmap Z float) : gmap Z float * list Entry * list Entry :=
  foldl classify (balances, [], []) players.

(** [list.sort(key=lambda x: x['amount'], reverse=True)]: a stable sort,
    largest amount first.  The amounts of the two lists are never nan (a
    nan balance is neither below nor above zero), so they are totally
    ordered and every stable sort gives this list. *)
Fixpoint insert_desc (e : Entry) (l : list Entry) : list Entry :=
  match l with
  | [] => [e]
  | h :: t =>
      if (entry_amount e <? entry_amount h)%float
      then h :: insert_desc e t
      else e :: h :: t
  end.

Definition sort_desc (l : list Entry) : list Entry :=
  foldr insert_desc [] l.

(** ** The two-cursor sweep (lines 597-616) *)

Record Sweep : Type := mkSweep {
  sw_debtors : list Entry;
  sw_creditors : list Entry;
  sw_i : nat;
  sw_j : nat;
  sw_transactions : list Transaction
}.

Definition set_amount (e : Entry) (a : float) : Entry :=
  mkEntry (entry_player e) a.

Definition sweep_guard (s : Sweep) : bool :=
  (sw_i s <? length (sw_debtors s))%nat
  && (sw_j s <? length (sw_creditors s))%nat.

Definition sweep_body (s : Sweep) : outcome Sweep :=
  debtor <~ py_index (sw_debtors s) (sw_i s) ;;
  creditor <~ py_index (sw_creditors s) (sw_j s) ;;
  let amount_to_settle :=
    py_min (entry_amount debtor) (entry_amount creditor) in
  let '(debtor, creditor, debtors, creditors, transactions) :=
    if (0.01 <? amount_to_settle)%float then
      let debtor' :=
        set_amount debtor (entry_amount debtor - amount_to_settle)%float in
      let creditor' :=
        set_amount creditor
          (entry_amount creditor - amount_to_settle)%float in
      (debtor', creditor',
       <[sw_i s := debtor']> (sw_debtors s),
       <[sw_j s := creditor']> (sw_creditors s),
       sw_transactions s ++
         [mkTransaction (player_name (entry_player debtor))
                        (player_name (entry_player creditor))
                        (py_round2 amount_to_settle)])
    else (debtor, creditor, sw_debtors s, sw_creditors s, sw_transactions s) in
  let i := if (entry_amount debtor <? 0.01)%float then S (sw_i s) else sw_i s in
  let j :=
    if (entry_amount creditor <? 0.01)%float then S (sw_j s) else sw_j s in
  Returns (mkSweep debtors creditors i j transactions).

Fixpoint sweep_loop (fuel : nat) (s : Sweep) : outcome Sweep :=
  if sweep_guard s then
    match fuel with
    | O => OutOfFuel
    | S fuel => s <~ sweep_body s ;; sweep_loop fuel s
    end
  else Returns s.

Definition sweep_of (players : list Player) (balances : gmap Z float)
    : Sweep :=
  let '(_, debtors, creditors) := partition_players players balances in
  mkSweep (sort_desc debtors) (sort_desc creditors) 0 0 [].

Definition computeTransactions (fuel : nat) (players : list Player)
    (balances : gmap Z float) : outcome (list Transaction) :=
  s <~ sweep_loop fuel (sweep_of players balances) ;;
  Returns (sw_transactions s).

(** What [render_template] receives. *)
Record Response : Type := mkResponse {
  resp_players : list Player;
  resp_expenses : list Expense;
  resp_balances : gmap Z float;
  resp_transactions : list Transaction
}.

Definition settle_up (fuel : nat) (players : list Player)
    (expenses : list Expense) : outcome Response :=
  balances <~ computeBalances players expenses ;;
  transactions <~ computeTransactions fuel players balances ;;
  Returns (mkResponse players expenses
             (partition_players players balances).1.1 transactions).


(** ** Quantities the properties speak about *)

(** The double is zero or finite, and its exact value (zero for the
    infinities and nan). *)
Definition finite (x : float) : bool :=
  match exact_value x with Some _ => true | None => false end.

Definition value (x : float) : Q := default 0 (exact_value x).

(** The balance the handler reads for a player. *)
Definition balance_of (balances : gmap Z float) (player : Player) : float :=
  default 0%float (balances !! player_id player).

(** The sum of the exact values of the balances. *)
Definition sum_of_values (balances : gmap Z float) : Q :=
  sum_values (value <$> balances).

(** Total amount of the expenses that list no participant. *)
Definition unshared_total (expenses : list Expense) : Q :=
  foldr (fun e acc =>
           match expense_participants e with
           | [] => value (expense_amount e) + acc
           | _ :: _ => acc
           end) 0 expenses.

(** Every expense has the row of its payer and every participant the row
    of its player. *)
Definition has_players (e : Expense) : Prop :=
  is_Some (expense_payer e)
  /\ Forall (fun p => is_Some (participant_player p))
            (expense_participants e).

(** Ids an expense mentions, where the rows exist. *)
Definition expense_ids (e : Expense) : gset Z :=
  list_to_set (player_id <$> omap id (expense_payer e
                 :: (participant_player <$> expense_participants e))).

Definition expenses_ids (expenses : list Expense) : gset Z :=
  ⋃ (expense_ids <$> expenses).

(** The two lists of the partition, written as comprehensions. *)
Definition debtors_of (players : list Player) (balances : gmap Z float)
    : list Entry :=
  (fun p => mkEntry p (abs (balance_of balances p)))
    <$> List.filter (fun p => (balance_of balances p <? 0)%float) players.

Definition creditors_of (players : list Player) (balances : gmap Z float)
    : list Entry :=
  (fun p => mkEntry p (balance_of balances p))
    <$> List.filter (fun p => (0 <? balance_of balances p)%float) players.

(** ** Runs in which nothing is rounded *)

(** The sum, the difference or the quotient the code has computed is the
    exact one. *)
Definition exact_add (x y : float) : bool :=
  finite x && finite y && finite (x + y)
  && Qeq_bool (value (x + y)) (value x + value y).

Definition exact_sub (x y : float) : bool :=
  finite x && finite y && finite (x - y)
  && Qeq_bool (value (x - y)) (value x - value y).

Definition exact_div (x : float) (n : nat) : bool :=
  finite x && finite (x / of_int (Z.of_nat n))
  && Qeq_bool (value (x / of_int (Z.of_nat n)) * inject_Z (Z.of_nat n))
              (value x).

(** [round(x, 2)] has given back the value of [x]. *)
Definition exact_round (x : float) : bool :=
  finite x && finite (py_round2 x)
  && Qeq_bool (value (py_round2 x)) (value x).

(** [computeBalances] has rounded nowhere: each [+=], each division and
    each [-=] it carries out is exact. *)
Fixpoint charged_exactly (share_per_person : float)
    (participants : list ExpenseParticipant) (balances : gmap Z float)
    : bool :=
  match participants with
  | [] => true
  | participant :: rest =>
      match participant_player participant with
      | Some player =>
          exact_sub (balance_of balances player) share_per_person
          && charged_exactly share_per_person rest
               (dd_isub balances (player_id player) share_per_person)
      | None => true
      end
  end.

Definition added_exactly (balances : gmap Z float) (expense : Expense)
    : bool :=
  match expense_payer expense with
  | Some payer =>
      exact_add (balance_of balances payer) (expense_amount expense)
      && match expense_participants expense with
         | [] => true
         | _ :: _ =>
             let n := length (expense_participants expense) in
             exact_div (expense_amount expense) n
             && charged_exactly
                  (expense_amount expense / of_int (Z.of_nat n))
                  (expense_participants expense)
                  (dd_iadd balances (player_id payer)
                     (expense_amount expense))
         end
  | None => true
  end.

Fixpoint balanced_exactly (balances : gmap Z float)
    (expenses : list Expense) : bool :=
  match expenses with
  | [] => true
  | expense :: rest =>
      added_exactly balances expense
      && match add_expense balances expense with
         | Returns balances => balanced_exactly balances rest
         | _ => true
         end
  end.

Definition balances_exact (players : list Player) (expenses : list Expense)
    : bool :=
  balanced_exactly (init_balances players) expenses.

(** One pass of the sweep has rounded nowhere: when it emits a
    transaction the two subtractions are exact and [round] gives back the
    amount. *)
Definition settled_exactly (s : Sweep) : bool :=
  match sw_debtors s !! sw_i s, sw_creditors s !! sw_j s with
  | Some debtor, Some creditor =>
      let amount_to_settle :=
        py_min (entry_amount debtor) (entry_amount creditor) in
      if (0.01 <? amount_to_settle)%float
      then exact_sub (entry_amount debtor) amount_to_settle
           && exact_sub (entry_amount creditor) amount_to_settle
           && exact_round amount_to_settle
      else true
  | _, _ => true
  end.

(** The sweep returns within [fuel] passes and rounds in none of them. *)
Fixpoint swept_exactly (fuel : nat) (s : Sweep) : bool :=
  if sweep_guard s then
    match fuel with
    | O => false
    | S fuel =>
        settled_exactly s
        && match sweep_body s with
           | Returns s => swept_exactly fuel s
           | _ => false
           end
    end
  else true.

(** Sums of exact values over the entries and the transactions whose name
    passes [P]. *)
Definition sum_entries (P : string -> bool) (l : list Entry) : Q :=
  foldr (fun e acc =>
           (if P (player_name (entry_player e))
            then value (entry_amount e) else 0) + acc) 0 l.

Definition sum_from (P : string -> bool) (txs : list Transaction) : Q :=
  foldr (fun t acc => (if P (tx_from t) then value (tx_amount t) else 0) + acc)
        0 txs.

Definition sum_to (P : string -> bool) (txs : list Transaction) : Q :=
  foldr (fun t acc => (if P (tx_to t) then value (tx_amount t) else 0) + acc)
        0 txs.

(** [sum(t.amount for t in transactions)] and [sum(max(b, 0))] over the
    players, on exact values. *)
Definition total_paid (txs : list Transaction) : Q :=
  foldr (fun t acc => value (tx_amount t) + acc) 0 txs.

Definition positive_mass (players : list Player) (balances : gmap Z float)
    : Q :=
  foldr (fun p acc => Qmax (value (balance_of balances p)) 0 + acc) 0 players.

Definition roster_sum (players : list Player) (balances : gmap Z float) : Q :=
  foldr (fun p acc => value (balance_of balances p) + acc) 0 players.

(** A player's balance once every transaction is carried out: what the
    player pays is added to the balance, what the player receives is taken
    off it. *)
Definition settled_balance (balances : gmap Z float)
    (txs : list Transaction) (p : Player) : Q :=
  value (balance_of balances p)
  + sum_from (named (player_name p)) txs
  - sum_to (named (player_name p)) txs.

(** A multiple of 0.25: the whole-cent amounts that binary64 holds
    exactly. *)
Definition is_quarters (q : Q) : Prop := exists k : Z, q * 4 == inject_Z k.

End Doubles.

(** ** Rows for examples on binary64 *)

Definition rows_shared_by (players : list Player)
    : list Doubles.ExpenseParticipant :=
  (fun p => Doubles.mkParticipant (Some p)) <$> players.

(** A pays 90 for A, B and C: 30 each, nothing is rounded. *)
Definition dinner_rows : list Doubles.Expense :=
  [Doubles.mkExpense 90 (Some alice) (rows_shared_by [alice; bob; carol])].

(** A pays 100 for A, B and C: a third of 100 is rounded. *)
Definition hundred_by_three : list Doubles.Expense :=
  [Doubles.mkExpense 100 (Some alice) (rows_shared_by [alice; bob; carol])].

(** A pays 0.60 for A and B, then 1e15 for A alone: A's 0.30 is lost in
    the large sum. *)
Definition absorbed_cents : list Doubles.Expense :=
  [Doubles.mkExpense 0.6 (Some alice) (rows_shared_by [alice; bob]);
   Doubles.mkExpense 1e15 (Some alice) (rows_shared_by [alice])].

(** C pays 30 for A; D pays 20 for A and B: balances -40, -10, +30, +20. *)
Definition two_rounds_rows : list Doubles.Expense :=
  [Doubles.mkExpense 30 (Some carol) (rows_shared_by [alice]);
   Doubles.mkExpense 20 (Some dave) (rows_shared_by [alice; bob])].

(** A pays 0.01 for B and C pays 0.07 for B: balances +0.01, -0.08,
    +0.07. *)
Definition eight_cents : list Doubles.Expense :=
  [Doubles.mkExpense 0.01 (Some alice) (rows_shared_by [bob]);
   Doubles.mkExpense 0.07 (Some carol) (rows_shared_by [bob])].

(** An expense of 50 whose payer has no row in the Player table. *)
Definition orphan_expense : list Doubles.Expense :=
  [Doubles.mkExpense 50 None []].

(** ** Further quantities of the settlement *)








(** What the sweep keeps true of the number of transactions: each one has
    moved a cursor, and one pass more was still to come when it was
    emitted. *)
Definition few_transactions (s : Sweep) : Prop :=
  (length (sw_transactions s) <= sw_i s + sw_j s)%nat
  /\ (length (sw_transactions s)
      <= Nat.pred (length (sw_debtors s) + length (sw_creditors s)))%nat.






(** * The other handlers of app.py

    Forms arrive as lists of fields.  The pieces of Python the handlers
    call on strings are taken as given, in the class [Builtins].  The key
    a row gets from the database is an argument of the handler that
    inserts it.  Columns that hold JSON text ([pars], [hole_scores], the
    player ids of a match) are modelled by the list the text encodes. *)

From Stdlib Require Import Ascii.

(** What ends a request without a response of the handler's own. *)
Inductive failure : Type :=
  | Abort (code : nat)
  | Exception (e : exn)
  | ValueError
  | KeyError
  | IntegrityError.

Inductive result (A : Type) : Type :=
  | Ok (a : A)
  | Failed (f : failure).

Arguments Ok {A} a.
Arguments Failed {A} f.

Definition result_bind {A B : Type} (m : result A) (k : A -> result B)
    : result B :=
  match m with
  | Ok a => k a
  | Failed f => Failed f
  end.

Notation "x <- m ;;; k" := (result_bind m (fun x => k))
  (at level 100, m at next level, right associativity).

(** A loop whose body can fail. *)
Fixpoint for_each {A B : Type} (body : A -> B -> result A) (a : A)
    (l : list B) : result A :=
  match l with
  | [] => Ok a
  | x :: rest => a <- body a x ;;; for_each body a rest
  end.

(** A comprehension whose element expression can fail. *)
Fixpoint map_each {A B : Type} (f : A -> result B) (l : list A)
    : result (list B) :=
  match l with
  | [] => Ok []
  | x :: rest =>
      y <- f x ;;; ys <- map_each f rest ;;; Ok (y :: ys)
  end.

(** What a handler answers. *)
Inductive reply : Type :=
  | Redirect (endpoint : string)
  | Render (template : string) (error : bool).

(** The table as a request leaves it: nothing is committed when the
    request fails. *)
Definition table_after {A : Type} (before : A) (r : result (reply * A)) : A :=
  match r with
  | Ok (_, after) => after
  | Failed _ => before
  end.

(** [request.form] *)
Definition Form : Type := list (string * string).

(** [form.get(key)] *)
Fixpoint form_get (form : Form) (key : string) : option string :=
  match form with
  | [] => None
  | (k, v) :: rest => if String.eqb k key then Some v else form_get rest key
  end.

(** [form[key]]: a missing key ends the request with status 400. *)
Definition form_item (form : Form) (key : string) : result string :=
  match form_get form key with
  | Some v => Ok v
  | None => Failed (Abort 400)
  end.

(** [form.getlist(key)] *)
Definition form_getlist (form : Form) (key : string) : list string :=
  snd <$> List.filter (fun kv => String.eqb (fst kv) key) form.

(** [s.split(c)] for a one-character separator. *)
Fixpoint split_on (sep : ascii) (s : string) : list string :=
  match s with
  | EmptyString => [EmptyString]
  | String c rest =>
      match split_on sep rest with
      | [] => [String c EmptyString]
      | token :: tokens =>
          if Ascii.eqb c sep then EmptyString :: token :: tokens
          else String c token :: tokens
      end
  end.

Definition comma : ascii := "," % char.

(** ** Courses (lines 72-82, 405-447) *)

Record Course : Type := mkCourse {
  course_id : Z;
  course_name : string;
  course_pars : list Z
}.

(** [Course.query.get_or_404(course_id)] *)
Definition get_course (courses : list Course) (id : Z) : result Course :=
  match List.find (fun c => Z.eqb (course_id c) id) courses with
  | Some c => Ok c
  | None => Failed (Abort 404)
  end.

(** The Python the handlers rely on. *)
Class Builtins : Type := {
  (** [s.strip()] *)
  strip : string -> string;
  (** [int(s)], [None] standing for [ValueError] *)
  py_int : string -> option Z;
  (** [datetime] values, and [datetime.strptime(s, '%Y-%m-%d')], [None]
      standing for [ValueError] *)
  date : Type;
  strptime : string -> option date;
  (** [d.strftime('%Y-%m-%d')] *)
  strftime : date -> string;
  (** [f'player_{id}_hole_{i}'] *)
  score_key : Z -> nat -> string
}.

(** [sum] of a list of integers. *)
Definition sum_Z (l : list Z) : Z := foldr Z.add 0%Z l.

Section Courses.

Context {python : Builtins}.

(** [if p.strip()]: the field is not blank. *)
Definition filled (p : string) : bool := negb (String.eqb (strip p) "").

(** [int(s)] *)
Definition int_of (s : string) : result Z :=
  match py_int s with
  | Some z => Ok z
  | None => Failed ValueError
  end.

(** The body of the [try]: the 18 pars, or [ValueError]. *)
Definition parse_pars (pars_str : string) : result (list Z) :=
  pars_list <- map_each (fun p => int_of (strip p))
                 (List.filter filled (split_on comma pars_str)) ;;;
  if Nat.eqb (length pars_list) 18 then Ok pars_list else Failed ValueError.

(** [add_course], POST.  [Course.name] is unique: the commit fails on a
    name already in the table. *)
Definition add_course (courses : list Course) (new_id : Z) (form : Form)
    : result (reply * list Course) :=
  name <- form_item form "name" ;;;
  pars_str <- form_item form "pars" ;;;
  match parse_pars pars_str with
  | Failed ValueError => Ok (Render "add_course.html" true, courses)
  | Failed f => Failed f
  | Ok pars_list =>
      if existsb (fun c => String.eqb (course_name c) name) courses
      then Failed IntegrityError
      else Ok (Redirect "courses", courses ++ [mkCourse new_id name pars_list])
  end.

(** [edit_course], POST. *)
Definition edit_course (courses : list Course) (id : Z) (form : Form)
    : result (reply * list Course) :=
  course <- get_course courses id ;;;
  name <- form_item form "name" ;;;
  pars_str <- form_item form "pars" ;;;
  match parse_pars pars_str with
  | Failed ValueError => Ok (Render "edit_course.html" true, courses)
  | Failed f => Failed f
  | Ok pars_list =>
      if existsb (fun c => String.eqb (course_name c) name
                           && negb (Z.eqb (course_id c) id)) courses
      then Failed IntegrityError
      else Ok (Redirect "courses",
               (fun c => if Z.eqb (course_id c) id
                         then mkCourse (course_id c) name pars_list
                         else c) <$> courses)
  end.

(** [delete_course] *)
Definition delete_course (courses : list Course) (id : Z)
    : result (reply * list Course) :=
  course <- get_course courses id ;;;
  Ok (Redirect "courses",
      List.filter (fun c => negb (Z.eqb (course_id c) id)) courses).

(** ** Logging a round (lines 456-494) *)

(** The rows the handler adds. *)
Record RoundRow : Type := mkRoundRow {
  round_id : Z;
  round_course_id : Z;
  round_notes : option string
}.

Record ScoreRow : Type := mkScoreRow {
  score_round_id : Z;
  score_player_id : Z;
  score_hole_scores : list Z;
  score_total : Z
}.

(** One hole of one player: the body of [for i in range(1, 19)]. *)
Definition score_hole (form : Form) (course : Course) (player : Player)
    (acc : list Z * Z * bool) (i : nat) : result (list Z * Z * bool) :=
  let '(hole_scores, total_score, player_scores_entered) := acc in
  let score_val := form_get form (score_key (player_id player) i) in
  scored <-
    match score_val with
    | Some v =>
        if negb (String.eqb (strip v) "")
        then score <- int_of v ;;; Ok (score, true)
        else match course_pars course !! (i - 1)%nat with
             | Some par => Ok (par, player_scores_entered)
             | None => Failed (Exception IndexError)
             end
    | None =>
        match course_pars course !! (i - 1)%nat with
        | Some par => Ok (par, player_scores_entered)
        | None => Failed (Exception IndexError)
        end
    end ;;;
  let '(score, player_scores_entered) := scored in
  Ok (hole_scores ++ [score], (total_score + score)%Z, player_scores_entered).

(** One player: the body of [for player in players]. *)
Definition score_player (form : Form) (course : Course) (new_round_id : Z)
    (rows : list ScoreRow) (player : Player) : result (list ScoreRow) :=
  card <- for_each (score_hole form course player) ([], 0%Z, false)
            (seq 1 18) ;;;
  let '(hole_scores, total_score, player_scores_entered) := card in
  Ok (if player_scores_entered
      then rows ++ [mkScoreRow new_round_id (player_id player)
                      hole_scores total_score]
      else rows).

(** [log_round], POST: the round and the score rows it commits. *)
Definition log_round (courses : list Course) (players : list Player)
    (id : Z) (new_round_id : Z) (form : Form)
    : result (reply * (RoundRow * list ScoreRow)) :=
  course <- get_course courses id ;;;
  let new_round :=
    mkRoundRow new_round_id (course_id course) (form_get form "round_notes") in
  rows <- for_each (score_player form course new_round_id) [] players ;;;
  Ok (Redirect "rounds", (new_round, rows)).

(** The value entered for a hole, when there is one and it is not blank. *)
Definition hole_entry (form : Form) (player : Player) (i : nat)
    : option string :=
  match form_get form (score_key (player_id player) i) with
  | Some v => if negb (String.eqb (strip v) "") then Some v else None
  | None => None
  end.

(** The score hole [i] ends up with: the entry read as an integer, the par
    of the hole where nothing was entered. *)
Definition hole_value (form : Form) (course : Course) (player : Player)
    (i : nat) : option Z :=
  match hole_entry form player i with
  | Some v => py_int v
  | None => course_pars course !! (i - 1)%nat
  end.

(** The player has entered a score for one of the 18 holes. *)
Definition has_entry (form : Form) (player : Player) : bool :=
  existsb (fun i => bool_decide (is_Some (hole_entry form player i)))
          (seq 1 18).

(** A scorecard as the handler stores it for [player]. *)
Definition scorecard_of (form : Form) (course : Course) (rid : Z)
    (players : list Player) (row : ScoreRow) : Prop :=
  exists player,
    player ∈ players
    /\ has_entry form player = true
    /\ score_player_id row = player_id player
    /\ score_round_id row = rid
    /\ length (score_hole_scores row) = 18%nat
    /\ score_total row = sum_Z (score_hole_scores row)
    /\ Forall2 (fun i sc => hole_value form course player i = Some sc)
               (seq 1 18) (score_hole_scores row).

End Courses.

(** Every course of the table has 18 pars. *)
Definition eighteen_pars (courses : list Course) : Prop :=
  Forall (fun c => length (course_pars c) = 18%nat) courses.

(** ** A Python for examples: fields are trimmed of spaces and read as
    decimal integers, dates are kept as written *)

From Stdlib Require Import DecimalString.

Fixpoint lstrip_spaces (s : string) : string :=
  match s with
  | String " " rest => lstrip_spaces rest
  | _ => s
  end.

Definition strip_spaces (s : string) : string :=
  let reversed := String.string_of_list_ascii
                    (List.rev (String.list_ascii_of_string
                                 (lstrip_spaces s))) in
  String.string_of_list_ascii
    (List.rev (String.list_ascii_of_string (lstrip_spaces reversed))).

Definition decimal_int (s : string) : option Z :=
  match NilEmpty.int_of_string (strip_spaces s) with
  | Some d => Some (Z.of_int d)
  | None => None
  end.

Definition decimal_key (id : Z) (i : nat) : string :=
  ("player_" ++ NilZero.string_of_int (Z.to_int id)
   ++ "_hole_" ++ NilZero.string_of_uint (Nat.to_uint i))%string.

Definition plain_python : Builtins := {|
  strip := strip_spaces;
  py_int := decimal_int;
  date := string;
  strptime := fun s => Some s;
  strftime := fun d => d;
  score_key := decimal_key
|}.

(** A course with par 4 on every hole, and a form in which A enters a 5 at
    the first hole and a 3 at the second, and B nothing but a blank. *)
Definition links : Course := mkCourse 1 "Links" (replicate 18 4%Z).

Definition first_holes : Form :=
  [("round_notes", "windy"); ("player_1_hole_1", "5");
   ("player_1_hole_2", " 3"); ("player_2_hole_1", "  ")]%string.

Definition pars_field : string :=
  "4,4,3,5,4,4,3,5,4, 4,4,3,5,4,4,3,5,4,"%string.

Definition new_links : Form :=
  [("name", "Dunes"); ("pars", pars_field)]%string.

Definition first_round : RoundRow := mkRoundRow 7 1 (Some "windy"%string).

Definition first_rows : list ScoreRow :=
  [mkScoreRow 7 1 ([5; 3] ++ replicate 16 4)%Z 72].

(** ** Matches and standings (lines 131-156, 233-256, 622-724, 848-861) *)

(** [sum(...)] of floats, starting from 0 and adding from the left. *)
Definition py_sum (l : list Q) : Q := foldl Qplus 0 l.

(** [p or 0]: a missing value and a zero both give 0. *)
Definition or_0 (p : option Q) : Q :=
  match p with
  | Some q => if Qeq_bool q 0 then 0 else q
  | None => 0
  end.

Section Matches.

Context {python : Builtins}.

Record Match : Type := mkMatch {
  match_id : Z;
  match_round_id : option Z;
  match_date : date;
  match_format : string;
  match_status : string;
  match_team1_player_ids : list Z;
  match_team2_player_ids : list Z;
  match_team1_points : option Q;
  match_team2_points : option Q;
  match_result_description : option string;
  match_notes : option string
}.

Definition completed (m : Match) : bool :=
  String.eqb (match_status m) "completed".

(** The standings of the home page and of the matches page, from the list
    of matches the page has queried. *)
Definition page_standings (matches_list : list Match) : Q * Q :=
  (py_sum (or_0 <$> (match_team1_points <$> List.filter completed matches_list)),
   py_sum (or_0 <$> (match_team2_points <$> List.filter completed matches_list))).

(** [api_standings]: the points of the two teams and [matches_played]. *)
Definition api_standings (table : list Match) : Q * Q * nat :=
  let matches_list := List.filter completed table in
  (py_sum (or_0 <$> (match_team1_points <$> matches_list)),
   py_sum (or_0 <$> (match_team2_points <$> matches_list)),
   length matches_list).

(** [Match.query.get_or_404(match_id)] *)
Definition get_match (table : list Match) (id : Z) : result Match :=
  match List.find (fun m => Z.eqb (match_id m) id) table with
  | Some m => Ok m
  | None => Failed (Abort 404)
  end.

(** [datetime.strptime(s, '%Y-%m-%d')] *)
Definition date_of (s : string) : result date :=
  match strptime s with
  | Some d => Ok d
  | None => Failed ValueError
  end.

(** [form.get(key, '')] *)
Definition form_get_or_empty (form : Form) (key : string) : string :=
  default EmptyString (form_get form key).

(** [create_match], POST. *)
Definition create_match (table : list Match) (new_id : Z) (form : Form)
    : result (reply * list Match) :=
  format_type <- form_item form "format" ;;;
  date_str <- form_item form "date" ;;;
  match_date <- date_of date_str ;;;
  let team1_ids := form_getlist form "team1_players" in
  let team2_ids := form_getlist form "team2_players" in
  let notes := form_get_or_empty form "notes" in
  team1 <- map_each int_of team1_ids ;;;
  team2 <- map_each int_of team2_ids ;;;
  Ok (Redirect "matches",
      table ++ [mkMatch new_id None match_date format_type "scheduled"
                  team1 team2 None None None (Some notes)]).

(** The result a completed match is edited with. *)
Definition with_result (m : Match) (form : Form) : Match :=
  let result := form_get form "result" in
  let description := Some (form_get_or_empty form "result_description") in
  let points :=
    match result with
    | Some r =>
        if String.eqb r "team1" then (Some 1, Some 0)
        else if String.eqb r "team2" then (Some 0, Some 1)
        else if String.eqb r "halved" then (Some 0.5, Some 0.5)
        else (match_team1_points m, match_team2_points m)
    | None => (match_team1_points m, match_team2_points m)
    end in
  mkMatch (match_id m) (match_round_id m) (match_date m) (match_format m)
    (match_status m) (match_team1_player_ids m) (match_team2_player_ids m)
    (fst points) (snd points) description (match_notes m).

(** [edit_match], POST. *)
Definition edit_match (table : list Match) (id : Z) (form : Form)
    : result (reply * list Match) :=
  m <- get_match table id ;;;
  format_type <- form_item form "format" ;;;
  date_str <- form_item form "date" ;;;
  match_date <- date_of date_str ;;;
  team1 <- map_each int_of (form_getlist form "team1_players") ;;;
  team2 <- map_each int_of (form_getlist form "team2_players") ;;;
  status <- form_item form "status" ;;;
  let notes := form_get_or_empty form "notes" in
  let edited :=
    mkMatch (match_id m) (match_round_id m) match_date format_type status
      team1 team2 (match_team1_points m) (match_team2_points m)
      (match_result_description m) (Some notes) in
  let edited :=
    if String.eqb status "completed" then with_result edited form
    else edited in
  Ok (Redirect "matches",
      (fun row => if Z.eqb (match_id row) id then edited else row) <$> table).

(** [delete_match] *)
Definition delete_match (table : list Match) (id : Z)
    : result (reply * list Match) :=
  m <- get_match table id ;;;
  Ok (Redirect "matches",
      List.filter (fun row => negb (Z.eqb (match_id row) id)) table).

(** A request that writes to the match table. *)
Inductive match_request : Type :=
  | CreateMatch (new_id : Z) (form : Form)
  | EditMatch (id : Z) (form : Form)
  | DeleteMatch (id : Z).

Definition serve_match (table : list Match) (request : match_request)
    : list Match :=
  match request with
  | CreateMatch new_id form => table_after table (create_match table new_id form)
  | EditMatch id form => table_after table (edit_match table id form)
  | DeleteMatch id => table_after table (delete_match table id)
  end.

(** The table after a history of requests, starting empty. *)
Definition serve_matches (requests : list match_request) : list Match :=
  foldl serve_match [] requests.

(** The points of a match are as [edit_match] writes them: none for either
    team, or 1 and 0, 0 and 1, or a half each. *)
Definition scored (m : Match) : Prop :=
  (match_team1_points m = None /\ match_team2_points m = None)
  \/ (exists a b,
        match_team1_points m = Some a /\ match_team2_points m = Some b
        /\ 0 <= a /\ 0 <= b /\ a + b == 1).

(** The match is completed and has a result. *)
Definition decided (m : Match) : bool :=
  completed m && bool_decide (is_Some (match_team1_points m)).

End Matches.

(** ** The schedule page (lines 169-182, 770-783) *)

(** A dict with string keys: its items in the order the keys were first
    set. *)
Definition Dict (V : Type) : Type := list (string * V).

(** [key in d] *)
Definition dict_contains {V : Type} (d : Dict V) (key : string) : bool :=
  existsb (fun kv => String.eqb (fst kv) key) d.

(** [d[key]] *)
Fixpoint dict_getitem {V : Type} (d : Dict V) (key : string) : result V :=
  match d with
  | [] => Failed KeyError
  | (k, v) :: rest => if String.eqb k key then Ok v else dict_getitem rest key
  end.

(** [d[key] = v]: a key the dict has keeps its place, a new key goes to
    the end. *)
Fixpoint dict_setitem {V : Type} (d : Dict V) (key : string) (v : V)
    : Dict V :=
  match d with
  | [] => [(key, v)]
  | (k, v0) :: rest =>
      if String.eqb k key then (k, v) :: rest
      else (k, v0) :: dict_setitem rest key v
  end.

Section Schedule.

Context {python : Builtins}.

Record ScheduleEvent : Type := mkScheduleEvent {
  event_id : Z;
  event_title : string;
  event_description : option string;
  event_date : date;
  event_start_time : option string;
  event_end_time : option string;
  event_location : option string;
  event_type : string;
  event_course_id : option Z;
  event_notes : option string
}.

(** [event.event_date.strftime('%Y-%m-%d')] *)
Definition date_key (event : ScheduleEvent) : string :=
  strftime (event_date event).

(** The body of [for event in events]; the list [events_by_date[date_key]]
    is appended to in place. *)
Definition group_event (events_by_date : Dict (list ScheduleEvent))
    (event : ScheduleEvent) : result (Dict (list ScheduleEvent)) :=
  let events_by_date :=
    if negb (dict_contains events_by_date (date_key event))
    then dict_setitem events_by_date (date_key event) []
    else events_by_date in
  day <- dict_getitem events_by_date (date_key event) ;;;
  Ok (dict_setitem events_by_date (date_key event) (day ++ [event])).

(** [schedule]: the [events_by_date] given to the template, from the events
    as queried. *)
Definition schedule (events : list ScheduleEvent)
    : result (Dict (list ScheduleEvent)) :=
  for_each group_event [] events.

(** The events of the day [key], in the order of [events]. *)
Definition events_on (key : string) (events : list ScheduleEvent)
    : list ScheduleEvent :=
  List.filter (fun event => String.eqb (date_key event) key) events.

(** What the loop has built when it has gone through [events]. *)
Definition grouped (events : list ScheduleEvent)
    (d : Dict (list ScheduleEvent)) : Prop :=
  NoDup d.*1
  /\ forall key,
       dict_getitem d key
       = match events_on key events with
         | [] => Failed KeyError
         | _ :: _ => Ok (events_on key events)
         end.

End Schedule.

(** The keys left when the leading run of [key] is over. *)
Fixpoint later_days (key : string) (keys : list string) : list string :=
  match keys with
  | [] => []
  | k :: rest => if String.eqb key k then later_days key rest else keys
  end.

(** No day comes back once another day has begun: the events of one day
    are next to each other. *)
Fixpoint days_adjacent (keys : list string) : bool :=
  match keys with
  | [] => true
  | key :: rest =>
      negb (existsb (String.eqb key) (later_days key rest))
      && days_adjacent rest
  end.

(** ** The database URI (lines 13-17) *)

(** [s.startswith(prefix)] *)
Definition startswith (s prefix : string) : bool := String.prefix prefix s.

(** [s.replace(old, new, 1)] for a non-empty [old]: the leftmost occurrence
    of [old] is replaced. *)
Fixpoint replace_first (old new s : string) : string :=
  if String.prefix old s
  then new ++ String.substring (String.length old)
                (String.length s - String.length old) s
  else match s with
       | EmptyString => EmptyString
       | String c rest => String c (replace_first old new rest)
       end.

(** [app.config['SQLALCHEMY_DATABASE_URI']] from the environment variable
    [DATABASE_URL]. *)
Definition database_uri (DATABASE_URL : option string) : string :=
  let database_url := default "sqlite:///sirecup.db"%string DATABASE_URL in
  if startswith database_url "postgres://"
  then replace_first "postgres://" "postgresql://" database_url
  else database_url.

(** ** A cup and a schedule for examples *)

(** The form of a singles match between players 1 and 2. *)
Definition singles (day : string) : Form :=
  [("format", "singles"); ("date", day);
   ("team1_players", "1"); ("team2_players", "2")]%string.

Definition singles_result (day result : string) : Form :=
  singles day
  ++ [("status", "completed"); ("result", result);
      ("result_description", "2 and 1")]%string.

(** Three matches are created; the first is won by team 1 and the second
    is halved, the third is still to be played. *)
Definition cup_requests : list match_request :=
  [CreateMatch 1 (singles "2026-10-24");
   CreateMatch 2 (singles "2026-10-25");
   EditMatch 1 (singles_result "2026-10-24" "team1");
   CreateMatch 3 (singles "2026-10-26");
   EditMatch 2 (singles_result "2026-10-25" "halved")].

Definition cup_matches : list (Match (python := plain_python)) :=
  serve_matches (python := plain_python) cup_requests.

Definition event_on (id : Z) (title day : string)
    : ScheduleEvent (python := plain_python) :=
  mkScheduleEvent (python := plain_python) id title None day None None None
    "general" None None.

Definition trip_events : list (ScheduleEvent (python := plain_python)) :=
  [event_on 1 "Arrival" "2026-10-23";
   event_on 2 "First round" "2026-10-24";
   event_on 3 "Dinner" "2026-10-24";
   event_on 4 "Second round" "2026-10-25"].

(** * Proofs *)

(** ** Comparisons and the Python primitives *)

Lemma Qltb_lt (x y : Q) : Qltb x y = true <-> x < y.
Proof.
  unfold Qltb. rewrite negb_true_iff, <- not_true_iff_false, Qle_bool_iff.
  split; [apply Qnot_le_lt | apply Qlt_not_le].
Qed.

Lemma Qltb_ge (x y : Q) : Qltb x y = false <-> y <= x.
Proof.
  unfold Qltb. rewrite negb_false_iff. apply Qle_bool_iff.
Qed.

Lemma bind_returns {A B : Type} (m : outcome A) (k : A -> outcome B) (b : B) :
  bind m k = Returns b <-> exists a, m = Returns a /\ k a = Returns b.
Proof.
  destruct m; simpl; split; try (intros (a' & Ha & Hk)); try discriminate;
    eauto.
  congruence.
Qed.

(** ** The dictionary *)

Lemma dd_getitem_lookup (d : gmap Z Q) (k : Z) :
  (dd_getitem d k).2 !! k = Some (dd_getitem d k).1.
Proof.
  unfold dd_getitem. destruct (d !! k) eqn:E; simpl; [done |].
  apply lookup_insert_eq.
Qed.

Lemma dd_getitem_present (d : gmap Z Q) (k : Z) (v : Q) :
  d !! k = Some v -> dd_getitem d k = (v, d).
Proof. intros E. unfold dd_getitem. by rewrite E. Qed.

Lemma dd_getitem_value (d : gmap Z Q) (k : Z) :
  (dd_getitem d k).1 = default 0 (d !! k).
Proof. unfold dd_getitem. by destruct (d !! k). Qed.

Lemma dd_getitem_other (d : gmap Z Q) (k k' : Z) :
  k <> k' -> (dd_getitem d k).2 !! k' = d !! k'.
Proof.
  intros Hne. unfold dd_getitem. destruct (d !! k); simpl; [done |].
  by apply lookup_insert_ne.
Qed.

Lemma dd_getitem_dom (d : gmap Z Q) (k : Z) :
  dom (dd_getitem d k).2 = {[k]} ∪ dom d.
Proof.
  unfold dd_getitem. destruct (d !! k) eqn:E; simpl.
  - apply elem_of_dom_2 in E. set_solver.
  - apply dom_insert_L.
Qed.

Lemma dd_iadd_dom (d : gmap Z Q) (k : Z) (x : Q) :
  dom (dd_iadd d k x) = {[k]} ∪ dom d.
Proof.
  unfold dd_iadd. pose proof (dd_getitem_dom d k) as Hd.
  destruct (dd_getitem d k) as [v d']; simpl in *.
  unfold dd_setitem. rewrite dom_insert_L, Hd. set_solver.
Qed.

Lemma dd_isub_dom (d : gmap Z Q) (k : Z) (x : Q) :
  dom (dd_isub d k x) = {[k]} ∪ dom d.
Proof.
  unfold dd_isub. pose proof (dd_getitem_dom d k) as Hd.
  destruct (dd_getitem d k) as [v d']; simpl in *.
  unfold dd_setitem. rewrite dom_insert_L, Hd. set_solver.
Qed.

(** ** Summing the values of a dictionary *)

Lemma sum_values_empty : sum_values ∅ = 0.
Proof. unfold sum_values. apply map_fold_empty. Qed.

Lemma sum_values_insert_fresh (m : gmap Z Q) (k : Z) (v : Q) :
  m !! k = None -> sum_values (<[k := v]> m) == v + sum_values m.
Proof.
  intros Hk. unfold sum_values.
  apply (map_fold_insert Qeq (fun _ v acc => v + acc)); [| | done].
  - intros _ z a b Hab. by rewrite Hab.
  - intros. ring.
Qed.

Lemma sum_values_insert (m : gmap Z Q) (k : Z) (v : Q) :
  sum_values (<[k := v]> m) == sum_values m - default 0 (m !! k) + v.
Proof.
  destruct (m !! k) as [v0 |] eqn:E; simpl.
  - rewrite <- (insert_delete_id m k v0 E) at 2.
    rewrite <- insert_delete_eq.
    rewrite !sum_values_insert_fresh by apply lookup_delete_eq. ring.
  - rewrite sum_values_insert_fresh by done. ring.
Qed.

Lemma sum_values_dd_iadd (m : gmap Z Q) (k : Z) (x : Q) :
  sum_values (dd_iadd m k x) == sum_values m + x.
Proof.
  unfold dd_iadd, dd_getitem, dd_setitem.
  destruct (m !! k) as [v0 |] eqn:E.
  - rewrite sum_values_insert, E. simpl. ring.
  - rewrite !sum_values_insert, lookup_insert_eq, E. simpl. ring.
Qed.

Lemma sum_values_dd_isub (m : gmap Z Q) (k : Z) (x : Q) :
  sum_values (dd_isub m k x) == sum_values m - x.
Proof.
  unfold dd_isub, dd_getitem, dd_setitem.
  destruct (m !! k) as [v0 |] eqn:E.
  - rewrite sum_values_insert, E. simpl. ring.
  - rewrite !sum_values_insert, lookup_insert_eq, E. simpl. ring.
Qed.

Lemma sum_values_charge (share : Q) (parts : list ExpenseParticipant)
    (m : gmap Z Q) :
  sum_values (charge_participants share parts m)
  == sum_values m - share * inject_Z (Z.of_nat (length parts)).
Proof.
  unfold charge_participants. revert m.
  induction parts as [| p parts IH]; intros m.
  - simpl. ring.
  - cbn [foldl]. rewrite IH, sum_values_dd_isub.
    rewrite length_cons, Nat2Z.inj_succ. unfold Z.succ.
    rewrite inject_Z_plus. ring.
Qed.

Lemma sum_values_zero (m : gmap Z Q) :
  (forall k v, m !! k = Some v -> v == 0) -> sum_values m == 0.
Proof.
  induction m as [| k v m Hk IH] using map_ind; intros Hz.
  - by rewrite sum_values_empty.
  - rewrite sum_values_insert_fresh by done.
    rewrite (Hz k v) by apply lookup_insert_eq.
    rewrite IH; [ring |].
    intros k' v' Hk'. apply (Hz k').
    rewrite lookup_insert_ne; [done | congruence].
Qed.

(** ** Balances *)

Lemma init_balances_acc (players : list Player) (acc : gmap Z Q) :
  dom (foldl (fun balances player => dd_setitem balances (player_id player) 0)
         acc players) = player_ids players ∪ dom acc
  /\ ((forall k v, acc !! k = Some v -> v = 0) ->
      forall k v,
        foldl (fun balances player => dd_setitem balances (player_id player) 0)
          acc players !! k = Some v -> v = 0).
Proof.
  revert acc. induction players as [| p players IH]; intros acc.
  - unfold player_ids. simpl. split; [set_solver | auto].
  - cbn [foldl]. destruct (IH (dd_setitem acc (player_id p) 0)) as [Hd Hz].
    split.
    + rewrite Hd. unfold dd_setitem, player_ids. rewrite dom_insert_L.
      rewrite fmap_cons, list_to_set_cons. set_solver.
    + intros Hacc. apply Hz. intros k v. unfold dd_setitem.
      rewrite lookup_insert. case_decide; [congruence | apply Hacc].
Qed.

Lemma init_balances_dom (players : list Player) :
  dom (init_balances players) = player_ids players.
Proof.
  unfold init_balances. destruct (init_balances_acc players ∅) as [Hd _].
  rewrite Hd. set_solver.
Qed.

Lemma init_balances_zero (players : list Player) (k : Z) (v : Q) :
  init_balances players !! k = Some v -> v = 0.
Proof.
  unfold init_balances. destruct (init_balances_acc players ∅) as [_ Hz].
  apply Hz. intros k' v'. by rewrite lookup_empty.
Qed.

Lemma charge_participants_dom (share : Q) (parts : list ExpenseParticipant)
    (m : gmap Z Q) :
  dom (charge_participants share parts m)
  = list_to_set ((fun ep => player_id (participant_player ep)) <$> parts)
    ∪ dom m.
Proof.
  unfold charge_participants. revert m.
  induction parts as [| p parts IH]; intros m.
  - simpl. set_solver.
  - cbn [foldl]. rewrite IH, dd_isub_dom, fmap_cons, list_to_set_cons.
    set_solver.
Qed.

Lemma inject_positive_nonzero (n : nat) : ~ inject_Z (Z.of_nat (S n)) == 0.
Proof.
  unfold Qeq. simpl. lia.
Qed.

(** The guard on [expense.participants] keeps the divisor away from zero:
    the body always returns, and returns this dictionary. *)
Lemma add_expense_unfold (b : gmap Z Q) (e : Expense) :
  add_expense b e =
  Returns
    (let b1 := dd_iadd b (player_id (expense_payer e)) (expense_amount e) in
     match expense_participants e with
     | [] => b1
     | _ :: _ =>
         charge_participants
           (expense_amount e
            / inject_Z (Z.of_nat (length (expense_participants e))))
           (expense_participants e) b1
     end).
Proof.
  unfold add_expense. by destruct (expense_participants e).
Qed.

Lemma add_expense_returns (b : gmap Z Q) (e : Expense) :
  exists b', add_expense b e = Returns b'.
Proof. rewrite add_expense_unfold. eauto. Qed.

Lemma add_expense_sum (b b' : gmap Z Q) (e : Expense) :
  add_expense b e = Returns b' ->
  sum_values b' == sum_values b + unshared_total [e].
Proof.
  rewrite add_expense_unfold. intros [= <-].
  unfold unshared_total. cbn [foldr].
  destruct (expense_participants e) as [| p parts]; cbv zeta.
  - rewrite sum_values_dd_iadd. ring.
  - rewrite sum_values_charge, sum_values_dd_iadd.
    field. apply inject_positive_nonzero.
Qed.

Lemma add_expense_dom (b b' : gmap Z Q) (e : Expense) :
  add_expense b e = Returns b' -> dom b' = expense_ids e ∪ dom b.
Proof.
  rewrite add_expense_unfold. intros [= <-]. unfold expense_ids.
  destruct (expense_participants e) as [| p parts]; cbv zeta.
  - rewrite dd_iadd_dom. set_solver.
  - rewrite charge_participants_dom, dd_iadd_dom. set_solver.
Qed.

Lemma unshared_total_cons (e : Expense) (es : list Expense) :
  unshared_total (e :: es) == unshared_total [e] + unshared_total es.
Proof.
  unfold unshared_total. simpl.
  destruct (expense_participants e); ring.
Qed.

Lemma add_expenses_spec (es : list Expense) (b : gmap Z Q) :
  exists b', add_expenses b es = Returns b'
    /\ sum_values b' == sum_values b + unshared_total es
    /\ dom b' = expenses_ids es ∪ dom b.
Proof.
  revert b. induction es as [| e es IH]; intros b.
  - exists b. split; [done |]. split.
    + unfold unshared_total. simpl. ring.
    + unfold expenses_ids. simpl. set_solver.
  - destruct (add_expense_returns b e) as [b1 H1].
    destruct (IH b1) as (b' & H' & Hs & Hd).
    exists b'. cbn [add_expenses]. rewrite H1. simpl. split; [done |].
    split.
    + rewrite Hs, (add_expense_sum _ _ _ H1), (unshared_total_cons e es).
      ring.
    + rewrite Hd, (add_expense_dom _ _ _ H1). unfold expenses_ids.
      rewrite fmap_cons. simpl. set_solver.
Qed.

Lemma computeBalances_spec (players : list Player) (expenses : list Expense) :
  exists balances, computeBalances players expenses = Returns balances
    /\ sum_values balances == unshared_total expenses
    /\ dom balances = player_ids players ∪ expenses_ids expenses.
Proof.
  unfold computeBalances.
  destruct (add_expenses_spec expenses (init_balances players))
    as (b & Hb & Hs & Hd).
  exists b. split; [done |]. split.
  - rewrite Hs, sum_values_zero; [ring |].
    intros k v Hk. by rewrite (init_balances_zero _ _ _ Hk).
  - rewrite Hd, init_balances_dom. set_solver.
Qed.

Lemma unshared_total_shared (expenses : list Expense) :
  Forall (fun e => expense_participants e <> []) expenses ->
  unshared_total expenses = 0.
Proof.
  induction 1 as [| e es He _ IH]; [done |].
  unfold unshared_total in *. simpl.
  destruct (expense_participants e); [done | apply IH].
Qed.

(** ** The partition into debtors and creditors *)

Lemma dd_getitem_twice (d : gmap Z Q) (k : Z) :
  dd_getitem (dd_getitem d k).2 k = dd_getitem d k.
Proof.
  unfold dd_getitem. destruct (d !! k) eqn:E; simpl.
  - by rewrite E.
  - by rewrite lookup_insert_eq.
Qed.

Lemma balance_of_getitem (d : gmap Z Q) (k : Z) (p : Player) :
  balance_of (dd_getitem d k).2 p = balance_of d p.
Proof.
  unfold balance_of. destruct (decide (k = player_id p)) as [-> | Hne].
  - rewrite dd_getitem_lookup, dd_getitem_value. done.
  - by rewrite dd_getitem_other.
Qed.

Lemma Qltb_asym (x y : Q) : Qltb x y = true -> Qltb y x = false.
Proof. rewrite Qltb_lt, Qltb_ge. apply Qlt_le_weak. Qed.

Lemma classify_spec (m : gmap Z Q) (ds cs : list Entry) (p : Player) :
  classify (m, ds, cs) p =
  ((dd_getitem m (player_id p)).2,
   ds ++ debtors_of [p] m,
   cs ++ creditors_of [p] m).
Proof.
  unfold classify, debtors_of, creditors_of. cbn [List.filter].
  pose proof (dd_getitem_twice m (player_id p)) as Htw.
  pose proof (dd_getitem_value m (player_id p)) as Hv.
  fold (balance_of m p) in Hv.
  destruct (dd_getitem m (player_id p)) as [v m'] eqn:E. simpl in Htw, Hv.
  subst v. rewrite Htw.
  destruct (Qltb (balance_of m p) 0) eqn:Hneg.
  - rewrite (Qltb_asym _ _ Hneg). simpl. by rewrite (app_nil_r cs).
  - rewrite !Htw. destruct (Qltb 0 (balance_of m p)); simpl;
      by rewrite ?Htw, ?(app_nil_r cs), ?(app_nil_r ds).
Qed.

Lemma debtors_of_ext (players : list Player) (m m' : gmap Z Q) :
  (forall p, balance_of m' p = balance_of m p) ->
  debtors_of players m' = debtors_of players m.
Proof.
  intros Hb. unfold debtors_of.
  induction players as [| p players IH]; [done |].
  cbn [List.filter]. rewrite Hb.
  destruct (Qltb (balance_of m p) 0); cbn [fmap list_fmap]; rewrite ?Hb;
    [f_equal |]; apply IH.
Qed.

Lemma creditors_of_ext (players : list Player) (m m' : gmap Z Q) :
  (forall p, balance_of m' p = balance_of m p) ->
  creditors_of players m' = creditors_of players m.
Proof.
  intros Hb. unfold creditors_of.
  induction players as [| p players IH]; [done |].
  cbn [List.filter]. rewrite Hb.
  destruct (Qltb 0 (balance_of m p)); cbn [fmap list_fmap]; rewrite ?Hb;
    [f_equal |]; apply IH.
Qed.

Lemma debtors_of_cons (p : Player) (players : list Player) (m : gmap Z Q) :
  debtors_of (p :: players) m = debtors_of [p] m ++ debtors_of players m.
Proof.
  unfold debtors_of. cbn [List.filter].
  by destruct (Qltb (balance_of m p) 0).
Qed.

Lemma creditors_of_cons (p : Player) (players : list Player) (m : gmap Z Q) :
  creditors_of (p :: players) m
  = creditors_of [p] m ++ creditors_of players m.
Proof.
  unfold creditors_of. cbn [List.filter].
  by destruct (Qltb 0 (balance_of m p)).
Qed.

Lemma partition_players_acc (players : list Player) (m : gmap Z Q)
    (ds cs : list Entry) :
  foldl classify (m, ds, cs) players =
  (touch_players players m,
   ds ++ debtors_of players m,
   cs ++ creditors_of players m).
Proof.
  revert m ds cs. induction players as [| p players IH]; intros m ds cs.
  - unfold debtors_of, creditors_of. simpl. by rewrite !app_nil_r.
  - cbn [foldl].
    rewrite (debtors_of_cons p players), (creditors_of_cons p players).
    rewrite classify_spec, IH, <- !app_assoc.
    rewrite (debtors_of_ext players m (dd_getitem m (player_id p)).2),
      (creditors_of_ext players m (dd_getitem m (player_id p)).2);
      [done | |]; intros q; apply balance_of_getitem.
Qed.

Lemma partition_players_spec (players : list Player) (m : gmap Z Q) :
  partition_players players m =
  (touch_players players m, debtors_of players m, creditors_of players m).
Proof. unfold partition_players. by rewrite partition_players_acc. Qed.

Lemma touch_players_balance (players : list Player) (m : gmap Z Q)
    (p : Player) :
  balance_of (touch_players players m) p = balance_of m p.
Proof.
  unfold touch_players. revert m.
  induction players as [| q players IH]; intros m; [done |].
  cbn [foldl]. by rewrite IH, balance_of_getitem.
Qed.

Lemma touch_players_dom (players : list Player) (m : gmap Z Q) :
  dom (touch_players players m) = player_ids players ∪ dom m.
Proof.
  unfold touch_players, player_ids. revert m.
  induction players as [| q players IH]; intros m.
  - simpl. set_solver.
  - cbn [foldl]. rewrite IH, dd_getitem_dom, fmap_cons, list_to_set_cons.
    set_solver.
Qed.

(** Reading the balance of a player that has an entry leaves the dictionary
    as it is. *)
Lemma touch_players_id (players : list Player) (m : gmap Z Q) :
  player_ids players ⊆ dom m -> touch_players players m = m.
Proof.
  unfold touch_players, player_ids.
  induction players as [| q players IH]; intros Hsub; [done |].
  cbn [foldl]. rewrite fmap_cons, list_to_set_cons in Hsub.
  assert (is_Some (m !! player_id q)) as [v Hv].
  { apply elem_of_dom. set_solver. }
  rewrite (dd_getitem_present _ _ _ Hv). simpl. apply IH. set_solver.
Qed.

Lemma debtors_of_player (players : list Player) (m : gmap Z Q) (e : Entry) :
  e ∈ debtors_of players m ->
  entry_player e ∈ players
  /\ balance_of m (entry_player e) < 0
  /\ entry_amount e == - balance_of m (entry_player e).
Proof.
  unfold debtors_of. rewrite list_elem_of_fmap.
  intros (p & -> & Hp). apply list_elem_of_In, filter_In in Hp.
  destruct Hp as [Hin Hlt]. apply Qltb_lt in Hlt. simpl.
  split; [by apply list_elem_of_In |]. split; [done |].
  rewrite Qabs_neg; [reflexivity | by apply Qlt_le_weak].
Qed.

Lemma creditors_of_player (players : list Player) (m : gmap Z Q) (e : Entry) :
  e ∈ creditors_of players m ->
  entry_player e ∈ players
  /\ 0 < balance_of m (entry_player e)
  /\ entry_amount e = balance_of m (entry_player e).
Proof.
  unfold creditors_of. rewrite list_elem_of_fmap.
  intros (p & -> & Hp). apply list_elem_of_In, filter_In in Hp.
  destruct Hp as [Hin Hlt]. apply Qltb_lt in Hlt. simpl.
  split; [by apply list_elem_of_In | done].
Qed.

(** ** The sort *)

Lemma insert_desc_perm (e : Entry) (l : list Entry) :
  insert_desc e l ≡ₚ e :: l.
Proof.
  induction l as [| h t IH]; [done |]. simpl.
  destruct (Qltb (entry_amount e) (entry_amount h)); [| done].
  rewrite IH. apply Permutation_swap.
Qed.

Lemma sort_desc_perm (l : list Entry) : sort_desc l ≡ₚ l.
Proof.
  induction l as [| e l IH]; [done |].
  unfold sort_desc in *. cbn [foldr]. by rewrite insert_desc_perm, IH.
Qed.

Lemma sort_desc_length (l : list Entry) : length (sort_desc l) = length l.
Proof. apply Permutation_length, sort_desc_perm. Qed.

Lemma amount_ge_trans (a b c : Entry) :
  amount_ge a b -> amount_ge b c -> amount_ge a c.
Proof. unfold amount_ge. intros H1 H2. by apply Qle_trans with (entry_amount b). Qed.

Lemma insert_desc_sorted (e : Entry) (l : list Entry) :
  StronglySorted amount_ge l -> StronglySorted amount_ge (insert_desc e l).
Proof.
  induction 1 as [| h t Ht IH Hall]; simpl.
  - repeat constructor.
  - destruct (Qltb (entry_amount e) (entry_amount h)) eqn:Hlt.
    + constructor; [done |].
      apply Qltb_lt in Hlt.
      rewrite Forall_forall. intros x Hx.
      rewrite insert_desc_perm in Hx.
      apply elem_of_cons in Hx as [-> | Hx].
      * unfold amount_ge. by apply Qlt_le_weak.
      * rewrite Forall_forall in Hall. by apply Hall.
    + apply Qltb_ge in Hlt.
      constructor; [by constructor |].
      constructor; [done |].
      eapply Forall_impl; [exact Hall |].
      intros x Hx. by apply amount_ge_trans with h.
Qed.

Lemma sort_desc_sorted (l : list Entry) :
  StronglySorted amount_ge (sort_desc l).
Proof.
  induction l as [| e l IH]; [constructor |].
  unfold sort_desc in *. cbn [foldr]. by apply insert_desc_sorted.
Qed.

Lemma insert_desc_stable (a : Q) (e : Entry) (l : list Entry) :
  with_amount a (insert_desc e l) = with_amount a (e :: l).
Proof.
  unfold with_amount. induction l as [| h t IH]; [done |].
  cbn [insert_desc].
  destruct (Qltb (entry_amount e) (entry_amount h)) eqn:Hlt; [| done].
  apply Qltb_lt in Hlt. cbn [List.filter] in *.
  destruct (Qeq_bool (entry_amount h) a) eqn:Hh;
    destruct (Qeq_bool (entry_amount e) a) eqn:He; rewrite IH; try done.
  apply Qeq_bool_eq in Hh, He. rewrite Hh, He in Hlt.
  by apply Qlt_irrefl in Hlt.
Qed.

Lemma sort_desc_stable (a : Q) (l : list Entry) :
  with_amount a (sort_desc l) = with_amount a l.
Proof.
  induction l as [| e l IH]; [done |].
  unfold sort_desc in *. cbn [foldr]. rewrite insert_desc_stable.
  unfold with_amount in *. cbn [List.filter]. by rewrite IH.
Qed.

Lemma sort_desc_players (l : list Entry) (e : Entry) :
  e ∈ sort_desc l <-> e ∈ l.
Proof. by rewrite sort_desc_perm. Qed.

(** ** One pass of the sweep *)

Lemma sweep_guard_true (s : Sweep) :
  sweep_guard s = true <->
  (sw_i s < length (sw_debtors s))%nat /\ (sw_j s < length (sw_creditors s))%nat.
Proof.
  unfold sweep_guard. by rewrite andb_true_iff, !Nat.ltb_lt.
Qed.

Lemma sweep_guard_lookup (s : Sweep) :
  sweep_guard s = true ->
  exists d c, sw_debtors s !! sw_i s = Some d /\ sw_creditors s !! sw_j s = Some c.
Proof.
  rewrite sweep_guard_true. intros [Hi Hj].
  apply lookup_lt_is_Some in Hi as [d Hd].
  apply lookup_lt_is_Some in Hj as [c Hc]. eauto.
Qed.

Lemma sweep_guard_of_lookup (s : Sweep) (d c : Entry) :
  sw_debtors s !! sw_i s = Some d -> sw_creditors s !! sw_j s = Some c ->
  sweep_guard s = true.
Proof.
  intros Hd Hc. apply sweep_guard_true.
  split; eapply lookup_lt_Some; eauto.
Qed.

(** The body, once the two entries under the cursors are known. *)
Lemma sweep_body_eq (s : Sweep) (d c : Entry) :
  sw_debtors s !! sw_i s = Some d ->
  sw_creditors s !! sw_j s = Some c ->
  sweep_body s =
  Returns
    (let settle := Qmin (entry_amount d) (entry_amount c) in
     if Qltb 0.01 settle then
       mkSweep
         (<[sw_i s := set_amount d (entry_amount d - settle)]> (sw_debtors s))
         (<[sw_j s := set_amount c (entry_amount c - settle)]> (sw_creditors s))
         (if Qltb (entry_amount d - settle) 0.01 then S (sw_i s) else sw_i s)
         (if Qltb (entry_amount c - settle) 0.01 then S (sw_j s) else sw_j s)
         (sw_transactions s ++
            [mkTransaction (player_name (entry_player d))
                           (player_name (entry_player c))
                           (py_round2 settle)])
     else
       mkSweep (sw_debtors s) (sw_creditors s)
         (if Qltb (entry_amount d) 0.01 then S (sw_i s) else sw_i s)
         (if Qltb (entry_amount c) 0.01 then S (sw_j s) else sw_j s)
         (sw_transactions s)).
Proof.
  intros Hd Hc. unfold sweep_body, py_index. rewrite Hd, Hc.
  cbn [bind]. cbv zeta.
  by destruct (Qltb 0.01 (Qmin (entry_amount d) (entry_amount c))).
Qed.

(** Opens a pass [Hbody : sweep_body s = Returns s'] taken under the guard
    [Hg]: names the entries under the cursors and their lookups. *)
Ltac open_body Hg Hbody d c Hd Hc :=
  destruct (sweep_guard_lookup _ Hg) as (d & c & Hd & Hc);
  rewrite (sweep_body_eq _ d c Hd Hc) in Hbody;
  cbv zeta in Hbody.



Lemma sweep_loop_unfold (fuel : nat) (s : Sweep) :
  sweep_loop fuel s =
  if sweep_guard s then
    match fuel with
    | O => OutOfFuel
    | S fuel => bind (sweep_body s) (sweep_loop fuel)
    end
  else Returns s.
Proof. by destruct fuel. Qed.

(** An invariant of the body holds when the loop returns, and the guard is
    then false. *)
Lemma sweep_loop_invariant (P : Sweep -> Prop) :
  (forall s s', sweep_guard s = true -> P s -> sweep_body s = Returns s' -> P s') ->
  forall fuel s s',
    P s -> sweep_loop fuel s = Returns s' -> P s' /\ sweep_guard s' = false.
Proof.
  intros Hstep fuel. induction fuel as [| fuel IH]; intros s s' HP;
    rewrite sweep_loop_unfold; destruct (sweep_guard s) eqn:Hg; try done.
  - intros [= <-]. done.
  - intros Hrun. apply bind_returns in Hrun as (s1 & Hbody & Hrun).
    apply (IH s1); [| done]. by apply (Hstep s).
  - intros [= <-]. done.
Qed.

(** More fuel does not change a result. *)
Lemma sweep_loop_fuel_mono (fuel fuel' : nat) (s s' : Sweep) :
  (fuel <= fuel')%nat ->
  sweep_loop fuel s = Returns s' -> sweep_loop fuel' s = Returns s'.
Proof.
  revert fuel' s. induction fuel as [| fuel IH]; intros fuel' s Hle;
    rewrite !sweep_loop_unfold; destruct (sweep_guard s) eqn:Hg; try done.
  destruct fuel' as [| fuel']; [lia |].
  intros Hrun. apply bind_returns in Hrun as (s1 & Hbody & Hrun).
  rewrite Hbody. simpl. apply IH; [lia | done].
Qed.

(** ** The pair that is never settled *)

Lemma stuck_body (s : Sweep) : stuck s -> sweep_body s = Returns s.
Proof.
  intros (d & c & Hd & Hc & Hmin).
  rewrite (sweep_body_eq s d c Hd Hc). cbv zeta.
  assert (Qltb 0.01 (Qmin (entry_amount d) (entry_amount c)) = false) as ->.
  { apply Qltb_ge. rewrite Hmin. apply Qle_refl. }
  assert (Qltb (entry_amount d) 0.01 = false) as ->.
  { apply Qltb_ge. rewrite <- Hmin. apply Q.le_min_l. }
  assert (Qltb (entry_amount c) 0.01 = false) as ->.
  { apply Qltb_ge. rewrite <- Hmin. apply Q.le_min_r. }
  by destruct s.
Qed.

Lemma stuck_forever (s : Sweep) (fuel : nat) :
  stuck s -> sweep_loop fuel s = OutOfFuel.
Proof.
  intros Hst. induction fuel as [| fuel IH]; rewrite sweep_loop_unfold.
  - destruct Hst as (d & c & Hd & Hc & _).
    by rewrite (sweep_guard_of_lookup s d c Hd Hc).
  - pose proof Hst as (d & c & Hd & Hc & _).
    rewrite (sweep_guard_of_lookup s d c Hd Hc), (stuck_body s Hst).
    exact IH.
Qed.

(** * Proofs on binary64 *)

(** ** The order of doubles is the order of their exact values *)

Section DoubleOrder.

Import Floats Qpower.

Lemma digits2_pos_size (m : positive) : digits2_pos m = Pos.size m.
Proof. induction m as [m IH | m IH |]; cbn; by rewrite ?IH. Qed.

(** What [Prim2SF_valid] says of a finite double: the mantissa has 53 bits
    at most, and exactly 53 unless the exponent is the least one. *)
Lemma valid_finite (s : bool) (m : positive) (e : Z) :
  valid_binary (S754_finite s m e) = true ->
  (Zpos m < 2 ^ 53)%Z
  /\ (-1074 <= e)%Z
  /\ ((-1074 < e)%Z -> (2 ^ 52 <= Zpos m)%Z).
Proof.
  cbn [SpecFloat.valid_binary]. unfold bounded, canonical_mantissa, fexp.
  intros [Hcanon _]%andb_true_iff. apply Z.eqb_eq in Hcanon.
  rewrite digits2_pos_size in Hcanon.
  change (SpecFloat.emin prec emax) with (-1074)%Z in Hcanon.
  change prec with 53%Z in Hcanon.
  pose proof (Pos.size_gt m) as Hgt. pose proof (Pos.size_le m) as Hle.
  apply Pos2Z.pos_lt_pos in Hgt. apply Pos2Z.pos_le_pos in Hle.
  rewrite Pos2Z.inj_pow in Hgt, Hle.
  change (Z.pos m~0) with (2 * Z.pos m)%Z in Hle.
  set (d := Z.pos (Pos.size m)) in *.
  assert (0 < d)%Z as Hd by (unfold d; lia).
  split; [| split; [lia |]].
  - assert (d <= 53)%Z as Hd53 by lia.
    pose proof (Z.pow_le_mono_r 2 d 53 ltac:(lia) Hd53). lia.
  - intros He. assert (d = 53%Z) as Hd53 by lia.
    rewrite Hd53 in Hle. change (2 ^ 53)%Z with (2 * 2 ^ 52)%Z in Hle. lia.
Qed.

Lemma pow2_pos (e : Z) : 0 < 2 ^ e.
Proof. by apply Qpower_0_lt. Qed.

Lemma magnitude_pos (m : positive) (e : Z) : 0 < Doubles.magnitude m e.
Proof.
  unfold Doubles.magnitude. pose proof (pow2_pos e).
  assert (0 < inject_Z (Z.pos m)) by (rewrite <- (Zlt_Qlt 0); lia).
  nra.
Qed.

Lemma magnitude_same_exponent (m1 m2 : positive) (e : Z) :
  Doubles.magnitude m1 e < Doubles.magnitude m2 e <-> (m1 < m2)%positive.
Proof.
  unfold Doubles.magnitude. pose proof (pow2_pos e) as Hp. split; intros Hlt.
  - assert (inject_Z (Z.pos m1) < inject_Z (Z.pos m2)) as Hm by nra.
    rewrite <- Zlt_Qlt in Hm. lia.
  - assert (Z.pos m1 < Z.pos m2)%Z as Hm by lia.
    rewrite Zlt_Qlt in Hm. nra.
Qed.

Lemma magnitude_lower_exponent (m1 m2 : positive) (e1 e2 : Z) :
  (Zpos m1 < 2 ^ 53)%Z -> (2 ^ 52 <= Zpos m2)%Z -> (e1 < e2)%Z ->
  Doubles.magnitude m1 e1 < Doubles.magnitude m2 e2.
Proof.
  intros H1 H2 He. unfold Doubles.magnitude.
  replace e2 with (e1 + (e2 - e1))%Z by ring.
  rewrite Qpower_plus by done.
  pose proof (pow2_pos e1) as Hp.
  assert (2 <= 2 ^ (e2 - e1)) as Ht.
  { change 2 with (2 ^ 1) at 1. apply Qpower_le_compat_l; [lia | done]. }
  assert (inject_Z (Z.pos m1) < 2 * inject_Z (Z.pos m2)) as Hm.
  { change 2 with (inject_Z 2) at 1. rewrite <- inject_Z_mult, <- Zlt_Qlt.
    change (2 ^ 53)%Z with (2 * 2 ^ 52)%Z in H1. lia. }
  assert (0 < inject_Z (Z.pos m2)) as Hm2 by (rewrite <- (Zlt_Qlt 0); lia).
  set (a := inject_Z (Z.pos m1)) in *. set (b := inject_Z (Z.pos m2)) in *.
  set (p := 2 ^ e1) in *. set (t := 2 ^ (e2 - e1)) in *.
  apply Qlt_le_trans with (2 * b * p); [nra |].
  assert (0 <= (t - 2) * (b * p)) by (apply Qmult_le_0_compat; nra).
  nra.
Qed.

(** Two valid finite numbers of the same sign compare as their
    magnitudes. *)
Lemma compare_magnitudes (s1 s2 : bool) (m1 m2 : positive) (e1 e2 : Z) :
  valid_binary (S754_finite s1 m1 e1) = true ->
  valid_binary (S754_finite s2 m2 e2) = true ->
  match Z.compare e1 e2 with
  | Lt => Lt
  | Gt => Gt
  | Eq => Pos.compare_cont Eq m1 m2
  end = Lt
  <-> Doubles.magnitude m1 e1 < Doubles.magnitude m2 e2.
Proof.
  intros (Hm1 & He1 & Hn1)%valid_finite (Hm2 & He2 & Hn2)%valid_finite.
  destruct (Z.compare_spec e1 e2) as [-> | Hlt | Hgt].
  - change (Pos.compare_cont Eq m1 m2) with (Pos.compare m1 m2).
    rewrite Pos.compare_lt_iff. symmetry. apply magnitude_same_exponent.
  - split; [intros _ | done].
    apply magnitude_lower_exponent; [done | apply Hn2; lia | done].
  - split; [done |]. intros Hlt.
    assert (Doubles.magnitude m2 e2 < Doubles.magnitude m1 e1) as Hrev.
    { apply magnitude_lower_exponent; [done | apply Hn1; lia | done]. }
    lra.
Qed.

Lemma finite_value (x : float) :
  Doubles.finite x = true ->
  Doubles.exact_value x = Some (Doubles.value x).
Proof.
  unfold Doubles.finite, Doubles.value.
  by destruct (Doubles.exact_value x).
Qed.

(** [x < y] on finite doubles is [<] on their exact values. *)
Lemma ltb_value (x y : float) :
  Doubles.finite x = true -> Doubles.finite y = true ->
  (x <? y)%float = true <-> Doubles.value x < Doubles.value y.
Proof.
  unfold Doubles.finite, Doubles.value, Doubles.exact_value.
  rewrite ltb_spec. pose proof (Prim2SF_valid x) as Hx.
  pose proof (Prim2SF_valid y) as Hy.
  destruct (Prim2SF x) as [sx | sx | | sx mx ex];
    destruct (Prim2SF y) as [sy | sy | | sy my ey]; try done; intros _ _;
    unfold SFltb; cbn [SFcompare default id].
  - pose proof (magnitude_pos my ey). destruct sy; split; try done; lra.
  - pose proof (magnitude_pos mx ex). destruct sx; split; try done; lra.
  - pose proof (magnitude_pos mx ex). pose proof (magnitude_pos my ey).
    pose proof (compare_magnitudes sx sy mx my ex ey Hx Hy) as Hxy.
    pose proof (compare_magnitudes sy sx my mx ey ex Hy Hx) as Hyx.
    destruct sx, sy.
    + transitivity (Doubles.magnitude my ey < Doubles.magnitude mx ex);
        [| split; lra].
      rewrite <- Hyx. rewrite (Z.compare_antisym ex ey).
      change (Pos.compare_cont Eq my mx) with (Pos.compare my mx).
      change (Pos.compare_cont Eq mx my) with (Pos.compare mx my).
      rewrite (Pos.compare_antisym mx my).
      by destruct (Z.compare ex ey), (Pos.compare mx my).
    + split; [intros _; lra | done].
    + split; [done | lra].
    + by rewrite <- Hxy; destruct (Z.compare ex ey),
                            (Pos.compare_cont Eq mx my).
Qed.

Lemma ltb_value_false (x y : float) :
  Doubles.finite x = true -> Doubles.finite y = true ->
  (x <? y)%float = false -> Doubles.value y <= Doubles.value x.
Proof.
  intros Hx Hy Hlt. apply Qnot_lt_le. intros Hv.
  apply (ltb_value x y Hx Hy) in Hv. congruence.
Qed.

End DoubleOrder.

(** ** The dictionary, the partition and the sort on binary64 *)

Section DoubleEngine.

Import Floats Doubles.

Lemma double_dd_getitem_value (d : gmap Z float) (k : Z) :
  (dd_getitem d k).1 = default 0%float (d !! k).
Proof. unfold dd_getitem. by destruct (d !! k). Qed.

Lemma double_dd_getitem_lookup (d : gmap Z float) (k k' : Z) :
  default 0%float ((dd_getitem d k).2 !! k') = default 0%float (d !! k').
Proof.
  unfold dd_getitem. destruct (d !! k) eqn:E; [done |]. cbn [snd].
  destruct (decide (k = k')) as [<- | Hne].
  - by rewrite lookup_insert_eq, E.
  - by rewrite lookup_insert_ne.
Qed.

Lemma double_dd_getitem_dom (d : gmap Z float) (k : Z) :
  dom (dd_getitem d k).2 = {[k]} ∪ dom d.
Proof.
  unfold dd_getitem. destruct (d !! k) eqn:E; simpl.
  - apply elem_of_dom_2 in E. set_solver.
  - apply dom_insert_L.
Qed.

(** [d[k] += x] stores the sum under [k], whether [k] was there or not. *)
Lemma double_dd_iadd_insert (d : gmap Z float) (k : Z) (x : float) :
  dd_iadd d k x = <[k := (default 0 (d !! k) + x)%float]> d.
Proof.
  unfold dd_iadd, dd_getitem, dd_setitem.
  destruct (d !! k); [done |]. cbn [default]. apply insert_insert_eq.
Qed.

Lemma double_dd_isub_insert (d : gmap Z float) (k : Z) (x : float) :
  dd_isub d k x = <[k := (default 0 (d !! k) - x)%float]> d.
Proof.
  unfold dd_isub, dd_getitem, dd_setitem.
  destruct (d !! k); [done |]. cbn [default]. apply insert_insert_eq.
Qed.

Lemma double_init_balances_acc (players : list Player) (acc : gmap Z float) :
  dom (foldl (fun balances player =>
                dd_setitem balances (player_id player) 0%float)
             acc players)
  = player_ids players ∪ dom acc
  /\ (forall k v,
        foldl (fun balances player =>
                 dd_setitem balances (player_id player) 0%float)
              acc players !! k = Some v ->
        v = 0%float \/ acc !! k = Some v).
Proof.
  revert acc. induction players as [| p players IH]; intros acc.
  - unfold player_ids. cbn. split; [set_solver | eauto].
  - cbn [foldl]. destruct (IH (dd_setitem acc (player_id p) 0%float))
      as [Hdom Hval].
    split.
    + rewrite Hdom. unfold dd_setitem, player_ids.
      rewrite dom_insert_L, fmap_cons, list_to_set_cons. set_solver.
    + intros k v Hk. destruct (Hval k v Hk) as [-> | Hacc]; [by left |].
      unfold dd_setitem in Hacc.
      destruct (decide (player_id p = k)) as [<- | Hne].
      * rewrite lookup_insert_eq in Hacc. left. congruence.
      * rewrite lookup_insert_ne in Hacc by done. by right.
Qed.

Lemma double_init_balances_dom (players : list Player) :
  dom (init_balances players) = player_ids players.
Proof.
  unfold init_balances.
  destruct (double_init_balances_acc players ∅) as [-> _]. set_solver.
Qed.

Lemma double_init_balances_zero (players : list Player) (k : Z) (v : float) :
  init_balances players !! k = Some v -> v = 0%float.
Proof.
  unfold init_balances. intros Hk.
  destruct (double_init_balances_acc players ∅) as [_ Hval].
  by destruct (Hval k v Hk) as [-> | ?].
Qed.

(** A balance below zero is not above zero. *)
Lemma ltb_zero_asym (b : float) :
  (b <? 0)%float = true -> (0 <? b)%float = false.
Proof.
  rewrite !ltb_spec. change (Prim2SF 0) with (S754_zero false).
  unfold SFltb. by destruct (Prim2SF b) as [[] | [] | | [] m e].
Qed.

Lemma double_balance_of_getitem (d : gmap Z float) (k : Z) (p : Player) :
  balance_of (dd_getitem d k).2 p = balance_of d p.
Proof. unfold balance_of. apply double_dd_getitem_lookup. Qed.

Lemma double_debtors_of_ext (players : list Player) (m m' : gmap Z float) :
  (forall p, balance_of m' p = balance_of m p) ->
  debtors_of players m' = debtors_of players m.
Proof.
  intros Hb. unfold debtors_of.
  induction players as [| p players IH]; [done |].
  cbn [List.filter]. rewrite Hb.
  destruct (balance_of m p <? 0)%float; cbn [fmap list_fmap]; rewrite ?Hb;
    [f_equal |]; apply IH.
Qed.

Lemma double_creditors_of_ext (players : list Player) (m m' : gmap Z float) :
  (forall p, balance_of m' p = balance_of m p) ->
  creditors_of players m' = creditors_of players m.
Proof.
  intros Hb. unfold creditors_of.
  induction players as [| p players IH]; [done |].
  cbn [List.filter]. rewrite Hb.
  destruct (0 <? balance_of m p)%float; cbn [fmap list_fmap]; rewrite ?Hb;
    [f_equal |]; apply IH.
Qed.

Lemma double_classify_spec (m : gmap Z float) (ds cs : list Entry)
    (p : Player) :
  exists m',
    classify (m, ds, cs) p
    = (m', ds ++ debtors_of [p] m, cs ++ creditors_of [p] m)
    /\ (forall q, balance_of m' q = balance_of m q)
    /\ dom m' = {[player_id p]} ∪ dom m.
Proof.
  unfold classify, debtors_of, creditors_of. cbn [List.filter].
  assert (forall m0 : gmap Z float,
            (forall q, balance_of m0 q = balance_of m q) ->
            (dd_getitem m0 (player_id p)).1 = balance_of m p
            /\ (forall q, balance_of (dd_getitem m0 (player_id p)).2 q
                          = balance_of m q)) as Hread.
  { intros m0 Hm0. split.
    - rewrite double_dd_getitem_value. apply (Hm0 p).
    - intros q. by rewrite double_balance_of_getitem. }
  assert (forall m0 : gmap Z float,
            dom m0 = {[player_id p]} ∪ dom m ->
            dom (dd_getitem m0 (player_id p)).2 = {[player_id p]} ∪ dom m)
    as Hdom.
  { intros m0 Hm0. rewrite double_dd_getitem_dom, Hm0. set_solver. }
  destruct (Hread m (fun _ => eq_refl)) as [H1 Hm1].
  pose proof (double_dd_getitem_dom m (player_id p)) as Hd1.
  destruct (dd_getitem m (player_id p)) as [b1 m1]. cbn [fst snd] in *.
  subst b1.
  destruct (Hread m1 Hm1) as [H2 Hm2].
  pose proof (Hdom m1 Hd1) as Hd2.
  destruct (dd_getitem m1 (player_id p)) as [b2 m2]. cbn [fst snd] in *.
  subst b2.
  destruct (balance_of m p <? 0)%float eqn:Hneg.
  - rewrite (ltb_zero_asym _ Hneg). cbn [fmap list_fmap].
    exists m2. by rewrite (app_nil_r cs).
  - destruct (Hread m2 Hm2) as [H3 Hm3].
    pose proof (Hdom m2 Hd2) as Hd3.
    destruct (dd_getitem m2 (player_id p)) as [b3 m3]. cbn [fst snd] in *.
    subst b3.
    destruct (0 <? balance_of m p)%float; cbn [fmap list_fmap].
    + exists m3. by rewrite (app_nil_r ds).
    + exists m2. by rewrite (app_nil_r ds), (app_nil_r cs).
Qed.

Lemma double_partition_players_acc (players : list Player)
    (m : gmap Z float) (ds cs : list Entry) :
  exists m',
    foldl classify (m, ds, cs) players
    = (m', ds ++ debtors_of players m, cs ++ creditors_of players m)
    /\ (forall q, balance_of m' q = balance_of m q)
    /\ dom m' = player_ids players ∪ dom m.
Proof.
  revert m ds cs. induction players as [| p players IH]; intros m ds cs.
  - exists m. unfold debtors_of, creditors_of, player_ids. cbn.
    rewrite !app_nil_r. split; [done |]. split; [done | set_solver].
  - cbn [foldl].
    destruct (double_classify_spec m ds cs p) as (m1 & -> & Hm1 & Hd1).
    destruct (IH m1 (ds ++ debtors_of [p] m) (cs ++ creditors_of [p] m))
      as (m' & -> & Hm' & Hd').
    exists m'. split; [| split].
    + rewrite (double_debtors_of_ext players m m1 Hm1),
        (double_creditors_of_ext players m m1 Hm1), <- !app_assoc.
      unfold debtors_of, creditors_of. cbn [List.filter].
      by destruct (balance_of m p <? 0)%float,
                  (0 <? balance_of m p)%float.
    + intros q. by rewrite Hm', Hm1.
    + rewrite Hd', Hd1. unfold player_ids.
      rewrite fmap_cons, list_to_set_cons. set_solver.
Qed.

Lemma double_sweep_of_eq (players : list Player) (m : gmap Z float) :
  sweep_of players m
  = mkSweep (sort_desc (debtors_of players m))
            (sort_desc (creditors_of players m)) 0 0 [].
Proof.
  unfold sweep_of, partition_players.
  by destruct (double_partition_players_acc players m [] [])
    as (m' & -> & _).
Qed.

Lemma double_debtors_of_player (players : list Player) (m : gmap Z float)
    (e : Entry) :
  e ∈ debtors_of players m ->
  entry_player e ∈ players
  /\ (balance_of m (entry_player e) <? 0)%float = true
  /\ entry_amount e = abs (balance_of m (entry_player e)).
Proof.
  unfold debtors_of. rewrite list_elem_of_fmap.
  intros (p & -> & Hp). apply list_elem_of_In, filter_In in Hp.
  destruct Hp as [Hin Hlt]. cbn. split; [by apply list_elem_of_In | done].
Qed.

Lemma double_creditors_of_player (players : list Player) (m : gmap Z float)
    (e : Entry) :
  e ∈ creditors_of players m ->
  entry_player e ∈ players
  /\ (0 <? balance_of m (entry_player e))%float = true
  /\ entry_amount e = balance_of m (entry_player e).
Proof.
  unfold creditors_of. rewrite list_elem_of_fmap.
  intros (p & -> & Hp). apply list_elem_of_In, filter_In in Hp.
  destruct Hp as [Hin Hlt]. cbn. split; [by apply list_elem_of_In | done].
Qed.

Lemma double_insert_desc_perm (e : Entry) (l : list Entry) :
  insert_desc e l ≡ₚ e :: l.
Proof.
  induction l as [| h t IH]; [done |]. cbn [insert_desc].
  destruct (entry_amount e <? entry_amount h)%float; [| done].
  rewrite IH. apply Permutation_swap.
Qed.

Lemma double_sort_desc_perm (l : list Entry) : sort_desc l ≡ₚ l.
Proof.
  induction l as [| e l IH]; [done |].
  unfold sort_desc in *. cbn [foldr].
  by rewrite double_insert_desc_perm, IH.
Qed.

(** ** One pass of the sweep on binary64 *)

Lemma double_sweep_guard_true (s : Sweep) :
  sweep_guard s = true <->
  (sw_i s < length (sw_debtors s))%nat
  /\ (sw_j s < length (sw_creditors s))%nat.
Proof. unfold sweep_guard. by rewrite andb_true_iff, !Nat.ltb_lt. Qed.

Lemma double_sweep_guard_lookup (s : Sweep) :
  sweep_guard s = true ->
  exists d c,
    sw_debtors s !! sw_i s = Some d /\ sw_creditors s !! sw_j s = Some c.
Proof.
  rewrite double_sweep_guard_true. intros [Hi Hj].
  apply lookup_lt_is_Some in Hi as [d Hd].
  apply lookup_lt_is_Some in Hj as [c Hc]. eauto.
Qed.

Lemma double_sweep_body_eq (s : Sweep) (d c : Entry) :
  sw_debtors s !! sw_i s = Some d ->
  sw_creditors s !! sw_j s = Some c ->
  sweep_body s =
  Returns
    (let settle := py_min (entry_amount d) (entry_amount c) in
     if (0.01 <? settle)%float then
       mkSweep
         (<[sw_i s := set_amount d (entry_amount d - settle)%float]>
            (sw_debtors s))
         (<[sw_j s := set_amount c (entry_amount c - settle)%float]>
            (sw_creditors s))
         (if (entry_amount d - settle <? 0.01)%float
          then S (sw_i s) else sw_i s)
         (if (entry_amount c - settle <? 0.01)%float
          then S (sw_j s) else sw_j s)
         (sw_transactions s ++
            [mkTransaction (player_name (entry_player d))
                           (player_name (entry_player c))
                           (py_round2 settle)])
     else
       mkSweep (sw_debtors s) (sw_creditors s)
         (if (entry_amount d <? 0.01)%float then S (sw_i s) else sw_i s)
         (if (entry_amount c <? 0.01)%float then S (sw_j s) else sw_j s)
         (sw_transactions s)).
Proof.
  intros Hd Hc. unfold sweep_body, py_index. rewrite Hd, Hc.
  cbn [bind]. cbv zeta.
  by destruct (0.01 <? py_min (entry_amount d) (entry_amount c))%float.
Qed.

Lemma double_sweep_body_returns (s : Sweep) :
  sweep_guard s = true -> exists s', sweep_body s = Returns s'.
Proof.
  intros Hg. destruct (double_sweep_guard_lookup s Hg) as (d & c & Hd & Hc).
  rewrite (double_sweep_body_eq s d c Hd Hc). eauto.
Qed.

Lemma double_sweep_loop_unfold (fuel : nat) (s : Sweep) :
  sweep_loop fuel s =
  if sweep_guard s then
    match fuel with
    | O => OutOfFuel
    | S fuel => bind (sweep_body s) (sweep_loop fuel)
    end
  else Returns s.
Proof. by destruct fuel. Qed.

Lemma double_sweep_loop_never_raises (fuel : nat) (s : Sweep) (e : exn) :
  sweep_loop fuel s <> Raises e.
Proof.
  revert s. induction fuel as [| fuel IH]; intros s;
    rewrite double_sweep_loop_unfold; destruct (sweep_guard s) eqn:Hg;
    try done.
  destruct (double_sweep_body_returns s Hg) as [s' ->]. cbn [bind]. apply IH.
Qed.

Lemma double_sweep_loop_invariant (P : Sweep -> Prop) :
  (forall s s', sweep_guard s = true -> P s ->
                sweep_body s = Returns s' -> P s') ->
  forall fuel s s',
    P s -> sweep_loop fuel s = Returns s' -> P s' /\ sweep_guard s' = false.
Proof.
  intros Hstep fuel. induction fuel as [| fuel IH]; intros s s' HP;
    rewrite double_sweep_loop_unfold; destruct (sweep_guard s) eqn:Hg;
    try done.
  - intros [= <-]. done.
  - intros Hrun. apply bind_returns in Hrun as (s1 & Hbody & Hrun).
    apply (IH s1); [| done]. by apply (Hstep s).
  - intros [= <-]. done.
Qed.

Lemma double_sweep_loop_fuel_mono (fuel fuel' : nat) (s s' : Sweep) :
  (fuel <= fuel')%nat ->
  sweep_loop fuel s = Returns s' -> sweep_loop fuel' s = Returns s'.
Proof.
  revert fuel' s. induction fuel as [| fuel IH]; intros fuel' s Hle;
    rewrite !double_sweep_loop_unfold; destruct (sweep_guard s) eqn:Hg;
    try done.
  destruct fuel' as [| fuel']; [lia |].
  intros Hrun. apply bind_returns in Hrun as (s1 & Hbody & Hrun).
  rewrite Hbody. cbn [bind]. apply IH; [lia | done].
Qed.

Lemma double_computeTransactions_never_raises (fuel : nat)
    (players : list Player) (balances : gmap Z float) (e : exn) :
  computeTransactions fuel players balances <> Raises e.
Proof.
  unfold computeTransactions.
  pose proof (double_sweep_loop_never_raises fuel
                (sweep_of players balances) e) as Hloop.
  destruct (sweep_loop fuel (sweep_of players balances)); cbn [bind];
    congruence.
Qed.

End DoubleEngine.

(** Opens a pass [Hbody : Doubles.sweep_body s = Returns s'] taken under
    the guard [Hg]. *)
Ltac open_double_body Hg Hbody d c Hd Hc :=
  destruct (double_sweep_guard_lookup _ Hg) as (d & c & Hd & Hc);
  rewrite (double_sweep_body_eq _ d c Hd Hc) in Hbody;
  cbv zeta in Hbody.

(** ** Balances on binary64: which rows make the handler raise *)

Section DoubleBalances.

Import Floats Doubles.

Lemma double_expense_ids_present (payer : Player)
    (participants : list ExpenseParticipant) (amount : float) :
  Forall (fun p => is_Some (participant_player p)) participants ->
  expense_ids (mkExpense amount (Some payer) participants)
  = {[player_id payer]}
    ∪ list_to_set (player_id <$> omap participant_player participants).
Proof.
  intros _. unfold expense_ids. cbn [expense_payer expense_participants].
  cbn [omap list_omap id]. rewrite fmap_cons, list_to_set_cons.
  f_equal. f_equal. f_equal.
  induction participants as [| p participants IH]; [done |].
  cbn [fmap list_fmap omap list_omap].
  destruct (participant_player p); cbn; by rewrite IH.
Qed.

(** The loop over the participants returns when every participant has its
    player, and raises [AttributeError] otherwise. *)
Lemma double_charge_participants_spec (share : float)
    (participants : list ExpenseParticipant) (balances : gmap Z float) :
  (Forall (fun p => is_Some (participant_player p)) participants
   /\ exists balances',
        charge_participants share participants balances = Returns balances'
        /\ dom balances'
           = list_to_set (player_id <$> omap participant_player participants)
             ∪ dom balances)
  \/ (~ Forall (fun p => is_Some (participant_player p)) participants
      /\ charge_participants share participants balances
         = Raises AttributeError).
Proof.
  revert balances.
  induction participants as [| p participants IH]; intros balances.
  - left. split; [constructor |]. exists balances. split; [done |].
    cbn. set_solver.
  - cbn [charge_participants].
    destruct (participant_player p) as [player |] eqn:Hp; cbn [py_id bind].
    + destruct (IH (dd_isub balances (player_id player) share))
        as [(Hall & b' & Hrun & Hdom) | [Hnot Hrun]].
      * left. split; [constructor; [by rewrite Hp | done] |].
        exists b'. split; [done |].
        rewrite Hdom, double_dd_isub_insert, dom_insert_L.
        cbn [omap list_omap]. rewrite Hp.
        rewrite fmap_cons, list_to_set_cons. set_solver.
      * right. split; [| done].
        intros Hall. apply Hnot. by apply Forall_cons in Hall as [_ ?].
    + right. split; [| done].
      intros Hall. apply Forall_cons in Hall as [[? Hsome] _].
      rewrite Hp in Hsome. discriminate Hsome.
Qed.

Lemma double_add_expense_spec (balances : gmap Z float) (e : Expense) :
  (has_players e
   /\ exists balances',
        add_expense balances e = Returns balances'
        /\ dom balances' = expense_ids e ∪ dom balances)
  \/ (~ has_players e /\ add_expense balances e = Raises AttributeError).
Proof.
  unfold add_expense, has_players.
  destruct e as [amount [payer |] participants];
    cbn [expense_payer expense_participants expense_amount py_id bind].
  2: { right. split; [| done]. by intros [[? [=]] _]. }
  destruct participants as [| p participants].
  - left. split; [split; [eauto | constructor] |].
    eexists. split; [done |].
    rewrite double_dd_iadd_insert, dom_insert_L.
    unfold expense_ids. cbn. set_solver.
  - cbn [length py_truediv bind].
    destruct (double_charge_participants_spec
                (amount / of_int (Z.of_nat (S (length participants))))
                (p :: participants)
                (dd_iadd balances (player_id payer) amount))
      as [(Hall & b' & Hrun & Hdom) | [Hnot Hrun]].
    + left. split; [split; [eauto | done] |].
      exists b'. split; [done |].
      rewrite Hdom, double_dd_iadd_insert, dom_insert_L.
      rewrite double_expense_ids_present by done. set_solver.
    + right. split; [| done]. by intros [_ Hall].
Qed.

Lemma double_add_expenses_spec (expenses : list Expense)
    (balances : gmap Z float) :
  (Forall has_players expenses
   /\ exists balances',
        add_expenses balances expenses = Returns balances'
        /\ dom balances' = expenses_ids expenses ∪ dom balances)
  \/ (~ Forall has_players expenses
      /\ add_expenses balances expenses = Raises AttributeError).
Proof.
  revert balances. induction expenses as [| e expenses IH]; intros balances.
  - left. split; [constructor |]. exists balances. split; [done |].
    unfold expenses_ids. cbn. set_solver.
  - cbn [add_expenses].
    destruct (double_add_expense_spec balances e)
      as [(He & b1 & -> & Hd1) | [Hnot ->]]; cbn [bind].
    + destruct (IH b1) as [(Hall & b' & Hrun & Hdom) | [Hnot Hrun]].
      * left. split; [by constructor |]. exists b'. split; [done |].
        rewrite Hdom, Hd1. unfold expenses_ids.
        rewrite fmap_cons, union_list_cons. set_solver.
      * right. split; [| done].
        intros Hall. apply Hnot. by apply Forall_cons in Hall as [_ ?].
    + right. split; [| done].
      intros Hall. apply Hnot. by apply Forall_cons in Hall as [? _].
Qed.

(** No debtor and no creditor when every player reads zero. *)
Lemma double_partition_zero (players : list Player) (m : gmap Z float) :
  (forall p, p ∈ players -> balance_of m p = 0%float) ->
  debtors_of players m = [] /\ creditors_of players m = [].
Proof.
  unfold debtors_of, creditors_of.
  induction players as [| p players IH]; intros Hzero; [done |].
  cbn [List.filter]. rewrite (Hzero p) by (by left).
  change (0 <? 0)%float with false.
  apply IH. intros q Hq. apply Hzero. by right.
Qed.

Lemma double_computeTransactions_nobody (fuel : nat)
    (players : list Player) (balances : gmap Z float) :
  debtors_of players balances = [] \/ creditors_of players balances = [] ->
  computeTransactions fuel players balances = Returns [].
Proof.
  intros Hnone. unfold computeTransactions.
  rewrite double_sweep_of_eq, double_sweep_loop_unfold.
  assert (sweep_guard
            (mkSweep (sort_desc (debtors_of players balances))
                     (sort_desc (creditors_of players balances)) 0 0 [])
          = false) as ->; [| done].
  unfold sweep_guard. cbn [sw_debtors sw_creditors sw_i sw_j].
  destruct Hnone as [-> | ->]; cbn; [done | apply andb_false_r].
Qed.

End DoubleBalances.

(** ** What leaves the engine *)

(** C8 (amended), on binary64 and on the rows as the ORM hands them over:
    the only exception that leaves the engine is [AttributeError], and it
    is raised exactly when the row of an expense's payer or of a
    participant's player is missing.  On all other inputs
    [computeBalances] returns a dictionary whose keys are the ids of the
    roster and of the expenses; an expense without participants is not
    divided; without players no transaction is emitted and the balances
    hold the ids the expenses mention (none when there is no expense
    either); without expenses every player has balance zero and no
    transaction is emitted. *)
Theorem engine_raises_only_without_player (fuel : nat)
    (players : list Player) (expenses : list Doubles.Expense)
    (balances : gmap Z float) (e : exn) :
  (Forall Doubles.has_players expenses ->
   Doubles.settle_up fuel players expenses <> Raises e
   /\ exists b,
        Doubles.computeBalances players expenses = Returns b
        /\ dom b = player_ids players ∪ Doubles.expenses_ids expenses)
  /\ (~ Forall Doubles.has_players expenses ->
      Doubles.settle_up fuel players expenses = Raises AttributeError)
  /\ (Doubles.settle_up fuel players expenses = Raises e ->
      e = AttributeError)
  /\ Doubles.computeTransactions fuel players balances <> Raises e
  /\ (forall amount payer,
        Doubles.add_expense balances (Doubles.mkExpense amount (Some payer) [])
        = Returns (Doubles.dd_iadd balances (player_id payer) amount))
  /\ Doubles.computeBalances [] [] = Returns ∅
  /\ (Forall Doubles.has_players expenses ->
      exists b,
        Doubles.computeBalances [] expenses = Returns b
        /\ dom b = Doubles.expenses_ids expenses)
  /\ Doubles.computeTransactions fuel [] balances = Returns []
  /\ (exists b,
        Doubles.computeBalances players [] = Returns b
        /\ dom b = player_ids players
        /\ (forall k v, b !! k = Some v -> v = 0%float)
        /\ Doubles.computeTransactions fuel players b = Returns []).
Proof.
  assert (forall ps,
            Forall Doubles.has_players expenses ->
            exists b,
              Doubles.computeBalances ps expenses = Returns b
              /\ dom b = player_ids ps ∪ Doubles.expenses_ids expenses)
    as Hreturns.
  { intros ps Hall. unfold Doubles.computeBalances.
    destruct (double_add_expenses_spec expenses (Doubles.init_balances ps))
      as [(_ & b & Hb & Hdom) | [Hnot _]]; [| done].
    exists b. split; [done |].
    rewrite Hdom, double_init_balances_dom. set_solver. }
  assert (~ Forall Doubles.has_players expenses ->
          Doubles.settle_up fuel players expenses = Raises AttributeError)
    as Hraises.
  { intros Hnot. unfold Doubles.settle_up, Doubles.computeBalances.
    by destruct (double_add_expenses_spec expenses
                   (Doubles.init_balances players))
      as [[Hall _] | [_ ->]]. }
  assert (Doubles.settle_up fuel players expenses = Raises e ->
          e = AttributeError) as Honly.
  { unfold Doubles.settle_up, Doubles.computeBalances.
    destruct (double_add_expenses_spec expenses
                (Doubles.init_balances players))
      as [(_ & b & -> & _) | [_ ->]]; cbn [bind]; [| congruence].
    pose proof (double_computeTransactions_never_raises fuel players b e).
    destruct (Doubles.computeTransactions fuel players b); cbn [bind];
      congruence. }
  split.
  { intros Hall. split; [| by apply Hreturns].
    unfold Doubles.settle_up.
    destruct (Hreturns players Hall) as (b & -> & _). cbn [bind].
    pose proof (double_computeTransactions_never_raises fuel players b e).
    destruct (Doubles.computeTransactions fuel players b); cbn [bind];
      congruence. }
  split; [exact Hraises |]. split; [exact Honly |].
  split; [apply double_computeTransactions_never_raises |].
  split; [done |]. split; [done |].
  split.
  { intros Hall. destruct (Hreturns [] Hall) as (b & Hb & Hdom).
    exists b. split; [done |]. rewrite Hdom. unfold player_ids. cbn.
    set_solver. }
  split; [by apply double_computeTransactions_nobody; left |].
  exists (Doubles.init_balances players). split; [done |].
  split; [apply double_init_balances_dom |].
  split; [apply double_init_balances_zero |].
  apply double_computeTransactions_nobody. left.
  apply double_partition_zero. intros p _. unfold Doubles.balance_of.
  destruct (Doubles.init_balances players !! player_id p) as [v |] eqn:E;
    [| done].
  cbn. by apply double_init_balances_zero in E.
Qed.

(** ** Exact values of sums that were not rounded *)

Section DoubleValues.

Import Floats Doubles.

Lemma value_zero : value 0%float = 0.
Proof. reflexivity. Qed.

Lemma exact_add_value (x y : float) :
  exact_add x y = true -> value (x + y) == value x + value y.
Proof.
  unfold exact_add. intros [_ Heq]%andb_true_iff. by apply Qeq_bool_eq.
Qed.

Lemma exact_sub_value (x y : float) :
  exact_sub x y = true -> value (x - y) == value x - value y.
Proof.
  unfold exact_sub. intros [_ Heq]%andb_true_iff. by apply Qeq_bool_eq.
Qed.

Lemma exact_sub_finite (x y : float) :
  exact_sub x y = true ->
  finite x = true /\ finite y = true /\ finite (x - y) = true.
Proof.
  unfold exact_sub.
  by intros [[[? ?]%andb_true_iff ?]%andb_true_iff _]%andb_true_iff.
Qed.

Lemma exact_div_value (x : float) (n : nat) :
  exact_div x n = true ->
  value (x / of_int (Z.of_nat n)) * inject_Z (Z.of_nat n) == value x.
Proof.
  unfold exact_div. intros [_ Heq]%andb_true_iff. by apply Qeq_bool_eq.
Qed.

Lemma exact_round_value (x : float) :
  exact_round x = true -> value (py_round2 x) == value x.
Proof.
  unfold exact_round. intros [_ Heq]%andb_true_iff. by apply Qeq_bool_eq.
Qed.

Lemma sum_of_values_insert (b : gmap Z float) (k : Z) (v : float) :
  sum_of_values (<[k := v]> b)
  == sum_of_values b - value (default 0%float (b !! k)) + value v.
Proof.
  unfold sum_of_values. rewrite fmap_insert, sum_values_insert, lookup_fmap.
  by destruct (b !! k).
Qed.

Lemma sum_of_values_iadd (b : gmap Z float) (p : Player) (x : float) :
  exact_add (balance_of b p) x = true ->
  sum_of_values (dd_iadd b (player_id p) x) == sum_of_values b + value x.
Proof.
  intros Hexact. rewrite double_dd_iadd_insert, sum_of_values_insert.
  fold (balance_of b p). rewrite (exact_add_value _ _ Hexact). ring.
Qed.

Lemma sum_of_values_isub (b : gmap Z float) (p : Player) (x : float) :
  exact_sub (balance_of b p) x = true ->
  sum_of_values (dd_isub b (player_id p) x) == sum_of_values b - value x.
Proof.
  intros Hexact. rewrite double_dd_isub_insert, sum_of_values_insert.
  fold (balance_of b p). rewrite (exact_sub_value _ _ Hexact). ring.
Qed.

Lemma sum_of_values_charge (share : float)
    (participants : list ExpenseParticipant) (b b' : gmap Z float) :
  charged_exactly share participants b = true ->
  charge_participants share participants b = Returns b' ->
  sum_of_values b'
  == sum_of_values b
     - value share * inject_Z (Z.of_nat (length participants)).
Proof.
  revert b. induction participants as [| p participants IH]; intros b.
  - intros _ [= <-]. cbn. ring.
  - cbn [charged_exactly charge_participants].
    destruct (participant_player p) as [player |]; [| done].
    cbn [py_id bind]. intros [Hsub Hrest]%andb_true_iff Hrun.
    rewrite (IH _ Hrest Hrun), (sum_of_values_isub _ _ _ Hsub).
    rewrite length_cons, Nat2Z.inj_succ. unfold Z.succ.
    rewrite inject_Z_plus. ring.
Qed.

Lemma sum_of_values_add_expense (b b' : gmap Z float) (e : Expense) :
  added_exactly b e = true ->
  add_expense b e = Returns b' ->
  sum_of_values b'
  == sum_of_values b
     + match expense_participants e with
       | [] => value (expense_amount e)
       | _ :: _ => 0
       end.
Proof.
  unfold added_exactly, add_expense.
  destruct (expense_payer e) as [payer |]; [| done]. cbn [py_id bind].
  intros [Hadd Hrest]%andb_true_iff.
  pose proof (sum_of_values_iadd b payer _ Hadd) as Hsum.
  destruct (expense_participants e) as [| p participants] eqn:Hparts.
  - intros [= <-]. exact Hsum.
  - apply andb_true_iff in Hrest as [Hdiv Hcharged].
    cbn [py_truediv length bind] in *. intros Hrun.
    rewrite (sum_of_values_charge _ _ _ _ Hcharged Hrun), Hsum.
    rewrite (exact_div_value _ _ Hdiv). ring.
Qed.

Lemma sum_of_values_add_expenses (expenses : list Expense)
    (b b' : gmap Z float) :
  balanced_exactly b expenses = true ->
  add_expenses b expenses = Returns b' ->
  sum_of_values b' == sum_of_values b + unshared_total expenses.
Proof.
  revert b. induction expenses as [| e expenses IH]; intros b.
  - intros _ [= <-]. cbn. ring.
  - cbn [balanced_exactly add_expenses unshared_total foldr].
    intros [Hadded Hrest]%andb_true_iff Hrun.
    apply bind_returns in Hrun as (b1 & Hb1 & Hrun).
    rewrite Hb1 in Hrest.
    rewrite (IH _ Hrest Hrun), (sum_of_values_add_expense _ _ _ Hadded Hb1).
    fold (unshared_total expenses).
    destruct (expense_participants e); ring.
Qed.

Lemma sum_of_values_init (players : list Player) :
  sum_of_values (init_balances players) == 0.
Proof.
  unfold sum_of_values. apply sum_values_zero.
  intros k v Hk. rewrite lookup_fmap in Hk.
  destruct (init_balances players !! k) as [x |] eqn:E; [| done].
  injection Hk as <-. by rewrite (double_init_balances_zero _ _ _ E).
Qed.

Lemma double_unshared_total_shared (expenses : list Expense) :
  Forall (fun e => expense_participants e <> []) expenses ->
  unshared_total expenses = 0.
Proof.
  induction 1 as [| e expenses He _ IH]; [done |].
  cbn [unshared_total foldr]. fold (unshared_total expenses).
  by destruct (expense_participants e).
Qed.

End DoubleValues.

(** * The properties of the specification *)

(** ** Balances *)


(** When every expense lists a participant the balances sum to zero. *)
Corollary balances_sum_to_zero (players : list Player)
    (expenses : list Expense) :
  Forall (fun e => expense_participants e <> []) expenses ->
  exists balances,
    computeBalances players expenses = Returns balances
    /\ sum_values balances == 0.
Proof.
  intros Hshared.
  destruct (computeBalances_spec players expenses) as (b & Hb & Hs & _).
  exists b. split; [done |]. by rewrite Hs, unshared_total_shared.
Qed.


(** ** The sum of the balances on binary64 *)

(** C1 (amended), on binary64: when [computeBalances] rounds nowhere (every
    [+=], every division and every [-=] it carries out is exact), the exact
    values of the balances it returns sum to the total amount of the
    expenses that list no participant, hence to zero when every expense
    has a participant. *)
Theorem balances_sum_without_rounding (players : list Player)
    (expenses : list Doubles.Expense) (balances : gmap Z float) :
  Doubles.balances_exact players expenses = true ->
  Doubles.computeBalances players expenses = Returns balances ->
  Doubles.sum_of_values balances == Doubles.unshared_total expenses
  /\ (Forall (fun e => Doubles.expense_participants e <> []) expenses ->
      Doubles.sum_of_values balances == 0).
Proof.
  unfold Doubles.balances_exact, Doubles.computeBalances. intros Hexact Hrun.
  pose proof (sum_of_values_add_expenses _ _ _ Hexact Hrun) as Hsum.
  rewrite sum_of_values_init in Hsum.
  split; [rewrite Hsum; ring |].
  intros Hshared. rewrite Hsum, (double_unshared_total_shared _ Hshared).
  ring.
Qed.

Lemma balances_sum_without_rounding_witness :
  Doubles.balances_exact [alice; bob; carol] dinner_rows = true
  /\ Doubles.computeBalances [alice; bob; carol] dinner_rows
     = Returns (<[1%Z := 60%float]>
                  (<[2%Z := (-30)%float]> (<[3%Z := (-30)%float]> ∅)))
  /\ Doubles.sum_of_values
       (<[1%Z := 60%float]>
          (<[2%Z := (-30)%float]> (<[3%Z := (-30)%float]> ∅)))
     == Doubles.unshared_total dinner_rows
  /\ (Forall (fun e => Doubles.expense_participants e <> []) dinner_rows ->
      Doubles.sum_of_values
        (<[1%Z := 60%float]>
           (<[2%Z := (-30)%float]> (<[3%Z := (-30)%float]> ∅)))
      == 0).
Proof.
  assert (Doubles.balances_exact [alice; bob; carol] dinner_rows = true)
    as Hexact by (by vm_compute).
  assert (Doubles.computeBalances [alice; bob; carol] dinner_rows
          = Returns (<[1%Z := 60%float]>
                       (<[2%Z := (-30)%float]> (<[3%Z := (-30)%float]> ∅))))
    as Hrun by (by vm_compute).
  split; [exact Hexact |]. split; [exact Hrun |].
  exact (balances_sum_without_rounding [alice; bob; carol] dinner_rows _
           Hexact Hrun).
Defined.

(** Where a share is rounded the balances do not sum to zero: 100 shared
    by three leaves a sum of -2^-46, about -1.4e-14; and after 0.60 shared
    by two, 1e15 paid by A for A alone leaves a sum of 0.05. *)
Example rounded_shares_do_not_cancel :
  Doubles.balances_exact [alice; bob; carol] hundred_by_three = false
  /\ (exists balances,
        Doubles.computeBalances [alice; bob; carol] hundred_by_three
        = Returns balances
        /\ Doubles.sum_of_values balances == - (1 # 70368744177664))
  /\ (exists balances,
        Doubles.computeBalances [alice; bob] absorbed_cents
        = Returns balances
        /\ - (1 # 20) - (1 # 1000000) < Doubles.sum_of_values balances
        /\ Doubles.sum_of_values balances < - (1 # 20) + (1 # 1000000)).
Proof.
  split; [by vm_compute |]. split.
  - eexists. split; [by vm_compute |]. by vm_compute.
  - eexists. split; [by vm_compute |]. split; by vm_compute.
Qed.

(** C10: the dictionary holds the ids of the roster and every id an expense
    mentions as payer or participant, so the keys beyond the roster are
    exactly the mentioned ids that are not on it; the debtors and the
    creditors are taken from the roster alone. *)
Theorem balances_keep_foreign_ids (players : list Player)
    (expenses : list Expense) :
  exists balances,
    computeBalances players expenses = Returns balances
    /\ dom balances = player_ids players ∪ expenses_ids expenses
    /\ dom balances ∖ player_ids players
       = expenses_ids expenses ∖ player_ids players
    /\ Forall (fun e => entry_player e ∈ players)
         (partition_players players balances).1.2
    /\ Forall (fun e => entry_player e ∈ players)
         (partition_players players balances).2.
Proof.
  destruct (computeBalances_spec players expenses) as (b & Hb & _ & Hd).
  exists b. split; [done |]. split; [done |]. split; [set_solver |].
  rewrite partition_players_spec. cbn [fst snd].
  split; apply Forall_forall; intros e He.
  - by apply debtors_of_player in He as [? _].
  - by apply creditors_of_player in He as [? _].
Qed.

(** With only A on the roster and B paying for A and C, the dictionary has
    the three keys: a strict superset of the roster's ids. *)
Lemma guest_ids_in_balances :
  exists balances,
    computeBalances [alice] guest_expense = Returns balances
    /\ dom balances = {[1%Z; 2%Z; 3%Z]}
    /\ player_ids [alice] ⊂ dom balances
    /\ (partition_players [alice] balances).1.2
       = [mkEntry alice (Qabs (0 - 30 / inject_Z 2))]
    /\ (partition_players [alice] balances).2 = [].
Proof.
  destruct (computeBalances_spec [alice] guest_expense)
    as (b & Hb & _ & Hd).
  exists b. split; [done |].
  assert (dom b = {[1%Z; 2%Z; 3%Z]}) as Hdom.
  { rewrite Hd. unfold player_ids, expenses_ids, expense_ids. simpl.
    set_solver. }
  split; [done |]. split.
  - rewrite Hdom. unfold player_ids. simpl. set_solver.
  - injection Hb as <-. split; reflexivity.
Qed.

(** ** No exception leaves the engine *)







(** ** The sweep *)

(** C2 fails on this input: A pays two cents for A and B, so B owes A
    exactly one cent.  The amount to settle is not above 0.01, nothing is
    subtracted, neither remaining amount is below 0.01, and the loop runs
    again on the same state: whatever the fuel, the handler does not
    return. *)
Theorem one_cent_debt_never_returns (fuel : nat) :
  settle_up fuel [alice; bob] two_cents = OutOfFuel
  /\ (exists balances,
        computeBalances [alice; bob] two_cents = Returns balances
        /\ stuck (sweep_of [alice; bob] balances)
        /\ sweep_body (sweep_of [alice; bob] balances)
           = Returns (sweep_of [alice; bob] balances)
        /\ computeTransactions fuel [alice; bob] balances = OutOfFuel).
Proof.
  assert (exists balances,
            computeBalances [alice; bob] two_cents = Returns balances
            /\ stuck (sweep_of [alice; bob] balances)) as (b & Hb & Hst).
  { eexists. split; [reflexivity |].
    exists (mkEntry bob (Qabs (0 - 0.02 / inject_Z 2))),
           (mkEntry alice (0 + 0.02 - 0.02 / inject_Z 2)).
    split; [reflexivity |]. split; [reflexivity |]. by vm_compute. }
  assert (computeTransactions fuel [alice; bob] b = OutOfFuel) as Htx.
  { unfold computeTransactions. by rewrite stuck_forever. }
  split.
  - unfold settle_up. rewrite Hb. cbn [bind]. by rewrite Htx.
  - exists b. split; [done |]. split; [done |].
    split; [by apply stuck_body | done].
Qed.




(** In binary64 too B is a debtor, A a creditor, the amount to settle is
    not above 0.01 and neither amount is below 0.01. *)
Example two_cents_in_binary64 :
  PrimFloat.ltb Binary64.balance_B 0%float = true
  /\ PrimFloat.ltb 0%float Binary64.balance_A = true
  /\ PrimFloat.eqb Binary64.amount_to_settle 0.01%float = true
  /\ PrimFloat.ltb 0.01%float Binary64.amount_to_settle = false
  /\ PrimFloat.ltb Binary64.debtor_amount 0.01%float = false
  /\ PrimFloat.ltb Binary64.creditor_amount 0.01%float = false.
Proof. repeat split; by vm_compute. Qed.

(** C3, as the code has it.  With [d] and [c] under the cursors the pass
    returns; when the smaller amount is above 0.01 it is subtracted from
    both entries and the transaction is appended; when it is below 0.01
    both entries and the transactions stay as they are; every other entry
    is left alone, and each cursor moves on exactly when the amount it
    points at is, after that, below 0.01. *)
Theorem sweep_body_settles (s : Sweep) (d c : Entry) :
  sw_debtors s !! sw_i s = Some d ->
  sw_creditors s !! sw_j s = Some c ->
  exists s' d' c',
    sweep_body s = Returns s'
    /\ sw_debtors s' !! sw_i s = Some d'
    /\ sw_creditors s' !! sw_j s = Some c'
    /\ entry_player d' = entry_player d
    /\ entry_player c' = entry_player c
    /\ (0.01 < Qmin (entry_amount d) (entry_amount c) ->
        entry_amount d'
          = entry_amount d - Qmin (entry_amount d) (entry_amount c)
        /\ entry_amount c'
          = entry_amount c - Qmin (entry_amount d) (entry_amount c)
        /\ sw_transactions s'
          = sw_transactions s ++
            [mkTransaction (player_name (entry_player d))
               (player_name (entry_player c))
               (py_round2 (Qmin (entry_amount d) (entry_amount c)))])
    /\ (Qmin (entry_amount d) (entry_amount c) < 0.01 ->
        d' = d /\ c' = c /\ sw_transactions s' = sw_transactions s)
    /\ (forall k, k <> sw_i s -> sw_debtors s' !! k = sw_debtors s !! k)
    /\ (forall k, k <> sw_j s -> sw_creditors s' !! k = sw_creditors s !! k)
    /\ (entry_amount d' < 0.01 -> sw_i s' = S (sw_i s))
    /\ (0.01 <= entry_amount d' -> sw_i s' = sw_i s)
    /\ (entry_amount c' < 0.01 -> sw_j s' = S (sw_j s))
    /\ (0.01 <= entry_amount c' -> sw_j s' = sw_j s).
Proof.
  intros Hd Hc. rewrite (sweep_body_eq s d c Hd Hc). cbv zeta.
  pose proof (lookup_lt_Some _ _ _ Hd) as Hi.
  pose proof (lookup_lt_Some _ _ _ Hc) as Hj.
  set (settle := Qmin (entry_amount d) (entry_amount c)).
  destruct (Qltb 0.01 settle) eqn:Hlt.
  - apply Qltb_lt in Hlt.
    exists (mkSweep
              (<[sw_i s := set_amount d (entry_amount d - settle)]>
                 (sw_debtors s))
              (<[sw_j s := set_amount c (entry_amount c - settle)]>
                 (sw_creditors s))
              (if Qltb (entry_amount d - settle) 0.01
               then S (sw_i s) else sw_i s)
              (if Qltb (entry_amount c - settle) 0.01
               then S (sw_j s) else sw_j s)
              (sw_transactions s ++
                 [mkTransaction (player_name (entry_player d))
                    (player_name (entry_player c)) (py_round2 settle)])),
      (set_amount d (entry_amount d - settle)),
      (set_amount c (entry_amount c - settle)).
    cbn [sw_debtors sw_creditors sw_i sw_j sw_transactions set_amount
         entry_amount entry_player].
    split; [done |].
    split; [by apply list_lookup_insert_eq |].
    split; [by apply list_lookup_insert_eq |].
    split; [done |]. split; [done |]. split; [done |].
    split; [intros Hlow; exfalso; lra |].
    split; [intros k Hk; by apply list_lookup_insert_ne |].
    split; [intros k Hk; by apply list_lookup_insert_ne |].
    repeat split; intros Hcmp.
    + apply Qltb_lt in Hcmp. by rewrite Hcmp.
    + apply Qltb_ge in Hcmp. by rewrite Hcmp.
    + apply Qltb_lt in Hcmp. by rewrite Hcmp.
    + apply Qltb_ge in Hcmp. by rewrite Hcmp.
  - apply Qltb_ge in Hlt.
    exists (mkSweep (sw_debtors s) (sw_creditors s)
              (if Qltb (entry_amount d) 0.01 then S (sw_i s) else sw_i s)
              (if Qltb (entry_amount c) 0.01 then S (sw_j s) else sw_j s)
              (sw_transactions s)), d, c.
    cbn [sw_debtors sw_creditors sw_i sw_j sw_transactions].
    split; [done |]. split; [done |]. split; [done |].
    split; [done |]. split; [done |].
    split; [intros Hhigh; exfalso; lra |].
    split; [done |]. split; [done |]. split; [done |].
    repeat split; intros Hcmp.
    + apply Qltb_lt in Hcmp. by rewrite Hcmp.
    + apply Qltb_ge in Hcmp. by rewrite Hcmp.
    + apply Qltb_lt in Hcmp. by rewrite Hcmp.
    + apply Qltb_ge in Hcmp. by rewrite Hcmp.
Qed.

Lemma sweep_body_settles_witness :
  sw_debtors (sweep_of four_players four_balances) !! 0%nat
    = Some (mkEntry alice (Qabs (-40)))
  /\ sw_creditors (sweep_of four_players four_balances) !! 0%nat
    = Some (mkEntry carol 30)
  /\ exists s' d' c',
       sweep_body (sweep_of four_players four_balances) = Returns s'
       /\ sw_debtors s' !! 0%nat = Some d'
       /\ sw_creditors s' !! 0%nat = Some c'
       /\ entry_amount d' = Qabs (-40) - Qmin (Qabs (-40)) 30
       /\ entry_amount c' = 30 - Qmin (Qabs (-40)) 30
       /\ sw_i s' = 0%nat /\ sw_j s' = 1%nat.
Proof.
  split; [reflexivity |]. split; [reflexivity |].
  destruct (sweep_body_settles (sweep_of four_players four_balances)
              (mkEntry alice (Qabs (-40))) (mkEntry carol 30)
              eq_refl eq_refl)
    as (s' & d' & c' & Hb & Hd & Hc & _ & _ & Hhigh & _ & _ & _
        & _ & Hi & Hj & _).
  destruct (Hhigh ltac:(by vm_compute)) as (Had & Hac & _).
  exists s', d', c'.
  split; [exact Hb |]. split; [exact Hd |]. split; [exact Hc |].
  split; [exact Had |]. split; [exact Hac |].
  split.
  - apply Hi. rewrite Had. by vm_compute.
  - apply Hj. rewrite Hac. by vm_compute.
Defined.

(** C3 as stated fails: A pays one cent for A and B, each owes half a cent,
    the amount to settle is 0.005 and it is subtracted from neither
    entry. *)
Lemma half_cent_is_not_subtracted :
  exists balances d c s' d' c',
    computeBalances [alice; bob] one_cent = Returns balances
    /\ sw_debtors (sweep_of [alice; bob] balances) !! 0%nat = Some d
    /\ sw_creditors (sweep_of [alice; bob] balances) !! 0%nat = Some c
    /\ Qmin (entry_amount d) (entry_amount c) == 0.005
    /\ sweep_body (sweep_of [alice; bob] balances) = Returns s'
    /\ sw_debtors s' !! 0%nat = Some d'
    /\ sw_creditors s' !! 0%nat = Some c'
    /\ entry_amount d' == 0.005
    /\ entry_amount c' == 0.005
    /\ ~ entry_amount d'
         == entry_amount d - Qmin (entry_amount d) (entry_amount c)
    /\ ~ entry_amount c'
         == entry_amount c - Qmin (entry_amount d) (entry_amount c).
Proof.
  eexists _, _, _, _, _, _.
  split; [reflexivity |]. split; [reflexivity |]. split; [reflexivity |].
  split; [by vm_compute |]. split; [reflexivity |].
  split; [reflexivity |]. split; [reflexivity |].
  split; [by vm_compute |]. split; [by vm_compute |].
  split; by vm_compute.
Qed.

(** ** The order of the transactions *)

Lemma computeTransactions_fuel_mono (fuel fuel' : nat)
    (players : list Player) (balances : gmap Z Q)
    (txs : list Transaction) :
  (fuel <= fuel')%nat ->
  computeTransactions fuel players balances = Returns txs ->
  computeTransactions fuel' players balances = Returns txs.
Proof.
  intros Hle. unfold computeTransactions. intros Hrun.
  apply bind_returns in Hrun as (s & Hs & [= <-]).
  by rewrite (sweep_loop_fuel_mono fuel fuel' _ s Hle Hs).
Qed.

Lemma sweep_of_eq (players : list Player) (balances : gmap Z Q) :
  sweep_of players balances =
  mkSweep (sort_desc (debtors_of players balances))
          (sort_desc (creditors_of players balances)) 0 0 [].
Proof. unfold sweep_of. by rewrite partition_players_spec. Qed.

(** C5: debtors of 40 and 10 against creditors of 30 and 20 give the three
    transactions 40-debtor to 30-creditor for 30, 40-debtor to 20-creditor
    for 10, 10-debtor to 20-creditor for 10, in that order, from the
    balances, from expenses that produce them, and in whatever order the
    four players are listed.  In general the sweep starts at the head of
    both lists with no transaction, on the debtors and the creditors sorted
    by decreasing amount, entries of equal amount keeping the order in which
    the partition met them, which is the order of the roster. *)
Theorem four_player_sweep_order (fuel : nat) (players : list Player)
    (balances : gmap Z Q) (a : Q) :
  computeTransactions (3 + fuel) four_players four_balances
    = Returns four_transactions
  /\ (exists b,
        settle_up (3 + fuel) four_players two_rounds
        = Returns (mkResponse four_players two_rounds b four_transactions))
  /\ Forall (fun roster =>
               computeTransactions (3 + fuel) roster four_balances
               = Returns four_transactions)
            (permutations four_players)
  /\ sw_i (sweep_of players balances) = 0%nat
  /\ sw_j (sweep_of players balances) = 0%nat
  /\ sw_transactions (sweep_of players balances) = []
  /\ StronglySorted amount_ge (sw_debtors (sweep_of players balances))
  /\ StronglySorted amount_ge (sw_creditors (sweep_of players balances))
  /\ sw_debtors (sweep_of players balances)
     ≡ₚ (partition_players players balances).1.2
  /\ sw_creditors (sweep_of players balances)
     ≡ₚ (partition_players players balances).2
  /\ with_amount a (sw_debtors (sweep_of players balances))
     = with_amount a (partition_players players balances).1.2
  /\ with_amount a (sw_creditors (sweep_of players balances))
     = with_amount a (partition_players players balances).2.
Proof.
  split.
  { apply (computeTransactions_fuel_mono 3); [lia | by vm_compute]. }
  split.
  { unfold settle_up.
    assert (exists b, computeBalances four_players two_rounds = Returns b
                      /\ computeTransactions 3 four_players b
                         = Returns four_transactions) as (b & -> & Htx).
    { eexists. split; [reflexivity | by vm_compute]. }
    eexists. cbn [bind].
    rewrite (computeTransactions_fuel_mono 3 (3 + fuel) _ _ _
               ltac:(lia) Htx).
    reflexivity. }
  split.
  { assert (Forall (fun roster =>
                      computeTransactions 3 roster four_balances
                      = Returns four_transactions)
                   (permutations four_players)) as Hall.
    { let l := eval vm_compute in (permutations four_players) in
      change (permutations four_players) with l.
      repeat (constructor; [by vm_compute |]). constructor. }
    eapply Forall_impl; [exact Hall |].
    intros roster Hr. cbv beta in Hr |- *.
    apply (computeTransactions_fuel_mono 3); [lia | done]. }
  rewrite sweep_of_eq, partition_players_spec.
  cbn [sw_i sw_j sw_transactions sw_debtors sw_creditors fst snd].
  split; [done |]. split; [done |]. split; [done |].
  split; [apply sort_desc_sorted |]. split; [apply sort_desc_sorted |].
  split; [apply sort_desc_perm |]. split; [apply sort_desc_perm |].
  split; apply sort_desc_stable.
Qed.

(** Two debtors of the same amount pay in the order of the roster. *)
Example equal_debtors_keep_roster_order :
  settle_up 2 [alice; bob; carol] dinner
  = Returns (mkResponse [alice; bob; carol] dinner
               (<[3%Z := 0 - 90 / inject_Z 3]>
                  (<[2%Z := 0 - 90 / inject_Z 3]>
                     (<[1%Z := 0 + 90 - 90 / inject_Z 3]> ∅)))
               [mkTransaction "B" "A" 30; mkTransaction "C" "A" 30]).
Proof. by vm_compute. Qed.

(** ** Who pays whom *)

Lemma players_of_insert (l : list Entry) (i : nat) (d : Entry) (a : Q) :
  l !! i = Some d -> players_of (<[i := set_amount d a]> l) = players_of l.
Proof.
  intros Hd. unfold players_of. rewrite list_fmap_insert.
  apply list_insert_id. by rewrite list_lookup_fmap, Hd.
Qed.

Lemma pays_across_body (debtors creditors : list Player) (s s' : Sweep) :
  sweep_guard s = true -> pays_across debtors creditors s ->
  sweep_body s = Returns s' -> pays_across debtors creditors s'.
Proof.
  intros Hg (Hds & Hcs & Htx) Hbody.
  open_body Hg Hbody d c Hd Hc.
  destruct (Qltb 0.01 (Qmin (entry_amount d) (entry_amount c)));
    injection Hbody as <-; unfold pays_across;
    cbn [sw_debtors sw_creditors sw_transactions]; [| done].
  rewrite !players_of_insert by done.
  split; [done |]. split; [done |].
  apply Forall_app. split; [done |].
  constructor; [| constructor].
  exists (entry_player d), (entry_player c). cbn [tx_from tx_to].
  split.
  { rewrite <- Hds. unfold players_of.
    apply list_elem_of_fmap. exists d. split; [done |].
    by apply list_elem_of_lookup_2 with (sw_i s). }
  split; [| done].
  rewrite <- Hcs. unfold players_of.
  apply list_elem_of_fmap. exists c. split; [done |].
  by apply list_elem_of_lookup_2 with (sw_j s).
Qed.

Lemma NoDup_names_inj (players : list Player) (p q : Player) :
  NoDup (player_name <$> players) -> p ∈ players -> q ∈ players ->
  player_name p = player_name q -> p = q.
Proof.
  induction players as [| r players IH]; [by intros _ ?%elem_of_nil |].
  rewrite fmap_cons, NoDup_cons. intros [Hr Hnd] Hp Hq Hname.
  apply elem_of_cons in Hp as [-> | Hp]; apply elem_of_cons in Hq as [-> | Hq].
  - done.
  - exfalso. apply Hr. rewrite Hname. apply list_elem_of_fmap. eauto.
  - exfalso. apply Hr. rewrite <- Hname. apply list_elem_of_fmap. eauto.
  - by apply IH.
Qed.

Lemma computeTransactions_pays_across (fuel : nat) (players : list Player)
    (balances : gmap Z Q) (txs : list Transaction) :
  computeTransactions fuel players balances = Returns txs ->
  Forall (fun t => exists d c,
            d ∈ players /\ c ∈ players
            /\ balance_of balances d < 0 /\ 0 < balance_of balances c
            /\ tx_from t = player_name d /\ tx_to t = player_name c) txs.
Proof.
  unfold computeTransactions. intros Hrun.
  apply bind_returns in Hrun as (s & Hs & [= <-]).
  rewrite sweep_of_eq in Hs.
  set (ds0 := sort_desc (debtors_of players balances)) in *.
  set (cs0 := sort_desc (creditors_of players balances)) in *.
  destruct (sweep_loop_invariant
              (pays_across (players_of ds0) (players_of cs0))
              (pays_across_body _ _) fuel (mkSweep ds0 cs0 0 0 []) s)
    as [(_ & _ & Htx) _]; [by repeat split | done |].
  eapply Forall_impl; [exact Htx |].
  intros t (d & c & Hd & Hc & Hfrom & Hto). cbv beta.
  unfold players_of in Hd, Hc.
  apply list_elem_of_fmap in Hd as (ed & -> & Hed).
  apply list_elem_of_fmap in Hc as (ec & -> & Hec).
  apply sort_desc_players, debtors_of_player in Hed as (Hdp & Hdn & _).
  apply sort_desc_players, creditors_of_player in Hec as (Hcp & Hcn & _).
  exists (entry_player ed), (entry_player ec). repeat split; done.
Qed.

(** C7: with a roster whose names are all different (the [Player] table
    makes names unique) no transaction has the same name at both ends. *)
Theorem no_self_payment (fuel : nat) (players : list Player)
    (balances : gmap Z Q) (txs : list Transaction) :
  NoDup (player_name <$> players) ->
  computeTransactions fuel players balances = Returns txs ->
  Forall (fun t => tx_from t <> tx_to t) txs.
Proof.
  intros Hnames Hrun.
  eapply Forall_impl; [exact (computeTransactions_pays_across _ _ _ _ Hrun) |].
  intros t (d & c & Hd & Hc & Hneg & Hpos & Hfrom & Hto) Hself. cbv beta in *.
  assert (d = c) as ->.
  { apply (NoDup_names_inj players); [done .. |]. congruence. }
  lra.
Qed.

Lemma no_self_payment_witness :
  NoDup (player_name <$> four_players)
  /\ computeTransactions 3 four_players four_balances
     = Returns four_transactions
  /\ Forall (fun t => tx_from t <> tx_to t) four_transactions.
Proof.
  assert (NoDup (player_name <$> four_players)) as Hnames.
  { apply (bool_decide_unpack _). by vm_compute. }
  assert (computeTransactions 3 four_players four_balances
          = Returns four_transactions) as Hrun by (by vm_compute).
  split; [exact Hnames |]. split; [exact Hrun |].
  exact (no_self_payment 3 four_players four_balances four_transactions
           Hnames Hrun).
Defined.

(** ** Whole cents *)


Lemma is_cents_zero : is_cents 0.
Proof. by exists 0%Z. Qed.







(** Rounding to two decimals moves an amount by at most half a cent. *)
Lemma round_half_even_close (y : Q) :
  y - (1 # 2) <= inject_Z (round_half_even y)
  /\ inject_Z (round_half_even y) <= y + (1 # 2).
Proof.
  unfold round_half_even.
  pose proof (Qfloor_le y) as Hlo.
  pose proof (Qlt_floor y) as Hhi.
  rewrite inject_Z_plus in Hhi. change (inject_Z 1) with 1 in Hhi.
  set (fl := Qfloor y) in *. clearbody fl.
  destruct (Qcompare (y - inject_Z fl) (1 # 2)) eqn:Hcmp.
  - rewrite <- Qeq_alt in Hcmp.
    destruct (Z.even fl);
      rewrite ?inject_Z_plus; change (inject_Z 1) with 1; split; lra.
  - rewrite <- Qlt_alt in Hcmp. split; lra.
  - rewrite <- Qgt_alt in Hcmp.
    rewrite inject_Z_plus. change (inject_Z 1) with 1. split; lra.
Qed.

Lemma py_round2_close (x : Q) : Qabs (py_round2 x - x) <= 0.005.
Proof.
  unfold py_round2. rewrite Qred_correct.
  destruct (round_half_even_close (x * 100)) as [Hlo Hhi].
  set (r := inject_Z (round_half_even (x * 100))) in *. clearbody r.
  assert (r / 100 == r * 0.01) as -> by field.
  apply Qabs_Qle_condition. split; lra.
Qed.

(** ** Sums over entries and transactions *)

Lemma sum_entries_cons (P : string -> bool) (e : Entry) (l : list Entry) :
  sum_entries P (e :: l)
  = (if P (player_name (entry_player e)) then entry_amount e else 0)
    + sum_entries P l.
Proof. reflexivity. Qed.

Lemma sum_entries_insert (P : string -> bool) (l : list Entry) (i : nat)
    (d : Entry) (a : Q) :
  l !! i = Some d ->
  sum_entries P (<[i := set_amount d a]> l)
  == sum_entries P l
     + (if P (player_name (entry_player d)) then a - entry_amount d else 0).
Proof.
  revert i. induction l as [| e l IH]; intros i Hd; [done |].
  destruct i as [| i].
  - injection Hd as ->.
    change (<[0%nat := set_amount d a]> (d :: l)) with (set_amount d a :: l).
    rewrite !sum_entries_cons. cbn [set_amount entry_player entry_amount].
    destruct (P (player_name (entry_player d))); ring.
  - change (<[S i := set_amount d a]> (e :: l))
      with (e :: <[i := set_amount d a]> l).
    rewrite !sum_entries_cons, (IH i Hd). ring.
Qed.

Lemma sum_entries_perm (P : string -> bool) (l l' : list Entry) :
  l ≡ₚ l' -> sum_entries P l == sum_entries P l'.
Proof.
  induction 1 as [| e l l' _ IH | e e' l | l l' l'' _ IH1 _ IH2].
  - reflexivity.
  - rewrite !sum_entries_cons. by rewrite IH.
  - rewrite !sum_entries_cons. ring.
  - by rewrite IH1.
Qed.





Lemma sum_to_snoc (P : string -> bool) (txs : list Transaction)
    (t : Transaction) :
  sum_to P (txs ++ [t])
  == sum_to P txs + (if P (tx_to t) then tx_amount t else 0).
Proof.
  induction txs as [| t' txs IH].
  - unfold sum_to. cbn [app foldr]. ring.
  - change (sum_to P ((t' :: txs) ++ [t]))
      with ((if P (tx_to t') then tx_amount t' else 0)
            + sum_to P (txs ++ [t])).
    change (sum_to P (t' :: txs))
      with ((if P (tx_to t') then tx_amount t' else 0) + sum_to P txs).
    rewrite IH. ring.
Qed.


Lemma sum_to_everyone (txs : list Transaction) :
  sum_to everyone txs = total_paid txs.
Proof.
  induction txs as [| t txs IH]; [done |].
  change (sum_to everyone (t :: txs)) with (tx_amount t + sum_to everyone txs).
  by rewrite IH.
Qed.

(** ** The sweep on whole cents *)

Section WholeCents.

(** The two sorted lists the sweep starts from. *)
Variables debtors creditors : list Entry.





End WholeCents.

(** ** From the roster to the two lists *)

Lemma debtors_of_step (p : Player) (players : list Player) (m : gmap Z Q) :
  debtors_of (p :: players) m =
  if Qltb (balance_of m p) 0
  then mkEntry p (Qabs (balance_of m p)) :: debtors_of players m
  else debtors_of players m.
Proof.
  unfold debtors_of. cbn [List.filter].
  by destruct (Qltb (balance_of m p) 0).
Qed.

Lemma creditors_of_step (p : Player) (players : list Player) (m : gmap Z Q) :
  creditors_of (p :: players) m =
  if Qltb 0 (balance_of m p)
  then mkEntry p (balance_of m p) :: creditors_of players m
  else creditors_of players m.
Proof.
  unfold creditors_of. cbn [List.filter].
  by destruct (Qltb 0 (balance_of m p)).
Qed.



Lemma positive_mass_creditors (players : list Player) (m : gmap Z Q) :
  positive_mass players m == sum_entries everyone (creditors_of players m).
Proof.
  induction players as [| p players IH]; [reflexivity |].
  change (positive_mass (p :: players) m)
    with (Qmax (balance_of m p) 0 + positive_mass players m).
  rewrite creditors_of_step, IH.
  destruct (Qltb 0 (balance_of m p)) eqn:Hpos.
  - apply Qltb_lt in Hpos.
    rewrite sum_entries_cons. cbn [entry_amount entry_player everyone].
    rewrite Q.max_l by (by apply Qlt_le_weak). reflexivity.
  - apply Qltb_ge in Hpos. rewrite Q.max_r by done. ring.
Qed.






(** ** The sweep on any amounts *)

Lemma sum_entries_nonneg (l : list Entry) :
  Forall (fun e => 0 <= entry_amount e) l -> 0 <= sum_entries everyone l.
Proof.
  induction 1 as [| e l He _ IH]; [by vm_compute |].
  rewrite sum_entries_cons. unfold everyone at 1. lra.
Qed.

Lemma paying_body (creditors : list Entry) (s s' : Sweep) :
  sweep_guard s = true -> paying creditors s ->
  sweep_body s = Returns s' -> paying creditors s'.
Proof.
  intros Hg [Hds Hcs Hrecv] Hbody.
  open_body Hg Hbody d c Hd Hc.
  pose proof (Forall_lookup_1 _ _ _ _ Hds Hd) as Hd0.
  pose proof (Forall_lookup_1 _ _ _ _ Hcs Hc) as Hc0.
  cbv beta in Hd0, Hc0.
  pose proof (Q.le_min_l (entry_amount d) (entry_amount c)) as Hmd.
  pose proof (Q.le_min_r (entry_amount d) (entry_amount c)) as Hmc.
  pose proof (py_round2_close (Qmin (entry_amount d) (entry_amount c)))
    as Hround.
  set (settle := Qmin (entry_amount d) (entry_amount c)) in *. clearbody settle.
  destruct (Qltb 0.01 settle) eqn:Hlt; injection Hbody as <-; split;
    cbn [sw_debtors sw_creditors sw_transactions]; try done.
  - apply Forall_insert; [done |]. cbn. lra.
  - apply Forall_insert; [done |]. cbn. lra.
  - rewrite (sum_entries_insert everyone _ _ c) by done.
    unfold everyone at 2.
    rewrite <- !sum_to_everyone, sum_to_snoc, !sum_to_everyone.
    unfold everyone at 2. cbn [tx_amount].
    rewrite length_app. cbn [length].
    rewrite Nat.add_1_r, Nat2Z.inj_succ. unfold Z.succ.
    rewrite inject_Z_plus. change (inject_Z 1) with 1.
    apply Qabs_Qle_condition in Hrecv, Hround.
    apply Qabs_Qle_condition. split; lra.
Qed.

(** Whatever the balances, once the sweep returns the amounts emitted do
    not exceed the positive balances by more than half a cent for each
    transaction. *)
Lemma transactions_within_credit (fuel : nat) (players : list Player)
    (balances : gmap Z Q) (txs : list Transaction) :
  computeTransactions fuel players balances = Returns txs ->
  total_paid txs
  <= positive_mass players balances
     + 0.005 * inject_Z (Z.of_nat (length txs)).
Proof.
  unfold computeTransactions. intros Hrun.
  apply bind_returns in Hrun as (s & Hs & [= <-]).
  rewrite sweep_of_eq in Hs.
  set (ds0 := sort_desc (debtors_of players balances)) in *.
  set (cs0 := sort_desc (creditors_of players balances)) in *.
  assert (Forall (fun e => 0 <= entry_amount e) ds0
          /\ Forall (fun e => 0 <= entry_amount e) cs0) as [Hd Hc].
  { unfold ds0, cs0. rewrite !sort_desc_perm.
    split; apply Forall_forall; intros e He.
    - apply debtors_of_player in He as (_ & Hneg & ->). lra.
    - apply creditors_of_player in He as (_ & Hpos & ->). lra. }
  assert (paying cs0 (mkSweep ds0 cs0 0 0 [])) as Hstart.
  { split; cbn [sw_debtors sw_creditors sw_transactions]; try done.
    assert (sum_entries everyone cs0 + total_paid []
            - sum_entries everyone cs0 == 0) as ->.
    { unfold total_paid. cbn [foldr]. ring. }
    by vm_compute. }
  destruct (sweep_loop_invariant (paying cs0) (paying_body cs0)
              fuel _ s Hstart Hs) as [[_ Hcs Hrecv] _].
  pose proof (sum_entries_nonneg _ Hcs) as Hleft.
  apply Qabs_Qle_condition in Hrecv.
  rewrite positive_mass_creditors.
  rewrite <- (sum_entries_perm everyone _ _ (sort_desc_perm _)).
  fold cs0. lra.
Qed.

(** ** Settlement *)



Lemma four_names_differ : NoDup (player_name <$> four_players).
Proof. apply (bool_decide_unpack _). by vm_compute. Defined.



(** With the signs as worded the dinner of 90 leaves A at 120 and B at -60:
    a payment has to raise the payer's balance towards zero. *)
Example dinner_as_worded :
  exists balances txs,
    computeBalances [alice; bob; carol] dinner = Returns balances
    /\ computeTransactions 2 [alice; bob; carol] balances = Returns txs
    /\ settled_balance_as_worded balances txs alice == 120
    /\ settled_balance_as_worded balances txs bob == -60
    /\ settled_balance balances txs alice == 0
    /\ settled_balance balances txs bob == 0.
Proof.
  eexists _, _. split; [reflexivity |]. split; [reflexivity |].
  repeat split; by vm_compute.
Qed.

(** Debts below one cent are dropped even when the balances sum to zero:
    B and C owe 0.9 cent each, nothing is emitted and A stays 1.8 cents
    short. *)
Example small_change_is_dropped :
  exists balances,
    computeBalances [alice; bob; carol] small_change = Returns balances
    /\ roster_sum [alice; bob; carol] balances == 0
    /\ computeTransactions 2 [alice; bob; carol] balances = Returns []
    /\ settled_balance balances [] alice == 0.018
    /\ positive_mass [alice; bob; carol] balances == 0.018.
Proof.
  eexists. split; [reflexivity |]. repeat split; by vm_compute.
Qed.




(** ** No hidden state *)

Lemma computeTransactions_reads (fuel : nat) (players : list Player)
    (balances balances' : gmap Z Q) :
  (forall p, balance_of balances' p = balance_of balances p) ->
  computeTransactions fuel players balances'
  = computeTransactions fuel players balances.
Proof.
  intros Hsame. unfold computeTransactions.
  by rewrite !sweep_of_eq, (debtors_of_ext players balances balances'),
    (creditors_of_ext players balances balances').
Qed.

Lemma balances_read_touch (players : list Player) (balances : gmap Z Q) :
  balances_read players balances = touch_players players balances.
Proof. unfold balances_read. by rewrite partition_players_spec. Qed.

(** C9.  The handler computes the balances in a dictionary of its own and
    reads only players that have an entry, so [computeTransactions] leaves
    that dictionary as it received it.  On any dictionary, the only trace a
    call leaves is a zero entry for each player that had none, no balance
    reads differently afterwards, and a second call on what the first left
    gives the same result and leaves the dictionary as the first did; a
    second run of the handler on the inputs it echoes gives the same
    response.  The entries the sweep updates are its own. *)
Theorem engine_keeps_no_state (fuel : nat) (players : list Player)
    (expenses : list Expense) (balances : gmap Z Q) (p : Player) :
  (exists b,
     computeBalances players expenses = Returns b
     /\ call_computeTransactions fuel players b
        = (computeTransactions fuel players b, b))
  /\ call_computeTransactions fuel players
       (call_computeTransactions fuel players balances).2
     = call_computeTransactions fuel players balances
  /\ balance_of (call_computeTransactions fuel players balances).2 p
     = balance_of balances p
  /\ dom (call_computeTransactions fuel players balances).2
     = player_ids players ∪ dom balances
  /\ bind (settle_up fuel players expenses)
          (fun r => settle_up fuel (resp_players r) (resp_expenses r))
     = settle_up fuel players expenses.
Proof.
  unfold call_computeTransactions. cbn [fst snd].
  rewrite !balances_read_touch.
  destruct (computeBalances_spec players expenses) as (b & Hb & _ & Hd).
  split.
  { exists b. split; [done |]. rewrite balances_read_touch.
    f_equal. apply touch_players_id. rewrite Hd. set_solver. }
  split.
  { f_equal.
    - apply computeTransactions_reads. apply touch_players_balance.
    - apply touch_players_id. rewrite touch_players_dom. set_solver. }
  split; [apply touch_players_balance |].
  split; [apply touch_players_dom |].
  unfold settle_up at 1 3. rewrite Hb. cbn [bind].
  destruct (computeTransactions fuel players b) as [txs | e |] eqn:Htx;
    cbn [bind resp_players resp_expenses]; try done.
  unfold settle_up. rewrite Hb. cbn [bind]. by rewrite Htx.
Qed.

(** ** How much fuel is enough *)

Lemma partition_length (players : list Player) (m : gmap Z Q) :
  (length (debtors_of players m) + length (creditors_of players m)
   <= length players)%nat.
Proof.
  induction players as [| p players IH]; [done |].
  rewrite debtors_of_step, creditors_of_step.
  destruct (Qltb (balance_of m p) 0) eqn:Hneg.
  - rewrite (Qltb_asym _ _ Hneg). cbn [length]. lia.
  - destruct (Qltb 0 (balance_of m p)); cbn [length]; lia.
Qed.


(** * Further properties of the settlement *)

(** ** Each balance in closed form *)








(** ** The order of the expenses does not matter *)















(** ** What a transaction carries *)






(** ** How many transactions *)

Lemma few_transactions_body (s s' : Sweep) :
  sweep_guard s = true -> few_transactions s ->
  sweep_body s = Returns s' -> few_transactions s'.
Proof.
  intros Hg [Hmoved Hfew] Hbody.
  pose proof Hg as [Hi Hj]%sweep_guard_true.
  open_body Hg Hbody d c Hd Hc.
  pose proof (Q.le_min_l (entry_amount d) (entry_amount c)) as Hmd.
  pose proof (Q.le_min_r (entry_amount d) (entry_amount c)) as Hmc.
  assert (Qmin (entry_amount d) (entry_amount c) == entry_amount d
          \/ Qmin (entry_amount d) (entry_amount c) == entry_amount c)
    as Hmin.
  { destruct (Q.min_dec (entry_amount d) (entry_amount c));
      [by left | by right]. }
  set (settle := Qmin (entry_amount d) (entry_amount c)) in *.
  clearbody settle.
  destruct (Qltb 0.01 settle) eqn:Hlt; injection Hbody as <-;
    unfold few_transactions;
    cbn [sw_debtors sw_creditors sw_i sw_j sw_transactions];
    rewrite ?length_insert, ?length_app; cbn [length].
  - apply Qltb_lt in Hlt.
    destruct (Qltb (entry_amount d - settle) 0.01) eqn:H1;
      destruct (Qltb (entry_amount c - settle) 0.01) eqn:H2;
      try (split; lia).
    apply Qltb_ge in H1, H2. exfalso. destruct Hmin; lra.
  - destruct (Qltb (entry_amount d) 0.01);
      destruct (Qltb (entry_amount c) 0.01); split; lia.
Qed.

(** X4.  The sweep emits fewer transactions than there are debtors and
    creditors together (none when either list is empty), hence fewer than
    there are players. *)
Theorem transactions_are_few (fuel : nat) (players : list Player)
    (balances : gmap Z Q) (txs : list Transaction) :
  computeTransactions fuel players balances = Returns txs ->
  (length txs
   <= Nat.pred (length (partition_players players balances).1.2
                + length (partition_players players balances).2))%nat
  /\ (length txs <= Nat.pred (length players))%nat.
Proof.
  unfold computeTransactions. intros Hrun.
  apply bind_returns in Hrun as (s & Hs & [= <-]).
  destruct (sweep_loop_invariant few_transactions few_transactions_body
              fuel (sweep_of players balances) s) as [[_ Hfew] _];
    [| done |].
  { rewrite sweep_of_eq. split; cbn; lia. }
  assert (length (sw_debtors s) = length (debtors_of players balances)
          /\ length (sw_creditors s) = length (creditors_of players balances))
    as [Hld Hlc].
  { destruct (sweep_loop_invariant
                (pays_across
                   (players_of (sort_desc (debtors_of players balances)))
                   (players_of (sort_desc (creditors_of players balances))))
                (pays_across_body _ _) fuel (sweep_of players balances) s)
      as [(Hd & Hc & _) _]; [| done |].
    { rewrite sweep_of_eq. by repeat split. }
    apply (f_equal length) in Hd, Hc. unfold players_of in Hd, Hc.
    rewrite !length_fmap, sort_desc_length in Hd, Hc. done. }
  rewrite partition_players_spec. cbn [fst snd].
  pose proof (partition_length players balances). lia.
Qed.

Lemma transactions_are_few_witness :
  computeTransactions 3 four_players four_balances = Returns four_transactions
  /\ (length four_transactions
      <= Nat.pred (length (partition_players four_players four_balances).1.2
                   + length (partition_players four_players four_balances).2))%nat
  /\ (length four_transactions <= Nat.pred (length four_players))%nat.
Proof.
  assert (computeTransactions 3 four_players four_balances
          = Returns four_transactions) as Hrun by (by vm_compute).
  split; [exact Hrun |].
  exact (transactions_are_few 3 four_players four_balances
           four_transactions Hrun).
Defined.

(** ** Who pays and who receives *)

(** X5.  On a roster with all names different a transaction leaves a
    player only if the player's balance is negative and reaches a player
    only if the player's balance is positive: who owes nothing pays
    nothing, who is owed nothing receives nothing. *)
Theorem debtors_pay_creditors_receive (fuel : nat) (players : list Player)
    (balances : gmap Z Q) (txs : list Transaction) (p : Player) :
  NoDup (player_name <$> players) ->
  p ∈ players ->
  computeTransactions fuel players balances = Returns txs ->
  Forall (fun t =>
            (tx_from t = player_name p -> balance_of balances p < 0)
            /\ (tx_to t = player_name p -> 0 < balance_of balances p)) txs.
Proof.
  intros Hnames Hp Hrun.
  eapply Forall_impl; [exact (computeTransactions_pays_across _ _ _ _ Hrun) |].
  intros t (d & c & Hd & Hc & Hneg & Hpos & Hfrom & Hto). cbv beta.
  split; intros Hname.
  - assert (d = p) as <-; [| done].
    apply (NoDup_names_inj players); [done .. |]. congruence.
  - assert (c = p) as <-; [| done].
    apply (NoDup_names_inj players); [done .. |]. congruence.
Qed.

Lemma debtors_pay_creditors_receive_witness :
  NoDup (player_name <$> four_players)
  /\ alice ∈ four_players
  /\ computeTransactions 3 four_players four_balances
     = Returns four_transactions
  /\ Forall (fun t =>
               (tx_from t = player_name alice
                -> balance_of four_balances alice < 0)
               /\ (tx_to t = player_name alice
                   -> 0 < balance_of four_balances alice))
            four_transactions.
Proof.
  assert (computeTransactions 3 four_players four_balances
          = Returns four_transactions) as Hrun by (by vm_compute).
  assert (alice ∈ four_players) as Hin by (by left).
  split; [exact four_names_differ |]. split; [exact Hin |].
  split; [exact Hrun |].
  exact (debtors_pay_creditors_receive 3 four_players four_balances
           four_transactions alice four_names_differ Hin Hrun).
Defined.


(** ** The sweep on any amounts, player by player *)














(** ** Settlement within a tolerance *)





(** * Courses and rounds *)

Lemma result_bind_ok {A B : Type} (m : result A) (k : A -> result B) (b : B) :
  result_bind m k = Ok b <-> exists a, m = Ok a /\ k a = Ok b.
Proof.
  destruct m; simpl; split; try (intros (a' & Ha & Hk)); try discriminate;
    eauto.
  congruence.
Qed.

Lemma get_course_found (courses : list Course) (id : Z) (c : Course) :
  get_course courses id = Ok c -> c ∈ courses /\ course_id c = id.
Proof.
  unfold get_course.
  destruct (List.find _ courses) as [c' |] eqn:E; [| done].
  intros [= <-]. apply find_some in E as [Hin Hid].
  split; [by apply list_elem_of_In | by apply Z.eqb_eq].
Qed.

Section Rounds.

Context {python : Builtins}.

(** One hole, by cases on what it ends up with. *)
Lemma score_hole_eq (form : Form) (course : Course) (player : Player)
    (hs : list Z) (tot : Z) (ent : bool) (i : nat) :
  score_hole form course player (hs, tot, ent) i =
  match hole_value form course player i with
  | Some sc =>
      Ok (hs ++ [sc], (tot + sc)%Z,
          ent || bool_decide (is_Some (hole_entry form player i)))
  | None =>
      Failed (if bool_decide (is_Some (hole_entry form player i))
              then ValueError else Exception IndexError)
  end.
Proof.
  unfold score_hole, hole_value, hole_entry,
    int_of.
  destruct (form_get form (score_key (player_id player) i)) as [v |];
    [destruct (negb (String.eqb (strip v) "")) |].
  - destruct (py_int v); simpl; [by rewrite orb_true_r | done].
  - destruct (course_pars course !! (i - 1)%nat); simpl;
      [by rewrite orb_false_r | done].
  - destruct (course_pars course !! (i - 1)%nat); simpl;
      [by rewrite orb_false_r | done].
Qed.

Lemma card_spec (form : Form) (course : Course) (player : Player)
    (holes : list nat) (hs hs' : list Z) (tot tot' : Z) (ent ent' : bool) :
  for_each (score_hole form course player) (hs, tot, ent) holes
  = Ok (hs', tot', ent') ->
  exists scores,
    Forall2 (fun i sc => hole_value form course player i = Some sc)
            holes scores
    /\ hs' = hs ++ scores
    /\ tot' = (tot + sum_Z scores)%Z
    /\ ent' = ent || existsb (fun i => bool_decide
                                (is_Some (hole_entry form player i))) holes.
Proof.
  revert hs tot ent. induction holes as [| i holes IH]; intros hs tot ent.
  - intros [= <- <- <-]. exists []. repeat split; try constructor.
    + by rewrite app_nil_r.
    + unfold sum_Z. cbn [foldr]. lia.
    + by rewrite orb_false_r.
  - cbn [for_each]. rewrite score_hole_eq.
    destruct (hole_value form course player i) as [sc |] eqn:Hv; [| done].
    cbn [result_bind]. intros Hrest.
    destruct (IH _ _ _ Hrest) as (scores & Hall & -> & -> & ->).
    exists (sc :: scores). split; [by constructor |].
    split; [by rewrite <- app_assoc |].
    split; [unfold sum_Z; cbn [foldr]; lia |].
    cbn [existsb]. by rewrite orb_assoc.
Qed.


(** A pass that fails on a missing par. *)
Lemma card_index_error (form : Form) (course : Course) (player : Player)
    (holes : list nat) (acc : list Z * Z * bool) :
  for_each (score_hole form course player) acc holes
  = Failed (Exception IndexError) ->
  exists i, i ∈ holes /\ course_pars course !! (i - 1)%nat = None.
Proof.
  revert acc. induction holes as [| i holes IH]; intros [[hs tot] ent];
    [done |].
  cbn [for_each]. rewrite score_hole_eq.
  destruct (hole_value form course player i) as [sc |] eqn:Hv.
  - cbn [result_bind]. intros Hrest.
    destruct (IH _ Hrest) as (j & Hj & Hnone). exists j. split; [by right | done].
  - cbn [result_bind].
    destruct (bool_decide (is_Some (hole_entry form player i))) eqn:He;
      [done |].
    intros _. exists i. split; [by left |].
    unfold hole_value in Hv.
    apply bool_decide_eq_false in He.
    destruct (hole_entry form player i);
      [exfalso; apply He; eauto | done].
Qed.

(** What one player adds to the rows. *)
Lemma score_player_spec (form : Form) (course : Course) (rid : Z)
    (rows rows' : list ScoreRow) (player : Player) :
  score_player form course rid rows player = Ok rows' ->
  exists scores,
    Forall2 (fun i sc => hole_value form course player i = Some sc)
            (seq 1 18) scores
    /\ rows' = if has_entry form player
               then rows ++ [mkScoreRow rid (player_id player) scores
                               (sum_Z scores)]
               else rows.
Proof.
  unfold score_player. intros Hrun.
  apply result_bind_ok in Hrun as ([[hs tot] ent] & Hcard & [= <-]).
  destruct (card_spec _ _ _ _ _ _ _ _ _ _ Hcard)
    as (scores & Hall & -> & -> & ->).
  exists scores. split; [done |].
  unfold has_entry. cbn [orb app]. by rewrite Z.add_0_l.
Qed.

Lemma score_rows_spec (form : Form) (course : Course) (rid : Z)
    (roster players : list Player) (rows rows' : list ScoreRow) :
  (forall p, p ∈ players -> p ∈ roster) ->
  for_each (score_player form course rid) rows players = Ok rows' ->
  score_player_id <$> rows'
  = (score_player_id <$> rows)
    ++ (player_id <$> List.filter (has_entry form) players)
  /\ (Forall (scorecard_of form course rid roster) rows ->
      Forall (scorecard_of form course rid roster) rows').
Proof.
  revert rows. induction players as [| p players IH]; intros rows Hsub.
  - intros [= <-]. cbn. by rewrite app_nil_r.
  - cbn [for_each]. intros Hrun.
    apply result_bind_ok in Hrun as (rows1 & Hp & Hrest).
    destruct (score_player_spec _ _ _ _ _ _ Hp) as (scores & Hall & ->).
    destruct (IH _ (fun q Hq => Hsub q (list_elem_of_further _ _ _ Hq)) Hrest)
      as [Hids Hcards].
    cbn [List.filter].
    destruct (has_entry form p) eqn:Hentry.
    + split.
      * rewrite Hids, fmap_app, fmap_cons. cbn. by rewrite <- app_assoc.
      * intros Hrows. apply Hcards, Forall_app. split; [done |].
        constructor; [| constructor].
        exists p. cbn.
        split; [apply Hsub; by left |]. split; [done |].
        split; [done |]. split; [done |].
        split; [by rewrite <- (Forall2_length _ _ _ Hall) |]. done.
    + done.
Qed.

(** X8.  Every score row [log_round] commits belongs to a player of the
    roster who entered a score and to the new round; it has 18 hole
    scores, each the entry for that hole read as an integer, or the par of
    the hole where the entry is missing or blank, and its total is the sum
    of the 18. *)
Theorem logged_scorecards (courses : list Course) (players : list Player)
    (id rid : Z) (form : Form) (r : reply) (round : RoundRow)
    (rows : list ScoreRow) :
  log_round courses players id rid form = Ok (r, (round, rows)) ->
  exists course,
    get_course courses id = Ok course
    /\ round = mkRoundRow rid id (form_get form "round_notes")
    /\ Forall
         (fun row =>
            exists player,
              player ∈ players
              /\ has_entry form player = true
              /\ score_player_id row = player_id player
              /\ score_round_id row = rid
              /\ length (score_hole_scores row) = 18%nat
              /\ score_total row = sum_Z (score_hole_scores row)
              /\ Forall2
                   (fun i sc => hole_value form course player i = Some sc)
                   (seq 1 18) (score_hole_scores row))
         rows.
Proof.
  unfold log_round. intros Hrun.
  apply result_bind_ok in Hrun as (course & Hc & Hrun).
  apply result_bind_ok in Hrun as (rows1 & Hrows & [= <- <- <-]).
  exists course. split; [done |].
  destruct (get_course_found _ _ _ Hc) as [_ ->]. split; [done |].
  destruct (score_rows_spec form course rid players players [] rows1
              (fun p Hp => Hp) Hrows) as [_ Hcards].
  apply Hcards. constructor.
Qed.

(** X9.  [log_round] commits one score row for each player of the roster
    who entered a score for at least one hole, in the order of the roster,
    and none for the others. *)
Theorem logged_players (courses : list Course) (players : list Player)
    (id rid : Z) (form : Form) (r : reply) (round : RoundRow)
    (rows : list ScoreRow) :
  log_round courses players id rid form = Ok (r, (round, rows)) ->
  score_player_id <$> rows
  = player_id <$> List.filter (has_entry form) players.
Proof.
  unfold log_round. intros Hrun.
  apply result_bind_ok in Hrun as (course & Hc & Hrun).
  apply result_bind_ok in Hrun as (rows1 & Hrows & [= <- <- <-]).
  by destruct (score_rows_spec form course rid players players [] rows1
                 (fun p Hp => Hp) Hrows) as [-> _].
Qed.


Lemma score_rows_index_error (form : Form) (course : Course) (rid : Z)
    (players : list Player) (rows : list ScoreRow) :
  for_each (score_player form course rid) rows players
  = Failed (Exception IndexError) ->
  exists i, i ∈ seq 1 18 /\ course_pars course !! (i - 1)%nat = None.
Proof.
  revert rows. induction players as [| p players IH]; intros rows; [done |].
  cbn [for_each]. unfold score_player at 1.
  destruct (for_each (score_hole form course p) ([], 0%Z, false) (seq 1 18))
    as [[[hs tot] ent] | f] eqn:Hcard; cbn [result_bind].
  - apply IH.
  - intros [= ->]. by apply card_index_error in Hcard.
Qed.


End Rounds.

Section CourseTable.

Context {python : Builtins}.

Lemma map_each_spec {A B : Type} (f : A -> result B) (l : list A)
    (l' : list B) :
  map_each f l = Ok l' -> Forall2 (fun x y => f x = Ok y) l l'.
Proof.
  revert l'. induction l as [| x l IH]; intros l'.
  - intros [= <-]. constructor.
  - cbn [map_each]. intros Hrun.
    apply result_bind_ok in Hrun as (y & Hy & Hrun).
    apply result_bind_ok in Hrun as (ys & Hys & [= <-]).
    constructor; [done | by apply IH].
Qed.

Lemma parse_pars_spec (pars_str : string) (pars : list Z) :
  parse_pars pars_str = Ok pars ->
  length pars = 18%nat
  /\ Forall2 (fun field par => py_int (strip field) = Some par)
             (List.filter filled (split_on comma pars_str)) pars.
Proof.
  unfold parse_pars. intros Hrun.
  apply result_bind_ok in Hrun as (l & Hl & Hlen).
  destruct (Nat.eqb_spec (length l) 18) as [Heq |]; [| done].
  injection Hlen as <-. split; [done |].
  eapply Forall2_impl; [exact (map_each_spec _ _ _ Hl) |].
  intros field par. unfold int_of.
  destruct (py_int (strip field)); [congruence | done].
Qed.

Lemma parse_pars_fails (pars_str : string) (f : failure) :
  parse_pars pars_str = Failed f -> f = ValueError.
Proof.
  unfold parse_pars.
  assert (forall l f', map_each (fun p => int_of (strip p)) l = Failed f' ->
                       f' = ValueError) as Hmap.
  { induction l as [| x l IH]; intros f'; [done |].
    cbn [map_each]. unfold int_of at 1.
    destruct (py_int (strip x)); cbn [result_bind]; [| congruence].
    destruct (map_each _ l) eqn:E; cbn [result_bind]; [done |].
    intros [= <-]. by apply IH. }
  destruct (map_each _ _) as [l | f'] eqn:E; cbn [result_bind].
  - destruct (Nat.eqb (length l) 18); congruence.
  - intros [= <-]. by apply (Hmap _ _ E).
Qed.

(** X11.  [add_course] adds a course only when the pars field, cut at the
    commas and cleared of blank fields, leaves exactly 18 fields that all
    read as integers, and under a name no course has yet; the course added
    has those 18 pars in order.  When the pars are rejected the form is
    shown again with an error and the table is as before. *)
Theorem add_course_needs_eighteen_pars (courses courses' : list Course)
    (new_id : Z) (form : Form) (r : reply) :
  add_course courses new_id form = Ok (r, courses') ->
  (r = Render "add_course.html" true /\ courses' = courses)
  \/ (r = Redirect "courses"
      /\ exists name pars_str pars,
           form_get form "name" = Some name
           /\ form_get form "pars" = Some pars_str
           /\ (name ∉ (course_name <$> courses))
           /\ length pars = 18%nat
           /\ Forall2 (fun field par => py_int (strip field) = Some par)
                (List.filter filled (split_on comma pars_str)) pars
           /\ courses' = courses ++ [mkCourse new_id name pars]).
Proof.
  unfold add_course, form_item. intros Hrun.
  destruct (form_get form "name") as [name |]; [| done].
  destruct (form_get form "pars") as [pars_str |]; [| done].
  cbn [result_bind] in Hrun.
  destruct (parse_pars pars_str) as [pars | f] eqn:Hparse.
  - destruct (existsb _ courses) eqn:Hdup; [done |].
    injection Hrun as <- <-. right. split; [done |].
    destruct (parse_pars_spec _ _ Hparse) as [Hlen Hall].
    exists name, pars_str, pars. repeat split; try done.
    intros Hin. apply list_elem_of_fmap in Hin as (c & -> & Hc).
    apply not_true_iff_false in Hdup. apply Hdup.
    apply existsb_exists. exists c.
    split; [by apply list_elem_of_In | apply String.eqb_refl].
  - rewrite (parse_pars_fails _ _ Hparse) in Hrun.
    injection Hrun as <- <-. by left.
Qed.

Lemma edit_course_keeps_pars (courses : list Course) (id : Z)
    (name : string) (pars : list Z) :
  eighteen_pars courses -> length pars = 18%nat ->
  eighteen_pars
    ((fun c => if Z.eqb (course_id c) id
               then mkCourse (course_id c) name pars else c) <$> courses).
Proof.
  intros Hall Hlen. unfold eighteen_pars in *. apply Forall_fmap.
  eapply Forall_impl; [exact Hall |].
  intros c Hc. unfold compose. by destruct (Z.eqb (course_id c) id).
Qed.

(** X12.  When every course of the table has 18 pars, it is still so after
    [add_course], [edit_course] and [delete_course], whatever the form and
    whether the request succeeds or not; and [log_round] then never fails
    on a missing par. *)
Theorem courses_keep_eighteen_pars (courses : list Course)
    (players : list Player) (id rid : Z) (form : Form) :
  eighteen_pars courses ->
  eighteen_pars (table_after courses (add_course courses id form))
  /\ eighteen_pars (table_after courses (edit_course courses id form))
  /\ eighteen_pars (table_after courses (delete_course courses id))
  /\ log_round courses players id rid form <> Failed (Exception IndexError).
Proof.
  intros Hall. split; [| split; [| split]].
  - unfold add_course, form_item.
    destruct (form_get form "name") as [name |]; [| done].
    destruct (form_get form "pars") as [pars_str |]; [| done].
    cbn [result_bind].
    destruct (parse_pars pars_str) as [pars | f] eqn:Hparse.
    + destruct (existsb _ courses); [done |]. cbn [table_after].
      apply Forall_app. split; [done |].
      constructor; [| constructor].
      by destruct (parse_pars_spec _ _ Hparse).
    + by rewrite (parse_pars_fails _ _ Hparse).
  - unfold edit_course, form_item.
    destruct (get_course courses id) as [c |]; [| done]. cbn [result_bind].
    destruct (form_get form "name") as [name |]; [| done].
    destruct (form_get form "pars") as [pars_str |]; [| done].
    cbn [result_bind].
    destruct (parse_pars pars_str) as [pars | f] eqn:Hparse.
    + destruct (existsb _ courses); [done |]. cbn [table_after].
      apply edit_course_keeps_pars; [done |].
      by destruct (parse_pars_spec _ _ Hparse).
    + by rewrite (parse_pars_fails _ _ Hparse).
  - unfold delete_course.
    destruct (get_course courses id) as [c |]; [| done].
    cbn [result_bind table_after]. unfold eighteen_pars in *.
    apply Forall_forall. intros c' Hc'.
    apply list_elem_of_In, filter_In in Hc' as [Hin _].
    rewrite Forall_forall in Hall. by apply Hall, list_elem_of_In.
  - unfold log_round. intros Hrun.
    destruct (get_course courses id) as [c | f0] eqn:Hc;
      cbn [result_bind] in Hrun.
    2: { unfold get_course in Hc. destruct (List.find _ courses); congruence. }
    destruct (for_each _ [] players) as [rows | f] eqn:Hrows;
      cbn [result_bind] in Hrun; [congruence |].
    injection Hrun as ->.
    destruct (score_rows_index_error _ _ _ _ _ Hrows) as (i & Hi & Hnone).
    apply elem_of_seq in Hi. apply lookup_ge_None in Hnone.
    destruct (get_course_found _ _ _ Hc) as [Hin _].
    unfold eighteen_pars in Hall. rewrite Forall_forall in Hall.
    specialize (Hall c Hin). lia.
Qed.

End CourseTable.

(** * Matches and standings *)

Lemma py_sum_acc (a : Q) (l : list Q) :
  foldl Qplus a l == a + foldr Qplus 0 l.
Proof.
  revert a. induction l as [| x l IH]; intros a; cbn [foldl foldr].
  - ring.
  - rewrite IH. ring.
Qed.

Lemma py_sum_cons (x : Q) (l : list Q) : py_sum (x :: l) == x + py_sum l.
Proof.
  unfold py_sum. cbn [foldl]. rewrite !py_sum_acc. cbn [foldr]. ring.
Qed.

Lemma or_0_value (p : option Q) : or_0 p == default 0 p.
Proof.
  destruct p as [q |]; [| reflexivity]. cbn.
  destruct (Qeq_bool q 0) eqn:E; [| reflexivity].
  symmetry. by apply Qeq_bool_eq.
Qed.

Section Standings.

Context {python : Builtins}.

(** The points a column adds up to over the completed matches. *)
Lemma points_cons (column : Match -> option Q) (m : Match)
    (l : list Match) :
  py_sum (or_0 <$> (column <$> List.filter completed (m :: l)))
  == (if completed m then default 0 (column m) else 0)
     + py_sum (or_0 <$> (column <$> List.filter completed l)).
Proof.
  cbn [List.filter]. destruct (completed m).
  - rewrite !fmap_cons, py_sum_cons, or_0_value. reflexivity.
  - ring.
Qed.

Lemma points_perm (column : Match -> option Q) (l l' : list Match) :
  l ≡ₚ l' ->
  py_sum (or_0 <$> (column <$> List.filter completed l))
  == py_sum (or_0 <$> (column <$> List.filter completed l')).
Proof.
  induction 1 as [| m l l' _ IH | m m' l | l l' l'' _ IH1 _ IH2].
  - reflexivity.
  - by rewrite !points_cons, IH.
  - rewrite !points_cons. ring.
  - by rewrite IH1.
Qed.

(** X13.  The home page, the matches page and [api_standings] show the
    same points for both teams: summing over the completed matches of a
    list queried in any order is summing over the matches the query has
    filtered by status. *)
Theorem standings_agree (table matches_list : list Match) :
  matches_list ≡ₚ table ->
  (page_standings matches_list).1 == (api_standings table).1.1
  /\ (page_standings matches_list).2 == (api_standings table).1.2.
Proof.
  intros Hperm. unfold page_standings, api_standings. cbn [fst snd].
  split; by apply points_perm.
Qed.

Lemma get_match_found (table : list Match) (id : Z) (m : Match) :
  get_match table id = Ok m -> m ∈ table.
Proof.
  unfold get_match.
  destruct (List.find _ table) as [m' |] eqn:E; [| done].
  intros [= <-]. apply find_some in E as [Hin _].
  by apply list_elem_of_In.
Qed.

Lemma with_result_scored (m : Match) (form : Form) :
  scored m -> scored (with_result m form).
Proof.
  intros Hm. unfold with_result.
  destruct (form_get form "result") as [r |]; [| exact Hm].
  destruct (String.eqb r "team1");
    [right; exists 1, 0; repeat split; by vm_compute |].
  destruct (String.eqb r "team2");
    [right; exists 0, 1; repeat split; by vm_compute |].
  destruct (String.eqb r "halved");
    [right; exists 0.5, 0.5; repeat split; by vm_compute |].
  exact Hm.
Qed.

Lemma serve_match_scored (table : list Match) (request : match_request) :
  Forall scored table -> Forall scored (serve_match table request).
Proof.
  intros Hall. destruct request as [new_id form | id form | id];
    cbn [serve_match].
  - unfold create_match, form_item.
    destruct (form_get form "format"); [| done].
    destruct (form_get form "date") as [d |]; [| done]. cbn [result_bind].
    destruct (date_of d); [| done]. cbn [result_bind].
    destruct (map_each int_of (form_getlist form "team1_players"));
      [| done]. cbn [result_bind].
    destruct (map_each int_of (form_getlist form "team2_players"));
      [| done]. cbn [result_bind table_after].
    apply Forall_app. split; [done |]. constructor; [| constructor].
    by left.
  - unfold edit_match, form_item.
    destruct (get_match table id) as [m |] eqn:Hm; [| done].
    cbn [result_bind].
    destruct (form_get form "format"); [| done].
    destruct (form_get form "date") as [d |]; [| done]. cbn [result_bind].
    destruct (date_of d); [| done]. cbn [result_bind].
    destruct (map_each int_of (form_getlist form "team1_players"));
      [| done]. cbn [result_bind].
    destruct (map_each int_of (form_getlist form "team2_players"));
      [| done]. cbn [result_bind].
    destruct (form_get form "status") as [status |]; [| done].
    cbn [result_bind table_after].
    assert (scored m) as Hscored.
    { rewrite Forall_forall in Hall. by apply Hall, get_match_found with id. }
    apply Forall_fmap. eapply Forall_impl; [exact Hall |].
    intros row Hrow. unfold compose.
    destruct (Z.eqb (match_id row) id); [| done].
    destruct (String.eqb status "completed"); [| exact Hscored].
    apply with_result_scored. exact Hscored.
  - unfold delete_match.
    destruct (get_match table id) as [m |]; [| done].
    cbn [result_bind table_after].
    apply Forall_forall. intros row Hrow.
    apply list_elem_of_In, filter_In in Hrow as [Hin _].
    rewrite Forall_forall in Hall. by apply Hall, list_elem_of_In.
Qed.

Lemma serve_matches_scored (requests : list match_request) :
  Forall scored (serve_matches requests).
Proof.
  unfold serve_matches.
  assert (forall table, Forall scored table ->
                        Forall scored (foldl serve_match table requests))
    as Hgen.
  { induction requests as [| request requests IH]; intros table Htable;
      [done |].
    cbn [foldl]. by apply IH, serve_match_scored. }
  apply Hgen. constructor.
Qed.

Lemma scored_standings (table : list Match) :
  Forall scored table ->
  0 <= (api_standings table).1.1
  /\ 0 <= (api_standings table).1.2
  /\ (api_standings table).1.1 + (api_standings table).1.2
     == inject_Z (Z.of_nat (length (List.filter decided table)))
  /\ (length (List.filter decided table) <= (api_standings table).2)%nat.
Proof.
  unfold api_standings. cbn [fst snd].
  induction 1 as [| m table Hm _ (IH1 & IH2 & IH3 & IH4)].
  - cbn. repeat split; by vm_compute.
  - rewrite !points_cons. cbn [List.filter length].
    destruct Hm as [[H1 H2] | (a & b & H1 & H2 & Ha & Hb & Hab)].
    + assert (decided m = false) as ->.
      { unfold decided. rewrite H1. rewrite bool_decide_eq_false_2.
        - apply andb_false_r.
        - by intros [? ?]. }
      rewrite H1, H2. cbn [default id].
      destruct (completed m); cbn [length]; repeat split; try lra; lia.
    + assert (decided m = completed m) as ->.
      { unfold decided. rewrite H1. rewrite bool_decide_eq_true_2 by eauto.
        apply andb_true_r. }
      rewrite H1, H2. cbn [default id].
      destruct (completed m); cbn [length].
      * rewrite Nat2Z.inj_succ. unfold Z.succ.
        rewrite inject_Z_plus. change (inject_Z 1) with 1.
        repeat split; try lra; lia.
      * repeat split; try lra; lia.
Qed.

(** X14.  Whatever matches have been created, edited and deleted since the
    table was empty, the standings [api_standings] reports are sound: no
    team has negative points, the points of the two teams together are the
    number of completed matches that have a result, and so never exceed
    [matches_played]. *)
Theorem standings_count_decided_matches (requests : list match_request) :
  0 <= (api_standings (serve_matches requests)).1.1
  /\ 0 <= (api_standings (serve_matches requests)).1.2
  /\ (api_standings (serve_matches requests)).1.1
     + (api_standings (serve_matches requests)).1.2
     == inject_Z (Z.of_nat
                    (length (List.filter decided (serve_matches requests))))
  /\ (api_standings (serve_matches requests)).1.1
     + (api_standings (serve_matches requests)).1.2
     <= inject_Z (Z.of_nat (api_standings (serve_matches requests)).2).
Proof.
  destruct (scored_standings _ (serve_matches_scored requests))
    as (H1 & H2 & H3 & H4).
  split; [done |]. split; [done |]. split; [done |].
  rewrite H3. rewrite <- Zle_Qle. lia.
Qed.

End Standings.

(** * The schedule page *)

Lemma for_each_snoc {A B : Type} (body : A -> B -> result A) (a : A)
    (l : list B) (x : B) :
  for_each body a (l ++ [x]) = (a' <- for_each body a l ;;; body a' x).
Proof.
  revert a. induction l as [| y l IH]; intros a; cbn [for_each app].
  - cbn [result_bind]. by destruct (body a x).
  - destruct (body a y) as [a' | f]; cbn [result_bind]; [apply IH | done].
Qed.

Lemma dict_getitem_setitem {V : Type} (d : Dict V) (key key' : string)
    (v : V) :
  dict_getitem (dict_setitem d key v) key'
  = if String.eqb key key' then Ok v else dict_getitem d key'.
Proof.
  induction d as [| [k v0] d IH]; cbn [dict_setitem dict_getitem].
  - by destruct (String.eqb key key').
  - destruct (String.eqb_spec k key) as [-> | Hk]; cbn [dict_getitem].
    + by destruct (String.eqb key key').
    + destruct (String.eqb_spec k key') as [-> | Hk'].
      * destruct (String.eqb_spec key key'); [congruence | done].
      * apply IH.
Qed.

Lemma dict_contains_getitem {V : Type} (d : Dict V) (key : string) :
  dict_contains d key = false <-> dict_getitem d key = Failed KeyError.
Proof.
  unfold dict_contains.
  induction d as [| [k v] d IH]; cbn [existsb dict_getitem fst]; [done |].
  destruct (String.eqb k key); cbn [orb]; [split; discriminate | done].
Qed.

Lemma dict_contains_keys {V : Type} (d : Dict V) (key : string) :
  dict_contains d key = true <-> key ∈ d.*1.
Proof.
  unfold dict_contains. rewrite existsb_exists. split.
  - intros ([k v] & Hin & Heq). apply String.eqb_eq in Heq. cbn in Heq.
    subst k. apply list_elem_of_fmap. exists (key, v).
    split; [done | by apply list_elem_of_In].
  - intros Hin. apply list_elem_of_fmap in Hin as ([k v] & -> & Hin).
    exists (k, v). split; [by apply list_elem_of_In | apply String.eqb_refl].
Qed.

Lemma dict_setitem_app {V : Type} (d d' : Dict V) (key : string) (v : V) :
  dict_contains d key = false ->
  dict_setitem (d ++ d') key v = d ++ dict_setitem d' key v.
Proof.
  unfold dict_contains.
  induction d as [| [k v0] d IH]; cbn [existsb app dict_setitem fst];
    [done |].
  destruct (String.eqb k key); cbn [orb]; [done |].
  intros Hd. by rewrite IH.
Qed.

Lemma dict_getitem_app {V : Type} (d d' : Dict V) (key : string) :
  dict_contains d key = false ->
  dict_getitem (d ++ d') key = dict_getitem d' key.
Proof.
  unfold dict_contains.
  induction d as [| [k v0] d IH]; cbn [existsb app dict_getitem fst];
    [done |].
  destruct (String.eqb k key); cbn [orb]; [done | exact IH].
Qed.

Lemma dict_setitem_new {V : Type} (d : Dict V) (key : string) (v : V) :
  dict_contains d key = false -> dict_setitem d key v = d ++ [(key, v)].
Proof.
  intros Hd. rewrite <- (app_nil_r d) at 1. by rewrite dict_setitem_app.
Qed.

Lemma dict_setitem_keys {V : Type} (d : Dict V) (key : string) (v : V) :
  dict_contains d key = true -> (dict_setitem d key v).*1 = d.*1.
Proof.
  unfold dict_contains.
  induction d as [| [k v0] d IH]; cbn [existsb dict_setitem fst]; [done |].
  destruct (String.eqb k key) eqn:Hk; cbn [orb]; [done |].
  intros Hd. rewrite !fmap_cons. by rewrite IH.
Qed.

Lemma dict_getitem_elem {V : Type} (d : Dict V) (key : string) (v : V) :
  NoDup d.*1 -> (key, v) ∈ d <-> dict_getitem d key = Ok v.
Proof.
  induction d as [| [k v0] d IH]; cbn [dict_getitem].
  - intros _. split; [by intros ?%elem_of_nil | done].
  - rewrite fmap_cons. cbn [fst]. intros [Hk Hd]%NoDup_cons.
    rewrite elem_of_cons, (IH Hd).
    destruct (String.eqb_spec k key) as [-> | Hne].
    + split.
      * intros [[= ->] | Hget]; [done |].
        exfalso. apply Hk, dict_contains_keys.
        destruct (dict_contains d key) eqn:E; [done |].
        apply dict_contains_getitem in E. congruence.
      * intros [= ->]. by left.
    + split; [| by right]. intros [[= ? ?] | Hget]; [congruence | done].
Qed.

Lemma existsb_eqb (key : string) (keys : list string) :
  existsb (String.eqb key) keys = true <-> key ∈ keys.
Proof.
  rewrite existsb_exists. split.
  - intros (k & Hin & ->%String.eqb_eq). by apply list_elem_of_In.
  - intros Hin. exists key.
    split; [by apply list_elem_of_In | apply String.eqb_refl].
Qed.

Lemma later_days_snoc (key x y : string) (keys : list string) :
  y ∈ later_days key keys -> y ∈ later_days key (keys ++ [x]).
Proof.
  induction keys as [| k keys IH]; cbn [later_days app].
  - by intros ?%elem_of_nil.
  - destruct (String.eqb key k); [exact IH |].
    intros Hy. rewrite app_comm_cons. apply elem_of_app. by left.
Qed.

(** A list whose days are adjacent, seen from its end: the last day is
    new, or it is the day of the event before. *)
Lemma days_adjacent_snoc (keys : list string) (x : string) :
  days_adjacent (keys ++ [x]) = true ->
  days_adjacent keys = true /\ (x ∈ keys -> last keys = Some x).
Proof.
  induction keys as [| k keys IH]; cbn [days_adjacent app].
  - intros _. split; [done | by intros ?%elem_of_nil].
  - intros [Hk Hrest]%andb_true_iff. apply negb_true_iff in Hk.
    destruct (IH Hrest) as [Hadj Hlast]. split.
    + rewrite Hadj, andb_true_r. apply negb_true_iff.
      destruct (existsb (String.eqb k) (later_days k keys)) eqn:E; [| done].
      apply existsb_eqb in E. apply (later_days_snoc _ x) in E.
      apply existsb_eqb in E. congruence.
    + intros Hx. destruct keys as [| r keys]; cbn [last].
      * apply list_elem_of_singleton in Hx. by subst.
      * destruct (decide (x ∈ r :: keys)) as [Hin | Hnotin];
          [by apply Hlast |].
        apply elem_of_cons in Hx as [-> | Hx]; [| done].
        exfalso. cbn [later_days app] in Hk.
        destruct (String.eqb_spec k r) as [-> | Hne].
        -- apply Hnotin. by left.
        -- assert (existsb (String.eqb k) (r :: keys ++ [k]) = true) as E.
           { apply existsb_eqb. rewrite app_comm_cons.
             apply elem_of_app. right. by apply list_elem_of_singleton. }
           congruence.
Qed.

Section SchedulePage.

Context {python : Builtins}.

Lemma events_on_snoc (key : string) (events : list ScheduleEvent)
    (event : ScheduleEvent) :
  events_on key (events ++ [event])
  = events_on key events
    ++ (if String.eqb (date_key event) key then [event] else []).
Proof.
  unfold events_on. rewrite List.filter_app. cbn [List.filter].
  by destruct (String.eqb (date_key event) key).
Qed.

Lemma group_event_grouped (events : list ScheduleEvent)
    (d : Dict (list ScheduleEvent)) (event : ScheduleEvent) :
  grouped events d ->
  exists d', group_event d event = Ok d' /\ grouped (events ++ [event]) d'.
Proof.
  intros [Hnodup Hget]. unfold group_event.
  destruct (dict_contains d (date_key event)) eqn:Hin; cbn [negb].
  - destruct (dict_getitem d (date_key event)) as [day | f] eqn:Hday.
    2: { assert (dict_getitem d (date_key event) = Failed KeyError) as E.
         { rewrite Hget in Hday |- *.
           destruct (events_on _ events); congruence. }
         apply dict_contains_getitem in E. congruence. }
    cbn [result_bind]. eexists. split; [done |]. split.
    + by rewrite dict_setitem_keys.
    + intros key. rewrite dict_getitem_setitem, events_on_snoc.
      destruct (String.eqb_spec (date_key event) key) as [<- | Hne].
      * rewrite Hget in Hday.
        destruct (events_on (date_key event) events) as [| e day'];
          [done |].
        injection Hday as <-. done.
      * rewrite app_nil_r. apply Hget.
  - rewrite dict_getitem_setitem, String.eqb_refl. cbn [result_bind app].
    eexists. split; [done |]. split.
    + rewrite (dict_setitem_new d) by done.
      rewrite dict_setitem_app by done. cbn [dict_setitem].
      rewrite String.eqb_refl.
      rewrite fmap_app. cbn [fmap list_fmap fst].
      apply NoDup_app. split; [done |]. split; [| apply NoDup_singleton].
      intros key Hkey ->%list_elem_of_singleton.
      apply dict_contains_keys in Hkey. congruence.
    + intros key. rewrite !dict_getitem_setitem, events_on_snoc.
      destruct (String.eqb_spec (date_key event) key) as [<- | Hne].
      * apply dict_contains_getitem in Hin. rewrite Hget in Hin.
        by destruct (events_on (date_key event) events).
      * rewrite app_nil_r. apply Hget.
Qed.

Lemma schedule_grouped (events : list ScheduleEvent) :
  exists d, schedule events = Ok d /\ grouped events d.
Proof.
  unfold schedule. induction events as [| event events IH] using rev_ind.
  - exists []. split; [done |]. split; [constructor | done].
  - destruct IH as (d & Hrun & Hd).
    destruct (group_event_grouped _ _ event Hd) as (d' & Hstep & Hd').
    exists d'. split; [| done].
    by rewrite for_each_snoc, Hrun.
Qed.

(** X15.  [schedule] never raises, and the [events_by_date] it gives the
    template has one item for each date that has an event and no other:
    the item of a date holds the events of that date, all of them and in
    the order of the query, so no list is empty and every event is in the
    list of its date and in no other. *)
Theorem schedule_groups_by_date (events : list ScheduleEvent) :
  exists events_by_date,
    schedule events = Ok events_by_date
    /\ NoDup events_by_date.*1
    /\ (forall key day,
          (key, day) ∈ events_by_date
          <-> day = events_on key events /\ day <> [])
    /\ (forall event,
          event ∈ events ->
          exists day,
            (date_key event, day) ∈ events_by_date /\ event ∈ day).
Proof.
  destruct (schedule_grouped events) as (d & Hrun & Hnodup & Hget).
  exists d. split; [done |]. split; [done |].
  assert (forall key day,
            (key, day) ∈ d <-> day = events_on key events /\ day <> [])
    as Hitems.
  { intros key day. rewrite (dict_getitem_elem _ _ _ Hnodup), Hget.
    destruct (events_on key events) as [| e rest].
    - split; [done | by intros [-> ?]].
    - split; [by intros [= <-] | by intros [-> _]]. }
  split; [exact Hitems |].
  intros event Hin. exists (events_on (date_key event) events).
  assert (event ∈ events_on (date_key event) events) as Hday.
  { unfold events_on. apply list_elem_of_In, filter_In.
    split; [by apply list_elem_of_In | apply String.eqb_refl]. }
  split; [| done]. apply Hitems. split; [done |].
  intros E. rewrite E in Hday. by apply elem_of_nil in Hday.
Qed.

Lemma group_event_in_order (events : list ScheduleEvent)
    (d d' : Dict (list ScheduleEvent)) (event : ScheduleEvent) :
  grouped events d ->
  concat d.*2 = events ->
  (forall e, last events = Some e ->
             exists d0 day, d = d0 ++ [(date_key e, day)]) ->
  days_adjacent (date_key <$> (events ++ [event])) = true ->
  group_event d event = Ok d' ->
  concat d'.*2 = events ++ [event]
  /\ exists d0 day, d' = d0 ++ [(date_key event, day)].
Proof.
  intros [Hnodup Hget] Hconcat Hlast Hadj. unfold group_event.
  rewrite fmap_app in Hadj. cbn [fmap list_fmap] in Hadj.
  apply days_adjacent_snoc in Hadj as [_ Hback].
  destruct (dict_contains d (date_key event)) eqn:Hin; cbn [negb].
  - assert (events_on (date_key event) events <> []) as Hday.
    { intros E. specialize (Hget (date_key event)). rewrite E in Hget.
      apply dict_contains_getitem in Hget. congruence. }
    assert (date_key event ∈ date_key <$> events) as Hseen.
    { destruct (events_on (date_key event) events) as [| e day] eqn:E;
        [done |].
      assert (In e (events_on (date_key event) events)) as He
        by (rewrite E; by left).
      apply filter_In in He as [He Hkey]. apply String.eqb_eq in Hkey.
      rewrite <- Hkey. apply list_elem_of_fmap. exists e.
      split; [done | by apply list_elem_of_In]. }
    specialize (Hback Hseen). rewrite fmap_last in Hback.
    destruct (last events) as [e |] eqn:He; [| done].
    injection Hback as Hkey.
    destruct (Hlast e eq_refl) as (d0 & day & ->). rewrite Hkey in *.
    assert (dict_contains d0 (date_key event) = false) as Hd0.
    { destruct (dict_contains d0 (date_key event)) eqn:E; [| done].
      apply dict_contains_keys in E.
      rewrite fmap_app in Hnodup. apply NoDup_app in Hnodup as (_ & Hno & _).
      exfalso. apply (Hno _ E). cbn. by left. }
    rewrite dict_getitem_app by done. cbn [dict_getitem].
    rewrite String.eqb_refl. cbn [result_bind]. intros [= <-].
    rewrite dict_setitem_app by done. cbn [dict_setitem].
    rewrite String.eqb_refl. split; [| by eauto].
    rewrite fmap_app, concat_app in Hconcat |- *.
    cbn [fmap list_fmap snd concat] in Hconcat |- *.
    rewrite app_nil_r in Hconcat |- *. rewrite <- Hconcat.
    by rewrite app_assoc.
  - rewrite dict_getitem_setitem, String.eqb_refl. cbn [result_bind app].
    intros [= <-]. rewrite (dict_setitem_new d) by done.
    rewrite dict_setitem_app by done. cbn [dict_setitem].
    rewrite String.eqb_refl. split; [| by eauto].
    rewrite fmap_app, concat_app. cbn [fmap list_fmap snd concat].
    by rewrite app_nil_r, Hconcat.
Qed.

(** X16.  When the events of one date are next to each other in the list,
    as they are in a query ordered by [event_date], reading
    [events_by_date] item by item gives the events back in the order of
    the query: the days come in the order of the list. *)
Theorem schedule_keeps_order (events : list ScheduleEvent) :
  days_adjacent (date_key <$> events) = true ->
  exists events_by_date,
    schedule events = Ok events_by_date
    /\ concat events_by_date.*2 = events.
Proof.
  intros Hadj.
  assert (exists d,
            schedule events = Ok d
            /\ grouped events d
            /\ concat d.*2 = events
            /\ (forall e, last events = Some e ->
                          exists d0 day, d = d0 ++ [(date_key e, day)]))
    as (d & Hrun & _ & Hconcat & _); [| by eauto].
  unfold schedule.
  induction events as [| event events IH] using rev_ind.
  - exists []. split; [done |]. split; [by split; [constructor |] |].
    split; [done |]. by intros e [=].
  - destruct IH as (d & Hrun & Hd & Hconcat & Hlast).
    { rewrite fmap_app in Hadj. by apply days_adjacent_snoc in Hadj as [? _]. }
    destruct (group_event_grouped _ _ event Hd) as (d' & Hstep & Hd').
    destruct (group_event_in_order _ _ _ _ Hd Hconcat Hlast Hadj Hstep)
      as [Hconcat' Hlast'].
    exists d'. split; [by rewrite for_each_snoc, Hrun |].
    split; [done |]. split; [done |].
    intros e He. rewrite last_snoc in He. by injection He as <-.
Qed.

End SchedulePage.

(** * How long the handler runs *)


(** * The database URI *)

Lemma prefix_app (p s : string) :
  String.prefix p s = true <-> exists rest, s = (p ++ rest)%string.
Proof.
  revert s. induction p as [| c p IH]; intros s.
  - split; [intros _; by exists s | by destruct s].
  - destruct s as [| c' s]; cbn [String.prefix].
    + split; [done | by intros [rest [=]]].
    + destruct (ascii_dec c c') as [<- | Hne].
      * rewrite IH. split; intros [rest E]; exists rest.
        -- change (String c s = String c (p ++ rest)%string). by rewrite E.
        -- change (String c s = String c (p ++ rest)%string) in E.
           by injection E.
      * split; [done |]. intros [rest E].
        change (String c' s = String c (p ++ rest)%string) in E. congruence.
Qed.

Lemma substring_all (s : string) : String.substring 0 (String.length s) s = s.
Proof. induction s as [| c s IH]; cbn; [done | by rewrite IH]. Qed.

Lemma substring_rest (p rest : string) :
  String.substring (String.length p)
    (String.length (p ++ rest) - String.length p) (p ++ rest)
  = rest.
Proof.
  induction p as [| c p IH]; cbn [String.length String.append].
  - rewrite Nat.sub_0_r. apply substring_all.
  - cbn [String.substring]. exact IH.
Qed.

Lemma replace_first_prefix (old new rest : string) :
  replace_first old new (old ++ rest) = (new ++ rest)%string.
Proof.
  assert (String.prefix old (old ++ rest) = true) as Hp
    by (apply prefix_app; by exists rest).
  destruct (old ++ rest)%string as [| c s] eqn:E; cbn [replace_first];
    rewrite Hp, <- E, substring_rest; done.
Qed.

Lemma database_uri_some (url : string) :
  database_uri (Some url)
  = if startswith url "postgres://"
    then replace_first "postgres://" "postgresql://" url
    else url.
Proof. reflexivity. Qed.

(** X18.  The URI given to SQLAlchemy never starts with [postgres://]: a
    [DATABASE_URL] with that scheme has it replaced by [postgresql://] and
    keeps the rest as it is, even when the rest contains [postgres://]
    again; any other value is passed on unchanged, and without the variable
    the URI is the local SQLite file.  Normalising twice changes nothing. *)
Theorem database_uri_scheme (DATABASE_URL : option string) (url : string) :
  startswith (database_uri DATABASE_URL) "postgres://" = false
  /\ database_uri (Some ("postgres://" ++ url)%string)
     = ("postgresql://" ++ url)%string
  /\ (startswith url "postgres://" = true \/ database_uri (Some url) = url)
  /\ database_uri None = "sqlite:///sirecup.db"%string
  /\ database_uri (Some (database_uri DATABASE_URL))
     = database_uri DATABASE_URL.
Proof.
  assert (forall rest,
            database_uri (Some ("postgres://" ++ rest)%string)
            = ("postgresql://" ++ rest)%string) as Hscheme.
  { intros rest. rewrite database_uri_some.
    assert (startswith ("postgres://" ++ rest) "postgres://" = true)
      as -> by (apply prefix_app; by exists rest).
    apply replace_first_prefix. }
  assert (forall s, startswith s "postgres://" = false ->
                    database_uri (Some s) = s) as Hother.
  { intros s Hs. by rewrite database_uri_some, Hs. }
  assert (startswith (database_uri DATABASE_URL) "postgres://" = false)
    as Hnever.
  { destruct DATABASE_URL as [s |]; [| done].
    destruct (startswith s "postgres://") eqn:Hs.
    - apply prefix_app in Hs as [rest ->]. by rewrite Hscheme.
    - by rewrite Hother. }
  split; [done |]. split; [apply Hscheme |]. split.
  - destruct (startswith url "postgres://") eqn:Hs; [by left | right].
    by apply Hother.
  - split; [done |]. by apply Hother.
Qed.

(** * The properties at work on examples *)

Lemma add_course_needs_eighteen_pars_witness :
  add_course (python := plain_python) [links] 2 new_links
    = Ok (Redirect "courses",
          [links;
           mkCourse 2 "Dunes"
             [4; 4; 3; 5; 4; 4; 3; 5; 4; 4; 4; 3; 5; 4; 4; 3; 5; 4]%Z])
  /\ ((Redirect "courses" = Render "add_course.html" true
       /\ [links;
           mkCourse 2 "Dunes"
             [4; 4; 3; 5; 4; 4; 3; 5; 4; 4; 4; 3; 5; 4; 4; 3; 5; 4]%Z]
          = [links])
      \/ (Redirect "courses" = Redirect "courses"
          /\ exists name pars_str pars,
               form_get new_links "name" = Some name
               /\ form_get new_links "pars" = Some pars_str
               /\ (name ∉ (course_name <$> [links]))
               /\ length pars = 18%nat
               /\ Forall2
                    (fun field par =>
                       py_int (Builtins := plain_python)
                         (strip (Builtins := plain_python) field) = Some par)
                    (List.filter (filled (python := plain_python))
                       (split_on comma pars_str)) pars
               /\ [links;
                   mkCourse 2 "Dunes"
                     [4; 4; 3; 5; 4; 4; 3; 5; 4; 4; 4; 3; 5; 4; 4; 3; 5; 4]%Z]
                  = [links] ++ [mkCourse 2 name pars])).
Proof.
  assert (add_course (python := plain_python) [links] 2 new_links
          = Ok (Redirect "courses",
                [links;
                 mkCourse 2 "Dunes"
                   [4; 4; 3; 5; 4; 4; 3; 5; 4; 4; 4; 3; 5; 4; 4; 3; 5; 4]%Z]))
    as Hrun by (by vm_compute).
  split; [exact Hrun |].
  exact (add_course_needs_eighteen_pars (python := plain_python)
           [links] _ 2 new_links _ Hrun).
Defined.


Lemma first_round_logged :
  log_round (python := plain_python) [links] [alice; bob] 1 7 first_holes
  = Ok (Redirect "rounds", (first_round, first_rows)).
Proof. by vm_compute. Defined.

Lemma logged_scorecards_witness :
  log_round (python := plain_python) [links] [alice; bob] 1 7 first_holes
    = Ok (Redirect "rounds", (first_round, first_rows))
  /\ exists course,
       get_course [links] 1 = Ok course
       /\ first_round = mkRoundRow 7 1 (form_get first_holes "round_notes")
       /\ Forall
            (fun row =>
               exists player,
                 player ∈ [alice; bob]
                 /\ has_entry (python := plain_python) first_holes player
                    = true
                 /\ score_player_id row = player_id player
                 /\ score_round_id row = 7%Z
                 /\ length (score_hole_scores row) = 18%nat
                 /\ score_total row = sum_Z (score_hole_scores row)
                 /\ Forall2
                      (fun i sc =>
                         hole_value (python := plain_python) first_holes
                           course player i = Some sc)
                      (seq 1 18) (score_hole_scores row))
            first_rows.
Proof.
  split; [exact first_round_logged |].
  exact (logged_scorecards (python := plain_python) [links] [alice; bob]
           1 7 first_holes _ _ _ first_round_logged).
Defined.

Lemma logged_players_witness :
  log_round (python := plain_python) [links] [alice; bob] 1 7 first_holes
    = Ok (Redirect "rounds", (first_round, first_rows))
  /\ score_player_id <$> first_rows
     = player_id <$> List.filter
                       (has_entry (python := plain_python) first_holes)
                       [alice; bob].
Proof.
  split; [exact first_round_logged |].
  exact (logged_players (python := plain_python) [links] [alice; bob]
           1 7 first_holes _ _ _ first_round_logged).
Defined.



Lemma links_has_eighteen_pars : eighteen_pars [links].
Proof. by repeat constructor. Defined.

Lemma courses_keep_eighteen_pars_witness :
  eighteen_pars [links]
  /\ eighteen_pars
       (table_after [links]
          (add_course (python := plain_python) [links] 2 new_links))
  /\ eighteen_pars
       (table_after [links]
          (edit_course (python := plain_python) [links] 2 new_links))
  /\ eighteen_pars (table_after [links] (delete_course [links] 2))
  /\ log_round (python := plain_python) [links] [alice; bob] 2 7 new_links
     <> Failed (Exception IndexError).
Proof.
  split; [exact links_has_eighteen_pars |].
  exact (courses_keep_eighteen_pars (python := plain_python) [links]
           [alice; bob] 2 7 new_links links_has_eighteen_pars).
Defined.

Lemma cup_standings :
  api_standings cup_matches = (0 + 1 + 0.5, 0 + 0 + 0.5, 2%nat).
Proof. reflexivity. Defined.

Lemma standings_agree_witness :
  reverse cup_matches ≡ₚ cup_matches
  /\ (page_standings (reverse cup_matches)).1
     == (api_standings cup_matches).1.1
  /\ (page_standings (reverse cup_matches)).2
     == (api_standings cup_matches).1.2.
Proof.
  assert (reverse cup_matches ≡ₚ cup_matches) as Hperm
    by apply reverse_Permutation.
  split; [exact Hperm |].
  exact (standings_agree (python := plain_python) cup_matches
           (reverse cup_matches) Hperm).
Defined.

Lemma schedule_keeps_order_witness :
  days_adjacent (date_key <$> trip_events) = true
  /\ exists events_by_date,
       schedule trip_events = Ok events_by_date
       /\ concat events_by_date.*2 = trip_events.
Proof.
  assert (days_adjacent (date_key <$> trip_events) = true) as Hadj
    by reflexivity.
  split; [exact Hadj |].
  exact (schedule_keeps_order (python := plain_python) trip_events Hadj).
Defined.
